(** * enc: a compact binary encoding for Go values

    A shallow embedding of package [enc] (encode.go, decode.go, machine.go and
    enc.go) together with the properties of its wire format.

    Conventions of the embedding.
    - A byte is a [Z] in [0, 256); a [uint64] is a [Z] in [0, 2^64) and an
      [int64] a [Z] in [-2^63, 2^63); Go's [int] is taken to be 64 bits wide.
    - A panic is an explicit outcome.  [noPanic] is the panic the entry points
      recover and turn into a returned error; every other panic escapes.
    - The process-wide registry [types] and the byte sink or source travel as
      explicit state through a small state-and-panic monad.
    - Type descriptors are finite trees: named types that refer to themselves
      are outside this model, and so is the hand-off of [recurseMachine]
      between goroutines.  [float32] and [complex64] are left out (their
      widening to [float64] is not modelled); [float64] is carried as its
      IEEE bit pattern.
    - [encoding/binary], [bufio], [io] and [reflect] are the Go standard
      library; the few functions used are transcribed next to their callers.
    - Sizes are those of the gc compiler on a 64-bit platform with 48-bit
      heap addresses (linux/amd64): an allocation of more than [maxAlloc]
      bytes panics, and one within [maxAlloc] is taken to succeed.
    - The entries of a map value are listed in the order in which
      [MapKeys] returns its keys in the call at hand; the runtime chooses
      that order anew for every call, so the same map is another list in
      another call. *)

From Stdlib Require Import ZArith List Lia Bool Arith.
Import ListNotations.

Set Warnings "-register-all".

Local Open Scope Z_scope.

(** ** Machine integers *)

Definition two64 : Z := 2 ^ 64.
Definition two63 : Z := 2 ^ 63.

Definition is_byte (b : Z) : Prop := 0 <= b < 256.
Definition is_uint64 (u : Z) : Prop := 0 <= u < two64.
Definition is_int64 (i : Z) : Prop := - two63 <= i < two63.

(** [uint64(x)] for any integer [x]. *)
Definition to_uint64 (x : Z) : Z := x mod two64.

(** [int(u)] for a [uint64]: two's complement reinterpretation. *)
Definition to_int (u : Z) : Z :=
  if u mod two64 <? two63 then u mod two64 else u mod two64 - two64.

(** [byte(x)]. *)
Definition to_byte (x : Z) : Z := x mod 256.

(** ** encoding/binary: writing varints *)

Module binary.

Definition MaxVarintLen64 : nat := 10.

(** [PutUvarint]: the loop [for x >= 0x80 { buf[i] = byte(x) | 0x80; x >>= 7; i++ }]
    followed by [buf[i] = byte(x)].  [n] is the room left in [buf]; an index
    past the end of [buf] is Go's index panic, [None]. *)
Fixpoint put_loop (n : nat) (x : Z) : option (list Z) :=
  match n with
  | O => None
  | S n' =>
      if 128 <=? x
      then option_map (cons (Z.lor (to_byte x) 128)) (put_loop n' (Z.shiftr x 7))
      else Some [to_byte x]
  end.

Definition PutUvarint (x : Z) : option (list Z) := put_loop MaxVarintLen64 x.

(** [PutVarint]: [ux := uint64(x) << 1; if x < 0 { ux = ^ux }], then [PutUvarint]. *)
Definition zigzag (x : Z) : Z :=
  let ux := to_uint64 (Z.shiftl (to_uint64 x) 1) in
  if x <? 0 then two64 - 1 - ux else ux.

Definition PutVarint (x : Z) : option (list Z) := PutUvarint (zigzag x).

(** [ReadVarint]: [x := int64(ux >> 1); if ux&1 != 0 { x = ^x }]. *)
Definition unzigzag (ux : Z) : Z :=
  let x := Z.shiftr ux 1 in
  if Z.testbit ux 0 then - x - 1 else x.

End binary.

(** ** Errors and panics *)

(** The [error] values that travel through the package. *)
Inductive error : Type :=
| EOF                        (* io.EOF *)
| ErrUnexpectedEOF           (* io.ErrUnexpectedEOF *)
| errOverflow                (* binary: varint overflows a 64-bit integer *)
| ErrInvalidUnreadByte       (* UnreadByte with nothing to unread *)
| ErrTransport (code : nat)  (* any other failure of the underlying stream *)
| ErrMarshal (code : nat).   (* an error returned by MarshalBinary / UnmarshalBinary *)

Definition error_eqb (a b : error) : bool :=
  match a, b with
  | EOF, EOF | ErrUnexpectedEOF, ErrUnexpectedEOF | errOverflow, errOverflow
  | ErrInvalidUnreadByte, ErrInvalidUnreadByte => true
  | ErrTransport x, ErrTransport y | ErrMarshal x, ErrMarshal y => Nat.eqb x y
  | _, _ => false
  end.

(** Run-time panics raised by the Go runtime or by [reflect]. *)
Inductive runtime_error : Type :=
| NilDereference     (* method call through a nil interface or nil pointer *)
| IndexOutOfRange
| ReflectKind        (* a reflect.Value method used on the wrong Kind *)
| ReflectZeroValue   (* a reflect.Value method used on the zero Value *)
| ReflectNotSettable (* Set / Addr on a value that is not addressable *)
| TypeAssertion      (* failed x.(T) *)
| LenOutOfRange      (* make / MakeSlice / MakeChan with a negative or oversized length *)
| SendOnClosed.

(** ** reflect: type descriptors *)

Inductive ikind : Type := KInt | KInt8 | KInt16 | KInt32 | KInt64.
Inductive ukind : Type := KUint | KUint8 | KUint16 | KUint32 | KUint64 | KUintptr.

Definition ibits (k : ikind) : Z :=
  match k with KInt8 => 8 | KInt16 => 16 | KInt32 => 32 | KInt | KInt64 => 64 end.
Definition ubits (k : ukind) : Z :=
  match k with KUint8 => 8 | KUint16 => 16 | KUint32 => 32 | KUint | KUint64 | KUintptr => 64 end.

Definition ikind_eqb (a b : ikind) : bool :=
  match a, b with
  | KInt, KInt | KInt8, KInt8 | KInt16, KInt16 | KInt32, KInt32 | KInt64, KInt64 => true
  | _, _ => false
  end.
Definition ukind_eqb (a b : ukind) : bool :=
  match a, b with
  | KUint, KUint | KUint8, KUint8 | KUint16, KUint16 | KUint32, KUint32
  | KUint64, KUint64 | KUintptr, KUintptr => true
  | _, _ => false
  end.

(** What [Implements] answers for a type [t] and for [*t]. *)
Record methods : Type := mkMethods {
  ptr_marshaler : bool;     (* reflect.PtrTo(t).Implements(marshalerType) *)
  ptr_unmarshaler : bool;   (* reflect.PtrTo(t).Implements(unmarshalerType) *)
  val_marshaler : bool;     (* t.Implements(marshalerType) *)
  val_unmarshaler : bool    (* t.Implements(unmarshalerType) *)
}.

Definition no_methods : methods := mkMethods false false false false.

Definition methods_eqb (a b : methods) : bool :=
  Bool.eqb (ptr_marshaler a) (ptr_marshaler b) && Bool.eqb (ptr_unmarshaler a) (ptr_unmarshaler b)
  && Bool.eqb (val_marshaler a) (val_marshaler b) && Bool.eqb (val_unmarshaler a) (val_unmarshaler b).

(** [reflect.StructField], as far as [register] looks at it. *)
Record StructField (T : Type) : Type := mkField {
  PkgPath : bool;      (* [f.PkgPath != ""]: the field is unexported *)
  Anonymous : bool;
  Type_ : T
}.
Arguments mkField {T}.
Arguments PkgPath {T}.
Arguments Anonymous {T}.
Arguments Type_ {T}.

(** [reflect.Type], by [Kind].  Only struct and func types carry a method set
    here: for every other kind [register] never asks. *)
Inductive type : Type :=
| TBool
| TInt (k : ikind)
| TUint (k : ukind)
| TFloat64
| TComplex128
| TArray (len : nat) (elem : type)
| TChan (elem : type)
| TInterface
| TMap (key elem : type)
| TPtr (elem : type)
| TSlice (elem : type)
| TString
| TStruct (ms : methods) (fields : list (StructField type))
| TFunc (ms : methods).

Definition bytesType : type := TSlice (TUint KUint8).

Fixpoint type_eqb (a b : type) {struct a} : bool :=
  match a, b with
  | TBool, TBool | TFloat64, TFloat64 | TComplex128, TComplex128
  | TInterface, TInterface | TString, TString => true
  | TInt k, TInt k' => ikind_eqb k k'
  | TUint k, TUint k' => ukind_eqb k k'
  | TArray n e, TArray n' e' => Nat.eqb n n' && type_eqb e e'
  | TChan e, TChan e' | TPtr e, TPtr e' | TSlice e, TSlice e' => type_eqb e e'
  | TMap k e, TMap k' e' => type_eqb k k' && type_eqb e e'
  | TStruct ms fs, TStruct ms' fs' =>
      methods_eqb ms ms' &&
      (fix fields_eqb (xs ys : list (StructField type)) {struct xs} : bool :=
         match xs, ys with
         | [], [] => true
         | x :: xs', y :: ys' =>
             Bool.eqb (PkgPath x) (PkgPath y) && Bool.eqb (Anonymous x) (Anonymous y)
             && type_eqb (Type_ x) (Type_ y) && fields_eqb xs' ys'
         | _, _ => false
         end) fs fs'
  | TFunc ms, TFunc ms' => methods_eqb ms ms'
  | _, _ => false
  end.

(** [t.Comparable()]. *)
Fixpoint Comparable (t : type) : bool :=
  match t with
  | TFunc _ | TMap _ _ | TSlice _ => false
  | TArray _ e => Comparable e
  | TStruct _ fs =>
      (fix all (xs : list (StructField type)) : bool :=
         match xs with
         | [] => true
         | x :: xs' => Comparable (Type_ x) && all xs'
         end) fs
  | _ => true
  end.

(** ** Sizes and the allocation limit *)

(** [maxAlloc] of the runtime: [1 << heapAddrBits]. *)
Definition maxAlloc : Z := 2 ^ 48.

(** [unsafe.Sizeof(hchan{})], rounded up to the maximal alignment: 96 bytes
    on a 64-bit platform in the releases of Go the package was written for. *)
Definition hchanSize : Z := 96.

Definition align_up (o a : Z) : Z := (o + a - 1) / a * a.

(** [t.Align()]. *)
Fixpoint Align (t : type) : Z :=
  match t with
  | TBool => 1
  | TInt k => ibits k / 8
  | TUint k => ubits k / 8
  | TArray _ e => Align e
  | TStruct _ fs =>
      (fix widest (xs : list (StructField type)) : Z :=
         match xs with
         | [] => 1
         | x :: xs' => Z.max (Align (Type_ x)) (widest xs')
         end) fs
  | _ => 8
  end.

(** [t.Size()].  The fields of a record are laid out in order, each at the
    next multiple of its alignment; a record that has a size and ends in a
    field without one gets a byte of padding; the size is rounded up to the
    alignment of the record. *)
Fixpoint Sizeof (t : type) : Z :=
  match t with
  | TBool => 1
  | TInt k => ibits k / 8
  | TUint k => ubits k / 8
  | TFloat64 => 8
  | TComplex128 => 16
  | TArray n e => Z.of_nat n * Sizeof e
  | TChan _ | TMap _ _ | TPtr _ | TFunc _ => 8
  | TInterface | TString => 16
  | TSlice _ => 24
  | TStruct _ fs =>
      let '(o, last) :=
        (fix layout (xs : list (StructField type)) (o last : Z) : Z * Z :=
           match xs with
           | [] => (o, last)
           | x :: xs' =>
               layout xs' (align_up o (Align (Type_ x)) + Sizeof (Type_ x)) (Sizeof (Type_ x))
           end) fs 0 1 in
      align_up (if (0 <? o) && (last =? 0) then o + 1 else o) (Align t)
  end.

(** [newarray(typ, n)] of the runtime, behind [reflect.MakeSlice]: a single
    element is allocated as such, otherwise the total size must not exceed
    [maxAlloc]. *)
Definition newarray_ok (e : type) (n : Z) : bool :=
  (n =? 1) || (n * Sizeof e <=? maxAlloc).

(** [makechan(t, size)] of the runtime, behind [reflect.MakeChan]: the
    buffer and the channel header together must not exceed [maxAlloc]. *)
Definition makechan_ok (e : type) (n : Z) : bool :=
  n * Sizeof e <=? maxAlloc - hchanSize.

(** ** reflect: values *)

(** What a [reflect.Value] holds.  Integers remember their [Kind] because
    [SetInt] and [SetUint] truncate to it.  A slice records its capacity; a
    channel its capacity, the elements still to be received in order, and
    whether it is closed behind them.  Pointers are modelled by their pointee.
    A map lists its entries in the order in which [MapKeys] returns the keys
    in the call at hand: that order is the runtime's choice, made anew for
    every call, so no property may compare what two calls make of one list. *)
Inductive value : Type :=
| VBool (b : bool)
| VInt (k : ikind) (i : Z)
| VUint (k : ukind) (u : Z)
| VFloat (bits : Z)
| VComplex (re im : Z)
| VString (s : list Z)
| VArray (elems : list value)
| VStruct (fields : list value)
| VNilSlice
| VSlice (cap : nat) (elems : list value)
| VNilMap
| VMap (entries : list (value * value))
| VNilPtr
| VPtr (pointee : value)
| VNilIface
| VIface (dyn : type) (v : value)
| VNilChan
| VChan (cap : nat) (buf : list value) (closed : bool)
| VNilFunc
| VFunc (id : nat).

(** [reflect.Zero(t)], which is also what [reflect.New(t).Elem()] holds. *)
Fixpoint Zero (t : type) : value :=
  match t with
  | TBool => VBool false
  | TInt k => VInt k 0
  | TUint k => VUint k 0
  | TFloat64 => VFloat 0
  | TComplex128 => VComplex 0 0
  | TArray n e => VArray (repeat (Zero e) n)
  | TChan _ => VNilChan
  | TInterface => VNilIface
  | TMap _ _ => VNilMap
  | TPtr _ => VNilPtr
  | TSlice _ => VNilSlice
  | TString => VString []
  | TStruct _ fs =>
      VStruct ((fix zeros (xs : list (StructField type)) : list value :=
                  match xs with
                  | [] => []
                  | x :: xs' => Zero (Type_ x) :: zeros xs'
                  end) fs)
  | TFunc _ => VNilFunc
  end.

(** IEEE [==] on two [float64] bit patterns: NaN equals nothing, the two
    zeros are equal. *)
Definition float_isNaN (bits : Z) : bool :=
  let e := Z.land (Z.shiftr bits 52) 2047 in
  let f := Z.land bits (2 ^ 52 - 1) in
  (e =? 2047) && negb (f =? 0).

Definition float_isZero (bits : Z) : bool := (bits =? 0) || (bits =? two63).

Definition float_eq (a b : Z) : bool :=
  negb (float_isNaN a) && negb (float_isNaN b)
  && ((a =? b) || (float_isZero a && float_isZero b)).

(** [m.z == v.Interface()] in [compareMachine.encode], where [m.z] is the
    zero value of [v]'s own type: Go's [==] against the zero value, field by
    field and element by element. *)
Fixpoint is_zero (v : value) : bool :=
  match v with
  | VBool b => negb b
  | VInt _ i => i =? 0
  | VUint _ u => u =? 0
  | VFloat b => float_eq 0 b
  | VComplex re im => float_eq 0 re && float_eq 0 im
  | VString s => match s with [] => true | _ => false end
  | VArray vs | VStruct vs =>
      (fix all (xs : list value) : bool :=
         match xs with
         | [] => true
         | x :: xs' => is_zero x && all xs'
         end) vs
  | VNilPtr | VNilIface | VNilChan => true
  | _ => false
  end.

(** Go's [==] on two map keys built by two different [reflect.New] calls:
    distinct allocations are distinct pointers and distinct channels. *)
Fixpoint key_eq (a b : value) {struct a} : bool :=
  match a, b with
  | VBool x, VBool y => Bool.eqb x y
  | VInt _ x, VInt _ y | VUint _ x, VUint _ y => x =? y
  | VFloat x, VFloat y => float_eq x y
  | VComplex r i, VComplex r' i' => float_eq r r' && float_eq i i'
  | VString x, VString y => if list_eq_dec Z.eq_dec x y then true else false
  | VArray xs, VArray ys | VStruct xs, VStruct ys =>
      (fix all (xs ys : list value) {struct xs} : bool :=
         match xs, ys with
         | [], [] => true
         | x :: xs', y :: ys' => key_eq x y && all xs' ys'
         | _, _ => false
         end) xs ys
  | VNilPtr, VNilPtr | VNilIface, VNilIface | VNilChan, VNilChan => true
  | VIface t x, VIface t' y => type_eqb t t' && key_eq x y
  | _, _ => false
  end.

(** [v.SetMapIndex(key, val)] on a non-nil map. *)
Fixpoint SetMapIndex (m : list (value * value)) (key val : value) : list (value * value) :=
  match m with
  | [] => [(key, val)]
  | (k, x) :: m' => if key_eq k key then (k, val) :: m' else (k, x) :: SetMapIndex m' key val
  end.

(** [v.MapIndex(key)]. *)
Fixpoint MapIndex (m : list (value * value)) (key : value) : option value :=
  match m with
  | [] => None
  | (k, x) :: m' => if key_eq k key then Some x else MapIndex m' key
  end.

(** [reflect.DeepEqual(a, b)] for two values of one type that share no
    pointer, map or channel (an original and what was decoded from its
    bytes). *)
Fixpoint DeepEqual (a b : value) {struct a} : bool :=
  match a, b with
  | VBool x, VBool y => Bool.eqb x y
  | VInt _ x, VInt _ y | VUint _ x, VUint _ y => x =? y
  | VFloat x, VFloat y => float_eq x y
  | VComplex r i, VComplex r' i' => float_eq r r' && float_eq i i'
  | VString x, VString y => if list_eq_dec Z.eq_dec x y then true else false
  | VArray xs, VArray ys | VStruct xs, VStruct ys | VSlice _ xs, VSlice _ ys =>
      (fix all (xs ys : list value) {struct xs} : bool :=
         match xs, ys with
         | [] , [] => true
         | x :: xs', y :: ys' => DeepEqual x y && all xs' ys'
         | _, _ => false
         end) xs ys
  | VNilSlice, VNilSlice | VNilMap, VNilMap | VNilPtr, VNilPtr
  | VNilIface, VNilIface | VNilChan, VNilChan | VNilFunc, VNilFunc => true
  | VMap xs, VMap ys =>
      Nat.eqb (length xs) (length ys) &&
      (fix all (xs : list (value * value)) : bool :=
         match xs with
         | [] => true
         | (k, x) :: xs' =>
             match MapIndex ys k with
             | Some y => DeepEqual x y && all xs'
             | None => false
             end
         end) xs
  | VPtr x, VPtr y => DeepEqual x y
  | VIface t x, VIface t' y => type_eqb t t' && DeepEqual x y
  | _, _ => false
  end.

(** ** Outcomes and the state-and-panic monad *)

(** [noPanic] wraps an [error]; the entry points recover exactly this one. *)
Inductive panic_value : Type :=
| noPanic (e : error)
| TypeError (T : type)
| RuntimeError (r : runtime_error).

(** How a Go call ends: it returns, it panics, it blocks forever on a channel
    operation, or the model's recursion budget ran out. *)
Inductive outcome (A : Type) : Type :=
| Ok (a : A)
| Panic (p : panic_value)
| Blocked
| OutOfFuel.
Arguments Ok {A}.
Arguments Panic {A}.
Arguments Blocked {A}.
Arguments OutOfFuel {A}.

Definition M (St A : Type) : Type := St -> outcome A * St.

Definition ret {St A : Type} (a : A) : M St A := fun s => (Ok a, s).

Definition bind {St A B : Type} (c : M St A) (k : A -> M St B) : M St B :=
  fun s =>
    match c s with
    | (Ok a, s') => k a s'
    | (Panic p, s') => (Panic p, s')
    | (Blocked, s') => (Blocked, s')
    | (OutOfFuel, s') => (OutOfFuel, s')
    end.

Definition panic {St A : Type} (p : panic_value) : M St A := fun s => (Panic p, s).
Definition block {St A : Type} : M St A := fun s => (Blocked, s).
Definition out_of_fuel {St A : Type} : M St A := fun s => (OutOfFuel, s).

Declare Scope go_scope.
Delimit Scope go_scope with go.
Notation "x <- c ;; k" := (bind c (fun x => k))
  (at level 61, c at next level, right associativity) : go_scope.
Notation "c ;;; k" := (bind c (fun _ => k))
  (at level 61, right associativity) : go_scope.
Local Open Scope go_scope.

(** The loop [for i := 0; i < n; i++ { body(i) }] threading an accumulator. *)
Fixpoint for_loop {St A : Type} (n : nat) (i : nat) (body : nat -> A -> M St A) (acc : A) : M St A :=
  match n with
  | O => ret acc
  | S n' => acc' <- body i acc ;; for_loop n' (S i) body acc'
  end.

(** ** Machines and the registry *)

(** The implementations of the [machine] interface, and the nil interface
    value.  [recurseMachine] is identified by the type whose registration it
    waits for. *)
Inductive machine : Type :=
| nil_machine
| recurseMachine (waits_for : type)
| compareMachine (zv : value) (m : machine)
| boolMachine
| intMachine
| uintMachine
| floatMachine
| complexMachine
| arrayMachine (l : nat) (m : machine)
| chanMachine (z : value) (t ts tc : type) (m ms : machine)
| interfaceMachine (z : value)
| mapMachine (t tk tv : type) (k v : machine)
| ptrMachine (z : value) (t : type) (m : machine)
| sliceMachine (t : type) (m : machine)
| stringMachine
| structMachine (ms : list machine)
| bytesMachine
| marshalerMachine (e d : bool).

(** [_types.m]: a finite map from type to machine (possibly the nil machine). *)
Definition registry : Type := list (type * machine).

(** [r, ok := g.m[t]]. *)
Fixpoint lookup (g : registry) (t : type) : option machine :=
  match g with
  | [] => None
  | (t', m) :: g' => if type_eqb t' t then Some m else lookup g' t
  end.

(** [g.m[t] = m]. *)
Fixpoint store (g : registry) (t : type) (m : machine) : registry :=
  match g with
  | [] => [(t, m)]
  | (t', m') :: g' => if type_eqb t' t then (t', m) :: g' else (t', m') :: store g' t m
  end.

(** [g.get(t)], given the code of [g.register(t)]. *)
Definition get_with (register_t : M registry machine) (t : type) : M registry machine :=
  fun g =>
    match lookup g t with
    | Some r => (Ok r, g)
    | None => register_t g
    end.

(** The frame of [register]: the second look under the write lock, the
    placeholder, and the deferred function that publishes [ret] (nil when the
    body panicked before assigning it). *)
Definition registering (t : type) (body : M registry machine) : M registry machine :=
  fun g =>
    match lookup g t with
    | Some r => (Ok r, g)
    | None =>
        match body (store g t (recurseMachine t)) with
        | (Ok r, g') => (Ok r, store g' t r)
        | (o, g') => (o, store g' t nil_machine)
        end
    end.

(** The tail of [register] after [bigswitch]: the BinaryMarshaler fallback and
    the zero-value wrapper.  [ret] is nil when no case assigned it. *)
Definition finish (t : type) (ms : methods) (ret0 : machine) : M registry machine :=
  ret1 <- match ret0 with
          | nil_machine =>
              let e := ptr_marshaler ms in
              let d := ptr_unmarshaler ms in
              if negb (e || val_marshaler ms) && negb (d || val_unmarshaler ms)
              then panic (TypeError t)
              else ret (marshalerMachine e d)
          | _ => ret ret0
          end ;;
  if Comparable t then ret (compareMachine (Zero t) ret1) else ret ret1.

(** [case reflect.Slice] of [register]. *)
Definition register_slice (elem : type) (get_elem : M registry machine) : M registry machine :=
  if type_eqb (TSlice elem) bytesType then ret bytesMachine
  else m <- get_elem ;; ret (sliceMachine (TSlice elem) m).

(** [register]: the machine for [t], built from the machines of its parts. *)
Fixpoint register (t : type) {struct t} : M registry machine :=
  registering t
    match t with
    | TBool => ret boolMachine
    | TInt _ => ret intMachine
    | TUint _ => ret uintMachine
    | TFloat64 => ret floatMachine
    | TComplex128 => ret complexMachine
    | TArray l e =>
        m <- get_with (register e) e ;;
        finish t no_methods (arrayMachine l m)
    | TChan e =>
        let s := TSlice e in
        m <- get_with (register e) e ;;
        ms <- get_with (registering s (register_slice e (get_with (register e) e))) s ;;
        ret (chanMachine (Zero t) e s t m ms)
    | TInterface => ret (interfaceMachine (Zero t))
    | TMap k v =>
        mk <- get_with (register k) k ;;
        mv <- get_with (register v) v ;;
        ret (mapMachine t k v mk mv)
    | TPtr e =>
        m <- get_with (register e) e ;;
        ret (ptrMachine (Zero t) e m)
    | TSlice e => register_slice e (get_with (register e) e)
    | TString => ret stringMachine
    | TStruct ms fs =>
        r <- (fix fields (xs : list (StructField type)) (r : list machine)
                : M registry (option (list machine)) :=
                match xs with
                | [] => ret (Some r)
                | f :: xs' =>
                    if PkgPath f && negb (Anonymous f) then ret None
                    else m <- get_with (register (Type_ f)) (Type_ f) ;;
                         fields xs' (r ++ [m])
                end) fs [] ;;
        match r with
        | Some r => finish t ms (structMachine r)
        | None => finish t ms nil_machine
        end
    | TFunc ms => finish t ms nil_machine
    end.

Definition get (t : type) : M registry machine := get_with (register t) t.

(** ** Byte sinks and sources *)

(** Bookkeeping for the streams: [None] while no call on the stream has
    returned an error, [Some n] once one has, with [n] the number of calls
    made on the stream after that first failing call. *)
Definition tick (after : option nat) (failed : bool) : option nat :=
  match after with
  | Some n => Some (S n)
  | None => if failed then Some O else None
  end.

(** The stream behind an [io.Writer]: what it has accepted so far, how many
    more bytes it accepts before it starts failing ([None]: it never fails),
    and the error it then returns. *)
Record sink : Type := mkSink {
  written : list Z;
  room : option nat;
  werr : error;
  w_after : option nat
}.

(** [Write], [WriteByte] and [WriteString] of the stream: the bytes that fit
    are written, and the error is returned when some did not. *)
Definition sink_Write (k : sink) (b : list Z) : sink * option error :=
  match room k with
  | None => (mkSink (written k ++ b) None (werr k) (tick (w_after k) false), None)
  | Some r =>
      if (length b <=? r)%nat
      then (mkSink (written k ++ b) (Some (r - length b)%nat) (werr k) (tick (w_after k) false),
            None)
      else (mkSink (written k ++ firstn r b) (Some O) (werr k) (tick (w_after k) true),
            Some (werr k))
  end.

(** An [io.Writer] handed to [Encode], and whether its dynamic type also has
    [WriteByte] and [WriteString] (the package's [writer] interface). *)
Record io_Writer : Type := mkWriter {
  is_writer : bool;
  w_sink : sink
}.

(** The stream behind an [io.Reader]: the bytes still to come, the error that
    follows them ([EOF] for a stream that simply ends), and the byte that
    [UnreadByte] would give back. *)
Record source : Type := mkSource {
  data : list Z;
  rerr : error;
  last : option Z;
  r_after : option nat
}.

Definition source_ReadByte (r : source) : source * (Z + error) :=
  match data r with
  | b :: rest => (mkSource rest (rerr r) (Some b) (tick (r_after r) false), inl b)
  | [] => (mkSource [] (rerr r) None (tick (r_after r) true), inr (rerr r))
  end.

Definition source_UnreadByte (r : source) : source * option error :=
  match last r with
  | Some b => (mkSource (b :: data r) (rerr r) None (tick (r_after r) false), None)
  | None => (mkSource (data r) (rerr r) None (tick (r_after r) true), Some ErrInvalidUnreadByte)
  end.

(** [io.ReadFull(r, buf)] with [len(buf) = n]: [EOF] only when no byte at all
    was read, [ErrUnexpectedEOF] when the stream ended part-way. *)
Definition io_ReadFull (r : source) (n : nat) : source * (list Z + error) :=
  if (n =? 0)%nat then (r, inl [])
  else if (n <=? length (data r))%nat
  then (mkSource (skipn n (data r)) (rerr r) (nth_error (data r) (n - 1))
          (tick (r_after r) false),
        inl (firstn n (data r)))
  else
    let err :=
      match data r, rerr r with
      | _ :: _, EOF => ErrUnexpectedEOF
      | _, e => e
      end in
    (mkSource [] (rerr r) None (tick (r_after r) true), inr err).

(** An [io.Reader] handed to [Decode], and whether its dynamic type is also an
    [io.ByteScanner] (the package's [reader] interface). *)
Record io_Reader : Type := mkReader {
  is_reader : bool;
  r_source : source
}.

(** ** encode.go: the encoder *)

(** The state an encode call works on: the registry [types] and the
    [encoder] ([e.w] is nil until it is assigned). *)
Record estate : Type := mkE {
  e_types : registry;
  e_w : option sink
}.

Definition e_lift {A : Type} (c : M registry A) : M estate A :=
  fun s => let '(o, g) := c (e_types s) in (o, mkE g (e_w s)).

(** [e.w.Write(b)], [e.w.WriteByte(b)] and [e.w.WriteString(s)] followed by
    [if err != nil { panic(noPanic{err}) }]. *)
Definition e_write (b : list Z) : M estate unit :=
  fun s =>
    match e_w s with
    | None => (Panic (RuntimeError NilDereference), s)
    | Some k =>
        match sink_Write k b with
        | (k', None) => (Ok tt, mkE (e_types s) (Some k'))
        | (k', Some err) => (Panic (noPanic err), mkE (e_types s) (Some k'))
        end
    end.

Definition e_writeByte (b : Z) : M estate unit := e_write [b].
Definition e_writeString (s : list Z) : M estate unit := e_write s.

Definition encodeUint (u : Z) : M estate unit :=
  match binary.PutUvarint u with
  | Some b => e_write b
  | None => panic (RuntimeError IndexOutOfRange)
  end.

Definition encodeInt (i : Z) : M estate unit :=
  match binary.PutVarint i with
  | Some b => e_write b
  | None => panic (RuntimeError IndexOutOfRange)
  end.

(** ** decode.go: the decoder *)

(** The state a decode call works on: the registry [types] and the
    [decoder].  [d.r] is the caller's stream when that is a [reader].
    Otherwise [DecodeValue] hands [bufio.NewReader] the [r] of the failed
    type assertion, which is nil: [d_nil] tells that [d.r] is a
    [bufio.Reader] around a nil reader, and the caller's stream, still kept
    in [d_r], is never touched. *)
Record dstate : Type := mkDstate {
  d_types : registry;
  d_r : source;
  d_nil : bool
}.

(** The state of a decoder that reads the caller's stream. *)
Abbreviation mkD g r := (mkDstate g r false).

Definition d_lift {A : Type} (c : M registry A) : M dstate A :=
  fun s => let '(o, g) := c (d_types s) in (o, mkDstate g (d_r s) (d_nil s)).

(** [binary.ReadUvarint] of the current standard library: up to
    [MaxVarintLen64] bytes; an [EOF] after the first byte becomes
    [ErrUnexpectedEOF], an [EOF] in place of the first byte is returned as it
    is. *)
Fixpoint read_loop (n : nat) (i : nat) (x s : Z) (r : source) : source * (Z + error) :=
  match n with
  | O => (r, inr errOverflow)
  | S n' =>
      match source_ReadByte r with
      | (r', inr err) =>
          (r', inr (if (0 <? i)%nat && error_eqb err EOF then ErrUnexpectedEOF else err))
      | (r', inl b) =>
          if b <? 128
          then if (i =? 9)%nat && (1 <? b)
               then (r', inr errOverflow)
               else (r', inl (Z.lor x (to_uint64 (Z.shiftl b s))))
          else read_loop n' (S i) (Z.lor x (to_uint64 (Z.shiftl (Z.land b 127) s))) (s + 7) r'
      end
  end.

Definition ReadUvarint (r : source) : source * (Z + error) :=
  read_loop binary.MaxVarintLen64 0 0 0 r.

Definition ReadVarint (r : source) : source * (Z + error) :=
  match ReadUvarint r with
  | (r', inl ux) => (r', inl (binary.unzigzag ux))
  | (r', inr err) => (r', inr err)
  end.

(** A call on [d.r] that reads, followed by
    [if err != nil { panic(noPanic{err}) }].  The [bufio.Reader] around the
    nil reader has nothing buffered and calls [Read] on it: a nil
    dereference. *)
Definition d_call {A : Type} (f : source -> source * (A + error)) : M dstate A :=
  fun s =>
    if d_nil s then (Panic (RuntimeError NilDereference), s)
    else
      match f (d_r s) with
      | (r', inl a) => (Ok a, mkD (d_types s) r')
      | (r', inr err) => (Panic (noPanic err), mkD (d_types s) r')
      end.

Definition decodeInt : M dstate Z := d_call ReadVarint.
Definition decodeUint : M dstate Z := d_call ReadUvarint.

(** [d.read(size)]: [make([]byte, size)], which panics for a [size] above
    [maxAlloc], then [io.ReadFull], which for an empty buffer returns at once
    without a call on the stream, and where a bare [io.EOF] is reported as
    [io.ErrUnexpectedEOF]. *)
Definition d_read (size : Z) : M dstate (list Z) :=
  if maxAlloc <? size then panic (RuntimeError LenOutOfRange)
  else if size =? 0 then ret []
  else d_call (fun r =>
         match io_ReadFull r (Z.to_nat size) with
         | (r', inr err) => (r', inr (if error_eqb err EOF then ErrUnexpectedEOF else err))
         | ok => ok
         end).

Definition d_readByte : M dstate Z := d_call source_ReadByte.

(** [d.unreadByte()].  A [bufio.Reader] that has read nothing refuses. *)
Definition d_unreadByte : M dstate unit :=
  fun s =>
    if d_nil s then (Panic (noPanic ErrInvalidUnreadByte), s)
    else
      d_call (fun r =>
        match source_UnreadByte r with
        | (r', None) => (r', inl tt)
        | (r', Some err) => (r', inr err)
        end) s.

(** ** reflect: the operations the machines use *)

Definition rpanic {St A : Type} (r : runtime_error) : M St A := panic (RuntimeError r).

(** [v.Index(i)] together with whether the element is addressable when [v] is. *)
Definition Index {St : Type} (a : bool) (v : value) (i : nat) : M St (value * bool) :=
  match v with
  | VArray xs =>
      match nth_error xs i with Some x => ret (x, a) | None => rpanic IndexOutOfRange end
  | VSlice _ xs =>
      match nth_error xs i with Some x => ret (x, true) | None => rpanic IndexOutOfRange end
  | _ => rpanic ReflectKind
  end.

(** [v.Field(i)]. *)
Definition Field {St : Type} (v : value) (i : nat) : M St value :=
  match v with
  | VStruct xs =>
      match nth_error xs i with Some x => ret x | None => rpanic IndexOutOfRange end
  | _ => rpanic ReflectKind
  end.

Fixpoint set_nth (xs : list value) (i : nat) (x : value) : list value :=
  match xs, i with
  | [], _ => []
  | _ :: xs', O => x :: xs'
  | y :: xs', S i' => y :: set_nth xs' i' x
  end.

(** The effect on [v] of a store through [v.Index(i)] or [v.Field(i)]. *)
Definition set_elem (v : value) (i : nat) (x : value) : value :=
  match v with
  | VArray xs => VArray (set_nth xs i x)
  | VSlice c xs => VSlice c (set_nth xs i x)
  | VStruct xs => VStruct (set_nth xs i x)
  | _ => v
  end.

(** [v.Bytes()] of a byte slice. *)
Fixpoint Bytes (xs : list value) : option (list Z) :=
  match xs with
  | [] => Some []
  | VUint _ b :: xs' => option_map (cons b) (Bytes xs')
  | _ :: _ => None
  end.

(** [v.Send(x)] on a non-nil channel with no receiver waiting. *)
Definition Send {St : Type} (v x : value) : M St value :=
  match v with
  | VChan c buf closed =>
      if closed then rpanic SendOnClosed
      else if (length buf <? c)%nat then ret (VChan c (buf ++ [x]) closed)
      else block
  | VNilChan => block
  | _ => rpanic ReflectKind
  end.

(** [SetInt] and [SetUint] store through the width of the value's kind. *)
Definition wrap_int (k : ikind) (x : Z) : Z :=
  let h := 2 ^ (ibits k - 1) in (x + h) mod (2 * h) - h.
Definition wrap_uint (k : ukind) (x : Z) : Z := x mod 2 ^ ubits k.

(** The methods of the values' own types: [MarshalBinary] and
    [UnmarshalBinary] are code of the caller.  [through_ptr] tells whether the
    receiver is [v.Addr()]; [None] is a failed type assertion. *)
Record usercode : Type := mkUser {
  AsMarshaler : forall (through_ptr : bool) (v : value), option (list Z + error);
  AsUnmarshaler : forall (through_ptr : bool) (v : value), option (list Z -> value + error)
}.

(** [for i, x := range xs { body(i, x) }]. *)
Fixpoint range {St A : Type} (xs : list A) (i : nat) (body : nat -> A -> M St unit) : M St unit :=
  match xs with
  | [] => ret tt
  | x :: xs' => body i x ;;; range xs' (S i) body
  end.

(** ** machine.go: encode and decode *)

Section Machines.

Variable U : usercode.

(** [m.encode(e, v)].  [a] tells whether [v] is addressable.  Each call of a
    machine's method costs one unit of [fuel]. *)
Fixpoint encode (fuel : nat) (m : machine) (a : bool) (v : value) {struct fuel} : M estate unit :=
  match fuel with
  | O => out_of_fuel
  | S fuel' =>
      match m with
      | nil_machine => rpanic NilDereference
      | recurseMachine t =>
          (* m.o.Do(func() { m.m = <-m.c }): the machine published for [t] *)
          fun s =>
            match lookup (e_types s) t with
            | Some (recurseMachine _) | None => (Blocked, s)
            | Some m' => encode fuel' m' a v s
            end
      | compareMachine _ m' =>
          if is_zero v then e_writeByte 0 else encode fuel' m' a v
      | boolMachine =>
          match v with
          | VBool b => if b then e_writeByte 1 else e_writeByte 0
          | _ => rpanic ReflectKind
          end
      | intMachine =>
          match v with VInt _ i => encodeInt i | _ => rpanic ReflectKind end
      | uintMachine =>
          match v with VUint _ u => encodeUint u | _ => rpanic ReflectKind end
      | floatMachine =>
          match v with VFloat b => encodeUint b | _ => rpanic ReflectKind end
      | complexMachine =>
          match v with
          | VComplex re im => encodeUint re ;;; encodeUint im
          | _ => rpanic ReflectKind
          end
      | arrayMachine l m' =>
          encodeUint (to_uint64 (Z.of_nat l)) ;;;
          for_loop l 0 (fun i _ => xa <- Index a v i ;; encode fuel' m' (snd xa) (fst xa)) tt
      | chanMachine _ _ _ _ _ ms =>
          match v with
          | VNilChan => e_writeByte 0
          | VChan _ buf closed =>
              (* receive until the channel is closed, appending to a slice *)
              if closed then encode fuel' ms false (VSlice (length buf) buf) else block
          | _ => rpanic ReflectKind
          end
      | interfaceMachine _ =>
          match v with
          | VNilIface => e_writeByte 0
          | VIface t x => m' <- e_lift (get t) ;; encode fuel' m' false x
          | _ => rpanic ReflectKind
          end
      | mapMachine _ _ _ mk mv =>
          match v with
          | VNilMap => encodeUint 0
          | VMap es =>
              (* [range v.MapKeys()]: [es] is in the order of this call *)
              encodeUint (to_uint64 (Z.of_nat (length es))) ;;;
              range es 0 (fun _ kx => encode fuel' mk false (fst kx) ;;; encode fuel' mv false (snd kx))
          | _ => rpanic ReflectKind
          end
      | ptrMachine _ _ m' =>
          match v with
          | VNilPtr => e_writeByte 0
          | VPtr x => encode fuel' m' true x
          | _ => rpanic ReflectKind
          end
      | sliceMachine _ m' =>
          match v with
          | VNilSlice => encodeUint 0
          | VSlice _ xs =>
              encodeUint (to_uint64 (Z.of_nat (length xs))) ;;;
              for_loop (length xs) 0
                (fun i _ => xa <- Index a v i ;; encode fuel' m' (snd xa) (fst xa)) tt
          | _ => rpanic ReflectKind
          end
      | stringMachine =>
          match v with
          | VString s => encodeUint (to_uint64 (Z.of_nat (length s))) ;;; e_writeString s
          | _ => rpanic ReflectKind
          end
      | structMachine ms =>
          encodeUint (to_uint64 (Z.of_nat (length ms))) ;;;
          range ms 0 (fun i mi => x <- Field v i ;; encode fuel' mi a x)
      | bytesMachine =>
          match v with
          | VNilSlice => encodeUint 0 ;;; e_write []
          | VSlice _ xs =>
              encodeUint (to_uint64 (Z.of_nat (length xs))) ;;;
              match Bytes xs with
              | Some b => e_write b
              | None => rpanic ReflectKind
              end
          | _ => rpanic ReflectKind
          end
      | marshalerMachine e _ =>
          if e && negb a then rpanic ReflectNotSettable
          else match AsMarshaler U e v with
               | None => rpanic TypeAssertion
               | Some (inr err) => panic (noPanic err)
               | Some (inl b) => encodeUint (to_uint64 (Z.of_nat (length b))) ;;; e_write b
               end
      end
  end.

(** [decodeZero(d, v, z)]: [true] when the next byte is 0 and [v] was set to
    [z]; otherwise the byte is pushed back. *)
Definition decodeZero (settable : bool) : M dstate bool :=
  b <- d_readByte ;;
  if b =? 0
  then if settable then ret true else rpanic ReflectNotSettable
  else d_unreadByte ;;; ret false.

(** [v.Set(x)] and the like: the store needs a settable [v]. *)
Definition Set_ {St : Type} (settable : bool) (x : value) : M St value :=
  if settable then ret x else rpanic ReflectNotSettable.

(** [m.decode(d, v)]: the value [v] holds afterwards.  [settable] is
    [v.CanSet()]. *)
Fixpoint decode (fuel : nat) (m : machine) (settable : bool) (v : value) {struct fuel}
  : M dstate value :=
  match fuel with
  | O => out_of_fuel
  | S fuel' =>
      match m with
      | nil_machine => rpanic NilDereference
      | recurseMachine t =>
          fun s =>
            match lookup (d_types s) t with
            | Some (recurseMachine _) | None => (Blocked, s)
            | Some m' => decode fuel' m' settable v s
            end
      | compareMachine zv m' =>
          z <- decodeZero settable ;;
          if z then ret zv else decode fuel' m' settable v
      | boolMachine =>
          b <- d_readByte ;;
          match v with
          | VBool _ => Set_ settable (VBool (b =? 1))
          | _ => rpanic ReflectKind
          end
      | intMachine =>
          x <- decodeInt ;;
          match v with
          | VInt k _ => Set_ settable (VInt k (wrap_int k x))
          | _ => rpanic ReflectKind
          end
      | uintMachine =>
          x <- decodeUint ;;
          match v with
          | VUint k _ => Set_ settable (VUint k (wrap_uint k x))
          | _ => rpanic ReflectKind
          end
      | floatMachine =>
          x <- decodeUint ;;
          match v with
          | VFloat _ => Set_ settable (VFloat x)
          | _ => rpanic ReflectKind
          end
      | complexMachine =>
          re <- decodeUint ;;
          im <- decodeUint ;;
          match v with
          | VComplex _ _ => Set_ settable (VComplex re im)
          | _ => rpanic ReflectKind
          end
      | arrayMachine l m' =>
          t <- decodeUint ;;
          let l' := if to_int t <? Z.of_nat l then to_int t else Z.of_nat l in
          for_loop (Z.to_nat l') 0
            (fun i v =>
               xa <- Index settable v i ;;
               x' <- decode fuel' m' (snd xa) (fst xa) ;;
               ret (set_elem v i x')) v
      | chanMachine z t _ _ m' _ =>
          zero <- decodeZero settable ;;
          if zero then ret z
          else
            u <- decodeUint ;;
            let l := to_int u in
            c <- match v with
                 | VNilChan =>
                     if l <? 0 then rpanic LenOutOfRange
                     else if makechan_ok t l
                          then Set_ settable (VChan (Z.to_nat l) [] false)
                          else rpanic LenOutOfRange
                 | VChan _ _ _ => ret v
                 | _ => rpanic ReflectKind
                 end ;;
            for_loop (Z.to_nat l) 0
              (fun _ c => x <- decode fuel' m' true (Zero t) ;; Send c x) c
      | interfaceMachine z =>
          zero <- decodeZero settable ;;
          if zero then ret z
          else match v with
               | VNilIface => rpanic ReflectZeroValue
               | VIface t x =>
                   m' <- d_lift (get t) ;;
                   x' <- decode fuel' m' false x ;;
                   ret (VIface t x')
               | _ => rpanic ReflectKind
               end
      | mapMachine _ tk tv mk mv =>
          v0 <- Set_ settable (VMap []) ;;
          l <- decodeUint ;;
          for_loop (Z.to_nat l) 0
            (fun _ v =>
               key <- decode fuel' mk true (Zero tk) ;;
               val <- decode fuel' mv true (Zero tv) ;;
               match v with
               | VMap es => ret (VMap (SetMapIndex es key val))
               | _ => rpanic ReflectKind
               end) v0
      | ptrMachine z t m' =>
          zero <- decodeZero settable ;;
          if zero then ret z
          else
            x <- match v with
                 | VNilPtr => Set_ settable (Zero t)
                 | VPtr x => ret x
                 | _ => rpanic ReflectKind
                 end ;;
            x' <- decode fuel' m' true x ;;
            ret (VPtr x')
      | sliceMachine t m' =>
          u <- decodeUint ;;
          let l := to_int u in
          v0 <- (if l <? 0 then rpanic LenOutOfRange
                 else match t with
                      | TSlice e =>
                          if newarray_ok e l
                          then Set_ settable (VSlice (Z.to_nat l) (repeat (Zero e) (Z.to_nat l)))
                          else rpanic LenOutOfRange
                      | _ => rpanic ReflectKind
                      end) ;;
          for_loop (Z.to_nat l) 0
            (fun i v =>
               xa <- Index settable v i ;;
               x' <- decode fuel' m' (snd xa) (fst xa) ;;
               ret (set_elem v i x')) v0
      | stringMachine =>
          n <- decodeUint ;;
          b <- d_read n ;;
          match v with
          | VString _ => Set_ settable (VString b)
          | _ => rpanic ReflectKind
          end
      | structMachine ms =>
          t <- decodeUint ;;
          let l := if to_int t <? Z.of_nat (length ms) then to_int t else Z.of_nat (length ms) in
          for_loop (Z.to_nat l) 0
            (fun i v =>
               x <- Field v i ;;
               x' <- decode fuel' (nth i ms nil_machine) settable x ;;
               ret (set_elem v i x')) v
      | bytesMachine =>
          n <- decodeUint ;;
          b <- d_read n ;;
          match v with
          | VNilSlice | VSlice _ _ =>
              Set_ settable (VSlice (length b) (map (VUint KUint8) b))
          | _ => rpanic ReflectKind
          end
      | marshalerMachine _ d =>
          if d && negb settable then rpanic ReflectNotSettable
          else match AsUnmarshaler U d v with
               | None => rpanic TypeAssertion
               | Some unmarshal =>
                   n <- decodeUint ;;
                   b <- d_read n ;;
                   match unmarshal b with
                   | inl v' => ret v'
                   | inr err => panic (noPanic err)
                   end
               end
      end
  end.

End Machines.

(** ** encode.go and decode.go: the entry points *)

(** A [reflect.Value] that is valid: its type, what it holds, and [CanSet]. *)
Record Value : Type := mkValue {
  v_type : type;
  v_val : value;
  v_CanSet : bool
}.

(** [reflect.ValueOf(x)] for the interface value [x]; [None] is the zero
    [reflect.Value], which [ValueOf(nil)] returns. *)
Definition ValueOf (x : option (type * value)) : option Value :=
  match x with
  | Some (t, v) => Some (mkValue t v false)
  | None => None
  end.

(** [reflect.Indirect(v)]. *)
Definition Indirect (v : option Value) : option Value :=
  match v with
  | Some (mkValue (TPtr e) (VPtr x) _) => Some (mkValue e x true)
  | Some (mkValue (TPtr _) _ _) => None
  | _ => v
  end.

(** [if !v.CanSet() { v = reflect.Indirect(v) }]. *)
Definition resolve (v : option Value) : option Value :=
  match v with
  | Some x => if v_CanSet x then v else Indirect v
  | None => Indirect v
  end.

(** What the caller of an entry point sees. *)
Inductive result : Type :=
| Returns (err : option error)
| Panics (p : panic_value)
| BlocksForever
| NoFuel.

(** The deferred [recover]: [noPanic] becomes the returned error, any other
    panic is raised again. *)
Definition recovered {A : Type} (o : outcome A) : result :=
  match o with
  | Ok _ => Returns None
  | Panic (noPanic e) => Returns (Some e)
  | Panic p => Panics p
  | Blocked => BlocksForever
  | OutOfFuel => NoFuel
  end.

Section EntryPoints.

Variable U : usercode.

(** [EncodeValue(w, v)], run with the registry [g]: the result, the registry
    afterwards and the stream behind [w] afterwards.  When [w] is not a
    [writer], a [bufio.Writer] [tmp] is created and its [Flush] deferred, but
    [e.w] is left unassigned ([w = tmp] assigns the parameter): nothing
    reaches [tmp], and [Flush] of the empty buffer returns nil. *)
Definition EncodeValue (fuel : nat) (w : io_Writer) (v : option Value) (g : registry)
  : result * registry * sink :=
  let e := mkE g (if is_writer w then Some (w_sink w) else None) in
  let body : M estate unit :=
    match resolve v with
    | None => rpanic ReflectZeroValue
    | Some x => m <- e_lift (get (v_type x)) ;; encode U fuel m (v_CanSet x) (v_val x)
    end in
  let '(o, e') := body e in
  (recovered o, e_types e',
   match e_w e' with Some k => k | None => w_sink w end).

Definition Encode (fuel : nat) (w : io_Writer) (v : option (type * value)) (g : registry)
  : result * registry * sink :=
  EncodeValue fuel w (ValueOf v) g.

(** [DecodeValue(r, v)], run with the registry [g]: the result, the registry
    and the stream afterwards, and what the destination holds afterwards when
    the call returned nil.  In [if r, ok := r.(reader); ok { d.r = r } else
    { d.r = bufio.NewReader(r) }] the [r] of the else branch is the one the
    [if] declares, nil after the failed assertion. *)
Definition DecodeValue (fuel : nat) (r : io_Reader) (v : option Value) (g : registry)
  : result * registry * source * option value :=
  let d := mkDstate g (r_source r) (negb (is_reader r)) in
  let body : M dstate value :=
    match resolve v with
    | None => rpanic ReflectZeroValue
    | Some x => m <- d_lift (get (v_type x)) ;; decode U fuel m (v_CanSet x) (v_val x)
    end in
  let '(o, d') := body d in
  (recovered o, d_types d', d_r d',
   match o with Ok v' => Some v' | _ => None end).

Definition Decode (fuel : nat) (r : io_Reader) (v : option (type * value)) (g : registry)
  : result * registry * source * option value :=
  DecodeValue fuel r (ValueOf v) g.

End EntryPoints.

(** A [bytes.Buffer] as destination and as source, and user code for
    programs none of whose types has methods. *)
Definition buffer (b : list Z) : sink := mkSink b None EOF None.
Definition reader_of (b : list Z) : source := mkSource b EOF None None.
Definition no_usercode : usercode := mkUser (fun _ _ => None) (fun _ _ => None).

(** * Vocabulary of the properties *)

(** ** Streams: what the properties say about them *)

(** A computation that cannot return normally while [e.w] is nil, and leaves
    it nil. *)
Definition needs_writer {A : Type} (c : M estate A) : Prop :=
  forall s, e_w s = None ->
    (forall a, fst (c s) <> Ok a) /\ e_w (snd (c s)) = None.

(** Started before any call on the stream has failed, [c] either ends with
    still no failed call, or ends with the failed call as the very last call
    on the stream and with a [noPanic] carrying that failure.  [Inv] is what
    stays true of the stream, [after] its bookkeeping, and [errs] the errors a
    failing call is reported as. *)
Definition aborts {St A : Type} (Inv : St -> Prop) (after : St -> option nat)
    (errs : error -> Prop) (c : M St A) : Prop :=
  forall s, Inv s -> after s = None ->
    Inv (snd (c s))
    /\ (after (snd (c s)) = None
        \/ (after (snd (c s)) = Some O
            /\ exists e, errs e /\ fst (c s) = Panic (noPanic e))).

(** The bookkeeping and the invariant of the stream of an encode call and of
    a decode call. *)
Definition e_after (s : estate) : option nat :=
  match e_w s with Some k => w_after k | None => None end.

Definition e_inv (w0 : error) (s : estate) : Prop :=
  exists k, e_w s = Some k /\ werr k = w0.

Definition d_after (s : dstate) : option nat := r_after (d_r s).

Definition d_inv (r0 : error) (s : dstate) : Prop := rerr (d_r s) = r0.

(** How a failure of a stream whose own error is [r0] is reported: as it is,
    or as [ErrUnexpectedEOF] in place of [EOF]. *)
Definition reported (r0 : error) (e : error) : Prop :=
  e = r0 \/ (r0 = EOF /\ e = ErrUnexpectedEOF).

(** A stream operation that keeps the stream's error, and whose failure is
    the last call on the stream. *)
Definition clean_call {A : Type} (f : source -> source * (A + error)) : Prop :=
  forall r, r_after r = None ->
    rerr (fst (f r)) = rerr r
    /\ (r_after (fst (f r)) = None
        \/ (r_after (fst (f r)) = Some O
            /\ exists e, snd (f r) = inr e /\ reported (rerr r) e)).

(** ** Type descriptors: size, and equality unfolded *)

Fixpoint size (t : type) : nat :=
  match t with
  | TArray _ e | TChan e | TPtr e | TSlice e => S (size e)
  | TMap k e => S (size k + size e)%nat
  | TStruct _ fs =>
      S ((fix sum (xs : list (StructField type)) : nat :=
            match xs with
            | [] => O
            | x :: xs' => (size (Type_ x) + sum xs')%nat
            end) fs)
  | _ => 1%nat
  end.

Definition fields_size (fs : list (StructField type)) : nat :=
  fold_right (fun f n => (size (Type_ f) + n)%nat) O fs.

(** The comparison of the field lists inside [type_eqb]. *)
Fixpoint fields_eqb (xs ys : list (StructField type)) : bool :=
  match xs, ys with
  | [], [] => true
  | x :: xs', y :: ys' =>
      Bool.eqb (PkgPath x) (PkgPath y) && Bool.eqb (Anonymous x) (Anonymous y)
      && type_eqb (Type_ x) (Type_ y) && fields_eqb xs' ys'
  | _, _ => false
  end.

(** ** The wire format of the first-order types *)

(** The bytes of a varint; [PutUvarint] never fails on a [uint64]. *)
Definition uvarint (u : Z) : list Z :=
  match binary.PutUvarint u with Some b => b | None => [] end.

Definition count (n : nat) : list Z := uvarint (Z.of_nat n).

Definition is_bytes (e : type) : bool := type_eqb (TSlice e) bytesType.

Definition raw_byte (v : value) : list Z :=
  match v with VUint _ b => [b] | _ => [] end.

(** What [Encode] writes for a value [v] of type [t]. *)
Fixpoint wire (t : type) (v : value) {struct t} : list Z :=
  match t, v with
  | TBool, VBool b => [if b then 1 else 0]
  | TInt _, VInt _ i => uvarint (binary.zigzag i)
  | TUint _, VUint _ u => uvarint u
  | TFloat64, VFloat b => uvarint b
  | TComplex128, VComplex re im => uvarint re ++ uvarint im
  | TString, VString s => count (length s) ++ s
  | TArray n e, VArray xs =>
      if Comparable t && is_zero v then [0]
      else count n ++ flat_map (wire e) xs
  | TSlice e, VSlice _ xs =>
      count (length xs) ++ (if is_bytes e then flat_map raw_byte xs else flat_map (wire e) xs)
  | TPtr _, VNilPtr => [0]
  | TPtr e, VPtr x => wire e x
  | TMap k e, VMap es =>
      count (length es) ++ flat_map (fun kx => wire k (fst kx) ++ wire e (snd kx)) es
  | TStruct _ fs, VStruct xs =>
      if Comparable t && is_zero v then [0]
      else count (length fs) ++
           (fix fields (fs : list (StructField type)) (xs : list value) : list Z :=
              match fs, xs with
              | f :: fs', x :: xs' => wire (Type_ f) x ++ fields fs' xs'
              | _, _ => []
              end) fs xs
  | _, _ => []
  end.

(** What [Decode] makes of those bytes in a fresh destination: zero-valued
    arrays and records come back as the zero value, slices with a capacity
    equal to their length. *)
Fixpoint norm (t : type) (v : value) {struct t} : value :=
  match t, v with
  | TArray n e, VArray xs =>
      if Comparable t && is_zero v then Zero t else VArray (map (norm e) xs)
  | TSlice e, VSlice _ xs => VSlice (length xs) (map (norm e) xs)
  | TPtr e, VPtr x => VPtr (norm e x)
  | TMap k e, VMap es => VMap (map (fun kx => (fst kx, norm e (snd kx))) es)
  | TStruct _ fs, VStruct xs =>
      if Comparable t && is_zero v then Zero t
      else VStruct
             ((fix fields (fs : list (StructField type)) (xs : list value) : list value :=
                 match fs, xs with
                 | f :: fs', x :: xs' => norm (Type_ f) x :: fields fs' xs'
                 | _, _ => []
                 end) fs xs)
  | _, _ => v
  end.

Definition leading_zero (b : list Z) : bool :=
  match b with 0 :: _ => true | _ => false end.

Definition scalar_key (t : type) : bool :=
  match t with TBool | TInt _ | TUint _ | TString => true | _ => false end.

Fixpoint distinct_keys (ks : list value) : bool :=
  match ks with
  | [] => true
  | k :: ks' => negb (existsb (key_eq k) ks') && distinct_keys ks'
  end.

Definition fits (n : nat) : bool := Z.of_nat n <? two63.

(** The types whose machines are built from the structural cases alone:
    booleans, integers, [float64], [complex128], strings, arrays, slices,
    pointers, maps keyed by a boolean, an integer or a string, and records
    all of whose fields are exported. *)
Fixpoint supported (t : type) : bool :=
  match t with
  | TBool | TInt _ | TUint _ | TFloat64 | TComplex128 | TString => true
  | TArray n e => fits n && supported e
  | TSlice e | TPtr e => supported e
  | TMap k e => scalar_key k && supported k && supported e
  | TStruct _ fs =>
      fits (length fs) &&
      (fix all (xs : list (StructField type)) : bool :=
         match xs with
         | [] => true
         | f :: xs' => negb (PkgPath f) && supported (Type_ f) && all xs'
         end) fs
  | _ => false
  end.

(** The values of a supported type that the wire format tells apart: no NaN,
    no nil slice and no nil map, and behind every non-nil pointer a value
    whose bytes do not begin with 0. *)
Fixpoint faithful (t : type) (v : value) {struct t} : bool :=
  match t, v with
  | TBool, VBool _ => true
  | TInt k, VInt k' i =>
      ikind_eqb k k' && (- 2 ^ (ibits k - 1) <=? i) && (i <? 2 ^ (ibits k - 1))
  | TUint k, VUint k' u => ukind_eqb k k' && (0 <=? u) && (u <? 2 ^ ubits k)
  | TFloat64, VFloat b => (0 <=? b) && (b <? two64) && negb (float_isNaN b)
  | TComplex128, VComplex re im =>
      (0 <=? re) && (re <? two64) && negb (float_isNaN re)
      && (0 <=? im) && (im <? two64) && negb (float_isNaN im)
  | TString, VString s => fits (length s) && forallb (fun b => (0 <=? b) && (b <? 256)) s
  | TArray n e, VArray xs => Nat.eqb (length xs) n && forallb (faithful e) xs
  | TSlice e, VSlice _ xs => fits (length xs) && forallb (faithful e) xs
  | TPtr _, VNilPtr => true
  | TPtr e, VPtr x => faithful e x && negb (leading_zero (wire e x))
  | TMap k e, VMap es =>
      fits (length es) && distinct_keys (map fst es)
      && forallb (fun kx => faithful k (fst kx) && faithful e (snd kx)) es
  | TStruct _ fs, VStruct xs =>
      (fix fields (fs : list (StructField type)) (xs : list value) : bool :=
         match fs, xs with
         | [], [] => true
         | f :: fs', x :: xs' => faithful (Type_ f) x && fields fs' xs'
         | _, _ => false
         end) fs xs
  | _, _ => false
  end.

(** The values [Decode] has room for: no string longer than [maxAlloc]
    bytes, and no slice whose elements together take more than that. *)
Fixpoint allocatable (t : type) (v : value) {struct t} : bool :=
  match t, v with
  | TString, VString s => Z.of_nat (length s) <=? maxAlloc
  | TArray _ e, VArray xs => forallb (allocatable e) xs
  | TSlice e, VSlice _ xs =>
      newarray_ok e (Z.of_nat (length xs)) && forallb (allocatable e) xs
  | TPtr e, VPtr x => allocatable e x
  | TMap k e, VMap es =>
      forallb (fun kx => allocatable k (fst kx) && allocatable e (snd kx)) es
  | TStruct _ fs, VStruct xs =>
      (fix fields (fs : list (StructField type)) (xs : list value) : bool :=
         match fs, xs with
         | f :: fs', x :: xs' => allocatable (Type_ f) x && fields fs' xs'
         | _, _ => true
         end) fs xs
  | _, _ => true
  end.

(** The zero-value wrapper at the end of [register]. *)
Definition wrap (t : type) (m : machine) : machine :=
  if Comparable t then compareMachine (Zero t) m else m.

(** The machine [register] builds for a supported type. *)
Fixpoint machine_of (t : type) : machine :=
  match t with
  | TBool => boolMachine
  | TInt _ => intMachine
  | TUint _ => uintMachine
  | TFloat64 => floatMachine
  | TComplex128 => complexMachine
  | TString => stringMachine
  | TArray n e => wrap t (arrayMachine n (machine_of e))
  | TSlice e => if is_bytes e then bytesMachine else sliceMachine t (machine_of e)
  | TPtr e => ptrMachine (Zero t) e (machine_of e)
  | TMap k e => mapMachine t k e (machine_of k) (machine_of e)
  | TStruct _ fs => wrap t (structMachine (map (fun f => machine_of (Type_ f)) fs))
  | _ => nil_machine
  end.

(** ** The registry seen as a cache of [machine_of] *)

(** Every entry of [g'] is the entry of [g] or the right machine. *)
Definition frame (g g' : registry) : Prop :=
  forall t, lookup g' t = lookup g t
            \/ (supported t = true /\ lookup g' t = Some (machine_of t)).

(** The entries for supported types smaller than [n] are right. *)
Definition coherent_below (n : nat) (g : registry) : Prop :=
  forall t m, lookup g t = Some m -> supported t = true -> (size t < n)%nat -> m = machine_of t.

(** The registry holds the right machine under every supported type it knows. *)
Definition coherent (g : registry) : Prop :=
  forall t m, lookup g t = Some m -> supported t = true -> m = machine_of t.

(** The test on the fields inside [supported]. *)
Definition supported_fields (fs : list (StructField type)) : bool :=
  forallb (fun f => negb (PkgPath f) && supported (Type_ f)) fs.

(** ** Computations that write, and read back, given bytes *)

(** On a buffer, [c] returns after appending exactly [bs], and leaves the
    registry alone. *)
Definition writes (c : M estate unit) (bs : list Z) : Prop :=
  forall g w we,
    c (mkE g (Some (mkSink w None we None)))
    = (Ok tt, mkE g (Some (mkSink (w ++ bs) None we None))).

Definition last_after (bs : list Z) (l : option Z) : option Z :=
  match bs with [] => l | _ => Some (List.last bs 0) end.

(** On a stream that starts with [bs], [c] returns [a] after consuming
    exactly [bs], and leaves the registry alone. *)
Definition reads {A : Type} (c : M dstate A) (bs : list Z) (a : A) : Prop :=
  forall g rest e l,
    c (mkD g (mkSource (bs ++ rest) e l None))
    = (Ok a, mkD g (mkSource rest e (last_after bs l) None)).

(** ** Records, field by field *)

(** The record cases of [wire], [norm] and [faithful], field by field. *)
Fixpoint wire_fields (fs : list (StructField type)) (xs : list value) : list Z :=
  match fs, xs with
  | f :: fs', x :: xs' => wire (Type_ f) x ++ wire_fields fs' xs'
  | _, _ => []
  end.

Fixpoint norm_fields (fs : list (StructField type)) (xs : list value) : list value :=
  match fs, xs with
  | f :: fs', x :: xs' => norm (Type_ f) x :: norm_fields fs' xs'
  | _, _ => []
  end.

Fixpoint allocatable_fields (fs : list (StructField type)) (xs : list value) : bool :=
  match fs, xs with
  | f :: fs', x :: xs' => allocatable (Type_ f) x && allocatable_fields fs' xs'
  | _, _ => true
  end.

Fixpoint faithful_fields (fs : list (StructField type)) (xs : list value) : bool :=
  match fs, xs with
  | [], [] => true
  | f :: fs', x :: xs' => faithful (Type_ f) x && faithful_fields fs' xs'
  | _, _ => false
  end.

Definition no_field : StructField type := mkField false false TBool.

(** A destination whose first [j] positions hold [ys] and whose other
    positions still hold [zs]. *)
Definition filled (ys zs : list value) (j : nat) : list value := firstn j ys ++ skipn j zs.

(** [Zero] of a record, field by field. *)
Definition zero_fields (fs : list (StructField type)) : list value :=
  map (fun f => Zero (Type_ f)) fs.

(** ** [DeepEqual], element by element *)

(** The element-wise comparison inside [DeepEqual]. *)
Fixpoint DeepEqual_list (xs ys : list value) : bool :=
  match xs, ys with
  | [], [] => true
  | x :: xs', y :: ys' => DeepEqual x y && DeepEqual_list xs' ys'
  | _, _ => false
  end.

(** The entry-wise comparison of maps inside [DeepEqual]. *)
Definition DeepEqual_entries (ys : list (value * value)) : list (value * value) -> bool :=
  fix all (xs : list (value * value)) : bool :=
    match xs with
    | [] => true
    | (k, x) :: xs' =>
        match MapIndex ys k with
        | Some y => DeepEqual x y && all xs'
        | None => false
        end
    end.

(** ** A sample record *)

Definition sample_record : type :=
  TStruct no_methods
    [mkField false false (TInt KInt8);
     mkField false false (TPtr (TUint KUint));
     mkField false false TString;
     mkField false false bytesType;
     mkField false false (TArray 2 (TInt KInt));
     mkField false false (TMap TString (TSlice TBool))].

Definition sample_value : value :=
  VStruct
    [VInt KInt8 (-5);
     VPtr (VUint KUint 300);
     VString [104; 105];
     VSlice 4 [VUint KUint8 200; VUint KUint8 1];
     VArray [VInt KInt 0; VInt KInt 7];
     VMap [(VString [97], VSlice 1 [VBool true]); (VString [98], VSlice 0 [])]].

(** ** Channels *)

(** The machine [register] builds for a channel of a supported element type. *)
Definition chan_machine_of (t : type) : machine :=
  chanMachine VNilChan t (TSlice t) (TChan t) (machine_of t) (machine_of (TSlice t)).

(** ** The registry only grows *)

(** Every entry of [g] is still an entry of [g'], unchanged. *)
Definition keeps (g g' : registry) : Prop :=
  forall t m, lookup g t = Some m -> lookup g' t = Some m.

(** A computation on the registry that keeps the entries it finds. *)
Definition Keeps {A : Type} (c : M registry A) : Prop :=
  forall g, keeps g (snd (c g)).

(** ** Destinations *)

(** The types whose machine stores the decoded value with one [Set] of the
    whole destination. *)
Definition stored_whole (t : type) : bool :=
  match t with
  | TBool | TInt _ | TUint _ | TFloat64 | TComplex128 | TString | TSlice _ | TMap _ _ => true
  | _ => false
  end.

(** ** Streams that run out *)

(** [c] appends [bs] to a stream that has room for them, and to a stream
    that accepts only [r] bytes, fewer than [bs] has, it appends the first
    [r] of them and stops with the stream's error; that failed call is the
    last call on the stream. *)
Definition sends (c : M estate unit) (bs : list Z) : Prop :=
  forall g w we ro,
    c (mkE g (Some (mkSink w ro we None)))
    = match ro with
      | None => (Ok tt, mkE g (Some (mkSink (w ++ bs) None we None)))
      | Some r =>
          if (length bs <=? r)%nat
          then (Ok tt, mkE g (Some (mkSink (w ++ bs) (Some (r - length bs)%nat) we None)))
          else (Panic (noPanic we),
                mkE g (Some (mkSink (w ++ firstn r bs) (Some O) we (Some O))))
      end.

(** On a stream that ends inside [bs], [c] stops with [EOF] or
    [ErrUnexpectedEOF]. *)
Definition cuts {A : Type} (c : M dstate A) (bs : list Z) : Prop :=
  forall p q, bs = p ++ q -> q <> [] ->
  forall g l, exists e,
    (e = EOF \/ e = ErrUnexpectedEOF)
    /\ fst (c (mkD g (mkSource p EOF l None))) = Panic (noPanic e).

(** [c] reads [bs] as [a], and nothing less than [bs]. *)
Definition reads_whole {A : Type} (c : M dstate A) (bs : list Z) (a : A) : Prop :=
  reads c bs a /\ cuts c bs.

(** ** A record that marshals itself *)

(** A record with one unexported field, with [MarshalBinary] on the value and
    [UnmarshalBinary] on the pointer, which travel as the low byte of the
    field. *)
Definition stamp : type :=
  TStruct (mkMethods true true true false) [mkField true false (TInt KInt64)].

Definition stamp_code : usercode :=
  mkUser
    (fun _ v =>
       match v with
       | VStruct [VInt _ i] => Some (inl [to_byte i])
       | _ => None
       end)
    (fun _ _ =>
       Some (fun b =>
               match b with
               | [x] => inl (VStruct [VInt KInt64 x])
               | _ => inr (ErrMarshal 1)
               end)).

(** ** Types without maps *)

(** No map anywhere in [t]: the types whose values are written the same way
    by every call ([MapKeys] lists the keys of a map in an order that varies
    from call to call). *)
Fixpoint map_free (t : type) : bool :=
  match t with
  | TMap _ _ | TInterface => false
  | TArray _ e | TChan e | TPtr e | TSlice e => map_free e
  | TStruct _ fs =>
      (fix all (xs : list (StructField type)) : bool :=
         match xs with
         | [] => true
         | f :: xs' => map_free (Type_ f) && all xs'
         end) fs
  | _ => true
  end.

(** A record without maps. *)
Definition plain_record : type :=
  TStruct no_methods
    [mkField false false (TInt KInt8);
     mkField false false (TPtr (TUint KUint));
     mkField false false TString;
     mkField false false bytesType;
     mkField false false (TArray 2 (TInt KInt))].

Definition plain_value : value :=
  VStruct
    [VInt KInt8 (-5);
     VPtr (VUint KUint 300);
     VString [104; 105];
     VSlice 4 [VUint KUint8 200; VUint KUint8 1];
     VArray [VInt KInt 0; VInt KInt 7]].

(** * Properties *)

(** ** Varints *)

Lemma two64_eq : two64 = 18446744073709551616.
Proof. reflexivity. Qed.

Lemma two63_eq : two63 = 9223372036854775808.
Proof. reflexivity. Qed.

Lemma to_byte_small (x : Z) : 0 <= x < 256 -> to_byte x = x.
Proof. intros H. unfold to_byte. apply Z.mod_small. exact H. Qed.

Lemma to_byte_range (x : Z) : 0 <= to_byte x < 256.
Proof. unfold to_byte. apply Z.mod_pos_bound. lia. Qed.

Lemma continuation_byte_range (x : Z) : 128 <= Z.lor (to_byte x) 128 < 256.
Proof.
  pose proof (to_byte_range x) as Hb.
  assert (Hlo : 0 <= Z.lor (to_byte x) 128) by (apply Z.lor_nonneg; lia).
  split.
  - destruct (Z_lt_le_dec (Z.lor (to_byte x) 128) 128) as [Hlt|]; [|assumption].
    exfalso.
    assert (Ht : Z.testbit (Z.lor (to_byte x) 128) 7 = true).
    { rewrite Z.lor_spec. change (Z.testbit 128 7) with true. apply orb_true_r. }
    assert (Hf : Z.testbit (Z.lor (to_byte x) 128) 7 = false).
    { destruct (Z.eq_dec (Z.lor (to_byte x) 128) 0) as [->|Hne]; [reflexivity|].
      apply Z.bits_above_log2; [lia|].
      apply Z.log2_lt_pow2; [lia|]. change (2 ^ 7) with 128. lia. }
    congruence.
  - destruct (Z.eq_dec (Z.lor (to_byte x) 128) 0) as [->|Hne]; [lia|].
    change 256 with (2 ^ 8). apply Z.log2_lt_pow2; [lia|].
    rewrite Z.log2_lor by lia.
    apply Z.max_lub_lt.
    + destruct (Z.eq_dec (to_byte x) 0) as [->|Hx]; [reflexivity|].
      apply Z.log2_lt_pow2; [lia|]. change (2 ^ 8) with 256. lia.
    + reflexivity.
Qed.

Lemma put_loop_S (n : nat) (x : Z) :
  binary.put_loop (S n) x
  = if 128 <=? x
    then option_map (cons (Z.lor (to_byte x) 128)) (binary.put_loop n (Z.shiftr x 7))
    else Some [to_byte x].
Proof. reflexivity. Qed.

(** The buffer of [MaxVarintLen64] bytes is never overrun, the first byte is 0
    exactly for the value 0, and then it is the only byte. *)
Lemma put_loop_head (n : nat) : forall x,
  0 <= x < 2 ^ (7 * Z.of_nat (S n)) ->
  exists b bs, binary.put_loop (S n) x = Some (b :: bs)
               /\ (x = 0 -> b = 0 /\ bs = [])
               /\ (x <> 0 -> b <> 0).
Proof.
  induction n as [|n IH]; intros x Hx.
  - change (2 ^ (7 * Z.of_nat 1)) with 128 in Hx.
    simpl. destruct (128 <=? x) eqn:E; [apply Z.leb_le in E; lia|].
    exists (to_byte x), []. rewrite to_byte_small by lia.
    repeat split; auto.
  - rewrite put_loop_S. destruct (128 <=? x) eqn:E.
    + apply Z.leb_le in E.
      destruct (IH (Z.shiftr x 7)) as (b & bs & Hp & _ & _).
      { rewrite Z.shiftr_div_pow2 by lia. split.
        - apply Z.div_pos; lia.
        - apply Z.div_lt_upper_bound; [lia|].
          rewrite <- Z.pow_add_r by lia.
          replace (7 + 7 * Z.of_nat (S n)) with (7 * Z.of_nat (S (S n))) by lia.
          lia. }
      rewrite Hp. cbn [option_map].
      exists (Z.lor (to_byte x) 128), (b :: bs).
      pose proof (continuation_byte_range x).
      split; [reflexivity|].
      split; [intros ->; lia | intros _; lia].
    + apply Z.leb_gt in E.
      exists (to_byte x), []. rewrite to_byte_small by lia.
      repeat split; auto.
Qed.

Lemma PutUvarint_head (u : Z) :
  is_uint64 u ->
  exists b bs, binary.PutUvarint u = Some (b :: bs)
               /\ (u = 0 -> b = 0 /\ bs = [])
               /\ (u <> 0 -> b <> 0).
Proof.
  intros [H0 H1]. apply put_loop_head. split; [exact H0|].
  rewrite two64_eq in H1.
  change (2 ^ (7 * Z.of_nat 10)) with 1180591620717411303424. lia.
Qed.

(** [e.write] on a stream that never fails appends the bytes. *)
Lemma e_write_buffer (g : registry) (k : sink) (b : list Z) :
  room k = None ->
  e_write b (mkE g (Some k))
  = (Ok tt, mkE g (Some (mkSink (written k ++ b) None (werr k) (tick (w_after k) false)))).
Proof. intros Hr. unfold e_write, sink_Write. cbn. rewrite Hr. reflexivity. Qed.

(** C9. For every unsigned 64-bit integer [u], [encodeUint] writes at least
    one byte; for [u = 0] it writes exactly the one byte 0, and for every
    other [u] the first byte written is not 0. *)
Theorem encodeUint_first_byte (u : Z) (g : registry) (k : sink) :
  is_uint64 u ->
  room k = None ->
  exists b bs,
    encodeUint u (mkE g (Some k))
    = (Ok tt, mkE g (Some (mkSink (written k ++ b :: bs) None (werr k) (tick (w_after k) false))))
    /\ (u = 0 -> b = 0 /\ bs = [])
    /\ (u <> 0 -> b <> 0).
Proof.
  intros Hu Hr.
  destruct (PutUvarint_head u Hu) as (b & bs & Hp & Hz & Hnz).
  exists b, bs. split; [|split; assumption].
  unfold encodeUint. rewrite Hp. apply e_write_buffer. exact Hr.
Qed.

Lemma encodeUint_first_byte_witness :
  exists b bs,
    encodeUint 300 (mkE [] (Some (buffer [])))
    = (Ok tt, mkE [] (Some (mkSink ([] ++ b :: bs) None EOF None)))
    /\ (300 = 0 -> b = 0 /\ bs = [])
    /\ (300 <> 0 -> b <> 0).
Proof.
  apply (encodeUint_first_byte 300 [] (buffer [])).
  - unfold is_uint64. rewrite two64_eq. lia.
  - reflexivity.
Defined.

(** ** A destination that is not a [writer] *)

Lemma needs_writer_bind {A B : Type} (c : M estate A) (k : A -> M estate B) :
  needs_writer c -> needs_writer (bind c k).
Proof.
  intros Hc s Hs. destruct (Hc s Hs) as [Hno Hw].
  unfold bind. destruct (c s) as [[a| p | |] s']; cbn in *;
    try (split; [intros b; discriminate | exact Hw]).
  exfalso. apply (Hno a). reflexivity.
Qed.

Lemma needs_writer_bind_lift {A B : Type} (c : M registry A) (k : A -> M estate B) :
  (forall a, needs_writer (k a)) -> needs_writer (bind (e_lift c) k).
Proof.
  intros Hk s Hs. unfold bind, e_lift.
  destruct (c (e_types s)) as [[a| p | |] g'] eqn:E; cbn;
    try (split; [intros b; discriminate | exact Hs]).
  apply Hk. exact Hs.
Qed.

Lemma needs_writer_panic {A : Type} (p : panic_value) : needs_writer (@panic estate A p).
Proof. intros s Hs. cbn. split; [intros a; discriminate | exact Hs]. Qed.

Lemma needs_writer_block {A : Type} : needs_writer (@block estate A).
Proof. intros s Hs. cbn. split; [intros a; discriminate | exact Hs]. Qed.

Lemma needs_writer_write (b : list Z) : needs_writer (e_write b).
Proof.
  intros s Hs. unfold e_write. rewrite Hs. cbn.
  split; [intros a; discriminate | exact Hs].
Qed.

Lemma needs_writer_encodeUint (u : Z) : needs_writer (encodeUint u).
Proof.
  unfold encodeUint. destruct (binary.PutUvarint u).
  - apply needs_writer_write.
  - apply needs_writer_panic.
Qed.

Lemma needs_writer_encodeInt (i : Z) : needs_writer (encodeInt i).
Proof.
  unfold encodeInt. destruct (binary.PutVarint i).
  - apply needs_writer_write.
  - apply needs_writer_panic.
Qed.

Create HintDb writer.
#[local] Hint Resolve needs_writer_panic needs_writer_block needs_writer_write
  needs_writer_encodeUint needs_writer_encodeInt needs_writer_bind : writer.

Lemma encode_needs_writer (U : usercode) (fuel : nat) :
  forall m a v, needs_writer (encode U fuel m a v).
Proof.
  induction fuel as [|fuel IH]; intros m a v.
  - intros s Hs. cbn. split; [intros x; discriminate | exact Hs].
  - destruct m; cbn [encode]; unfold rpanic, e_writeByte, e_writeString;
      try (destruct v; auto with writer; fail); auto with writer.
    + intros s Hs. destruct (lookup (e_types s) waits_for) as [[]|];
        try (apply IH; exact Hs);
        cbn; (split; [intros x; discriminate | exact Hs]).
    + destruct (is_zero v); auto with writer.
    + destruct v; auto with writer. destruct b; auto with writer.
    + destruct v; auto with writer. destruct closed; auto with writer.
    + destruct v; auto with writer. apply needs_writer_bind_lift. intros m'. apply IH.
    + destruct (e && negb a); auto with writer.
      destruct (AsMarshaler U e v) as [[b|err]|]; auto with writer.
Qed.

(** C4. Given an [io.Writer] that is not already a [writer], [EncodeValue]
    never completes the encode: whatever the value, it does not return nil,
    and not one byte reaches the destination. *)
Theorem EncodeValue_plain_writer_never_succeeds
  (U : usercode) (fuel : nat) (k : sink) (v : option Value) (g : registry) :
  fst (fst (EncodeValue U fuel (mkWriter false k) v g)) <> Returns None
  /\ snd (EncodeValue U fuel (mkWriter false k) v g) = k.
Proof.
  unfold EncodeValue. cbn [is_writer w_sink].
  set (body := match resolve v with
               | Some x => _
               | None => _
               end).
  assert (Hb : needs_writer body).
  { subst body. destruct (resolve v) as [x|].
    - apply needs_writer_bind_lift. intros m. apply encode_needs_writer.
    - apply needs_writer_panic. }
  destruct (Hb (mkE g None) eq_refl) as [Hno Hw].
  destruct (body (mkE g None)) as [o e'] eqn:E. cbn in *.
  rewrite Hw. split; [|reflexivity].
  destruct o as [a|[]| |]; cbn; try discriminate.
  exfalso. apply (Hno a). reflexivity.
Qed.

(** The same on a concrete call: encoding the int 5 into a plain writer ends
    in a nil-pointer panic that escapes [Encode]. *)
Example Encode_plain_writer_int (U : usercode) (fuel : nat) (k : sink) :
  Encode U (S fuel) (mkWriter false k) (Some (TInt KInt, VInt KInt 5)) []
  = (Panics (RuntimeError NilDereference), [(TInt KInt, intMachine)], k).
Proof. reflexivity. Qed.

(** ** A type that cannot be compiled *)

(** C5. The first [Encode] of a bare function value panics with a [TypeError]
    naming the type, and the deferred function of [register] leaves a nil
    machine in the registry under that type.  The second [Encode] of the same
    type finds the nil machine, and calling its method is a nil-dereference
    panic of the runtime: not a [TypeError]. *)
Theorem unsupported_type_second_attempt
  (U : usercode) (fuel : nat) (k : sink) (v : value) :
  let t := TFunc no_methods in
  let first := Encode U (S fuel) (mkWriter true k) (Some (t, v)) [] in
  let g1 := snd (fst first) in
  let second := Encode U (S fuel) (mkWriter true k) (Some (t, v)) g1 in
  fst (fst first) = Panics (TypeError t)
  /\ g1 = [(t, nil_machine)]
  /\ fst (fst second) = Panics (RuntimeError NilDereference)
  /\ snd (fst second) = g1.
Proof. cbn. repeat split; reflexivity. Qed.

(** The same through [Decode]. *)
Example unsupported_type_second_Decode
  (U : usercode) (fuel : nat) (r : source) (v : value) :
  let t := TFunc no_methods in
  let first := Decode U (S fuel) (mkReader true r) (Some (t, v)) [] in
  let g1 := snd (fst (fst first)) in
  let second := Decode U (S fuel) (mkReader true r) (Some (t, v)) g1 in
  fst (fst (fst first)) = Panics (TypeError t)
  /\ fst (fst (fst second)) = Panics (RuntimeError NilDereference).
Proof. cbn. split; reflexivity. Qed.

(** A slice of functions registered after the failure is built around the nil
    machine, and its empty value then encodes without complaint. *)
Example slice_of_unsupported_after_failure (U : usercode) (fuel : nat) :
  let t := TFunc no_methods in
  let g1 := snd (fst (Encode U (S fuel) (mkWriter true (buffer [])) (Some (t, VNilFunc)) [])) in
  let '(r, g2, k) :=
    Encode U (S fuel) (mkWriter true (buffer [])) (Some (TSlice t, VSlice 0 [])) g1 in
  r = Returns None /\ written k = [0]
  /\ lookup g2 (TSlice t) = Some (sliceMachine (TSlice t) nil_machine).
Proof. cbn. repeat split; reflexivity. Qed.

(** ** Zero values and leading zero bytes *)

(** C2. [*int] is comparable and a pointer to the int 0 is not its zero
    value, yet [Encode] writes the single byte 0 for it: the same byte as for
    the nil pointer, which is what [Decode] then yields.  Also, the zero value
    of [complex128] takes two bytes. *)
Theorem pointer_to_zero_encodes_as_zero (U : usercode) (fuel : nat) :
  let t := TPtr (TInt KInt) in
  let v := VPtr (VInt KInt 0) in
  let w := mkWriter true (buffer []) in
  let r := mkReader true (reader_of [0]) in
  Comparable t = true
  /\ is_zero v = false
  /\ DeepEqual v (Zero t) = false
  /\ (let '(res, _, k) := Encode U (3 + fuel) w (Some (TPtr t, VPtr v)) [] in
      res = Returns None /\ written k = [0])
  /\ (let '(res, _, k) := Encode U (3 + fuel) w (Some (TPtr t, VPtr (Zero t))) [] in
      res = Returns None /\ written k = [0])
  /\ (let '(res, _, _, v') := Decode U (3 + fuel) r (Some (TPtr t, VPtr (Zero t))) [] in
      res = Returns None /\ v' = Some VNilPtr)
  /\ (let '(res, _, k) :=
        Encode U (3 + fuel) w (Some (TPtr TComplex128, VPtr (Zero TComplex128))) [] in
      res = Returns None /\ written k = [0; 0]).
Proof. cbn. repeat split; reflexivity. Qed.

(** ** Interface destinations *)

(** C8. Decoding an encoding that does not start with the byte 0 into a nil
    interface destination: [decodeZero] pushes the byte back, [v.Elem()] is
    the zero [reflect.Value], and [v.Type()] panics.  The panic is not a
    [noPanic], so it escapes [Decode]. *)
Theorem Decode_nil_interface_panics
  (U : usercode) (fuel : nat) (b : Z) (rest : list Z) :
  b <> 0 ->
  fst (fst (fst (Decode U (S fuel) (mkReader true (reader_of (b :: rest)))
                   (Some (TPtr TInterface, VPtr VNilIface)) [])))
  = Panics (RuntimeError ReflectZeroValue).
Proof.
  intros Hb. destruct b as [|p|p]; [contradiction Hb; reflexivity | reflexivity | reflexivity].
Qed.

Lemma Decode_nil_interface_panics_witness :
  fst (fst (fst (Decode no_usercode 1 (mkReader true (reader_of [2]))
                   (Some (TPtr TInterface, VPtr VNilIface)) [])))
  = Panics (RuntimeError ReflectZeroValue).
Proof. apply (Decode_nil_interface_panics no_usercode 0 2 []). lia. Defined.

(** An interface that holds a plain value instead of a pointer to one
    cannot be decoded into either: the value inside is not settable. *)
Example Decode_interface_holding_value (U : usercode) (fuel : nat) :
  fst (fst (fst (Decode U (2 + fuel) (mkReader true (reader_of [2]))
                   (Some (TPtr TInterface, VPtr (VIface (TInt KInt) (VInt KInt 0)))) [])))
  = Panics (RuntimeError ReflectNotSettable).
Proof. reflexivity. Qed.

(** With a pointer to an instance already in the interface, the same bytes
    are decoded into the instance. *)
Example Decode_populated_interface (U : usercode) (fuel : nat) :
  let dst := VIface (TPtr (TInt KInt)) (VPtr (VInt KInt 0)) in
  let '(res, _, _, v') :=
    Decode U (4 + fuel) (mkReader true (reader_of [2])) (Some (TPtr TInterface, VPtr dst)) [] in
  res = Returns None /\ v' = Some (VIface (TPtr (TInt KInt)) (VPtr (VInt KInt 1))).
Proof. cbn. split; reflexivity. Qed.

(** ** Stored counts of arrays and records *)

(** C3. A stored count of [2^63] read into a two-element array: [int(...)]
    makes it negative, the loop body never runs, both elements keep their
    zero value and the bytes of the elements stay in the stream. *)
Theorem array_count_wraps_negative (U : usercode) (fuel : nat) :
  let count := [128; 128; 128; 128; 128; 128; 128; 128; 128; 1] in
  let '(res, _, r, v') :=
    Decode U (3 + fuel) (mkReader true (reader_of (count ++ [2; 4])))
      (Some (TPtr (TArray 2 (TInt KInt)), VPtr (Zero (TArray 2 (TInt KInt))))) [] in
  binary.PutUvarint two63 = Some count
  /\ Z.min two63 2 = 2
  /\ res = Returns None
  /\ v' = Some (VArray [VInt KInt 0; VInt KInt 0])
  /\ data r = [2; 4].
Proof. cbn. repeat split; reflexivity. Qed.

(** ** Loops *)

(** What a [bind] that returned normally went through. *)
Lemma bind_Ok {St A B : Type} (c : M St A) (k : A -> M St B) (s s' : St) (b : B) :
  bind c k s = (Ok b, s') ->
  exists a s1, c s = (Ok a, s1) /\ k a s1 = (Ok b, s').
Proof.
  unfold bind. destruct (c s) as [[a|p| |] s1]; intros H; try discriminate.
  exists a, s1. split; [reflexivity|exact H].
Qed.

Lemma bind_step {St A B : Type} (c : M St A) (k : A -> M St B) (s s1 : St) (a : A) :
  c s = (Ok a, s1) -> bind c k s = k a s1.
Proof. intros H. unfold bind. rewrite H. reflexivity. Qed.

(** An invariant of the accumulator survives a loop that returns normally. *)
Lemma for_loop_invariant {St A : Type} (P : A -> Prop) (body : nat -> A -> M St A) (n : nat) :
  (forall j a s a' s', P a -> body j a s = (Ok a', s') -> P a') ->
  forall i acc s r s',
    P acc -> for_loop n i body acc s = (Ok r, s') -> P r.
Proof.
  intros Hbody. induction n as [|n IH]; intros i acc s r s' Hacc H.
  - cbn in H. unfold ret in H. inversion H. subst. exact Hacc.
  - cbn [for_loop] in H. apply bind_Ok in H. destruct H as (a & s1 & Hb & Hrest).
    apply (IH (S i) a s1 r s'); [|exact Hrest].
    apply (Hbody i acc s a s1 Hacc Hb).
Qed.

Lemma set_nth_length (xs : list value) : forall i x, length (set_nth xs i x) = length xs.
Proof.
  induction xs as [|y xs IH]; intros i x; [reflexivity|].
  destruct i; cbn; [reflexivity|]. rewrite IH. reflexivity.
Qed.

(** ** Slices *)

Lemma not_bytesType (e : type) :
  e <> TUint KUint8 -> type_eqb (TSlice e) bytesType = false.
Proof.
  intros He. cbn. destruct e; try reflexivity. destruct k; try reflexivity.
  contradiction He. reflexivity.
Qed.

(** Outside the byte-slice fast path, the machine registered for a slice type
    is a bare [sliceMachine]. *)
Lemma get_slice_is_sliceMachine (e : type) (g g' : registry) (mach : machine) :
  e <> TUint KUint8 ->
  lookup g (TSlice e) = None ->
  get (TSlice e) g = (Ok mach, g') ->
  exists m, mach = sliceMachine (TSlice e) m.
Proof.
  intros He Hl H. unfold get, get_with in H. rewrite Hl in H.
  cbn [register] in H. unfold registering in H. rewrite Hl in H.
  unfold register_slice in H. rewrite (not_bytesType e He) in H.
  match type of H with
  | context [bind ?c ?k ?s] => destruct (bind c k s) as [[r|p| |] g1] eqn:E
  end; try discriminate.
  inversion H. subst. apply bind_Ok in E. destruct E as (m & s1 & _ & Hr).
  unfold ret in Hr. inversion Hr. exists m. reflexivity.
Qed.


(** ** Failures of the stream *)

Section Abort.

Context {St : Type}.
Variable Inv : St -> Prop.             (* what stays true of the stream *)
Variable after : St -> option nat.     (* the stream's bookkeeping *)
Variable errs : error -> Prop.         (* the errors a failing stream call is reported as *)

Lemma aborts_pure {A : Type} (o : outcome A) : aborts Inv after errs (fun s => (o, s)).
Proof. intros s Hi Ha. cbn. split; [exact Hi|left; exact Ha]. Qed.

Lemma aborts_ret {A : Type} (a : A) : aborts Inv after errs (ret a).
Proof. apply aborts_pure. Qed.

Lemma aborts_panic {A : Type} (p : panic_value) : aborts Inv after errs (@panic St A p).
Proof. apply aborts_pure. Qed.

Lemma aborts_rpanic {A : Type} (r : runtime_error) : aborts Inv after errs (@rpanic St A r).
Proof. apply aborts_pure. Qed.

Lemma aborts_block {A : Type} : aborts Inv after errs (@block St A).
Proof. apply aborts_pure. Qed.

Lemma aborts_out_of_fuel {A : Type} : aborts Inv after errs (@out_of_fuel St A).
Proof. apply aborts_pure. Qed.

Lemma aborts_bind {A B : Type} (c : M St A) (k : A -> M St B) :
  aborts Inv after errs c -> (forall a, aborts Inv after errs (k a)) -> aborts Inv after errs (bind c k).
Proof.
  intros Hc Hk s Hi Ha. destruct (Hc s Hi Ha) as [Hi1 H1].
  unfold bind. destruct (c s) as [[a|p| |] s1] eqn:E; cbn in *.
  - destruct H1 as [H1|[_ (e & _ & He)]]; [|discriminate].
    apply Hk; assumption.
  - split; [exact Hi1|]. destruct H1 as [H1|[H1 (e & He & Hp)]]; [left; exact H1|].
    right. split; [exact H1|]. exists e. split; [exact He|].
    inversion Hp. reflexivity.
  - split; [exact Hi1|]. destruct H1 as [H1|[_ (e & _ & Hp)]]; [left; exact H1|discriminate].
  - split; [exact Hi1|]. destruct H1 as [H1|[_ (e & _ & Hp)]]; [left; exact H1|discriminate].
Qed.

Lemma aborts_for_loop {A : Type} (body : nat -> A -> M St A) (n : nat) :
  (forall i a, aborts Inv after errs (body i a)) -> forall i acc, aborts Inv after errs (for_loop n i body acc).
Proof.
  intros Hb. induction n as [|n IH]; intros i acc; cbn [for_loop].
  - apply aborts_ret.
  - apply aborts_bind; [apply Hb|]. intros a. apply IH.
Qed.

Lemma aborts_range {A : Type} (body : nat -> A -> M St unit) (xs : list A) :
  (forall i a, aborts Inv after errs (body i a)) -> forall i, aborts Inv after errs (range xs i body).
Proof.
  intros Hb. induction xs as [|x xs IH]; intros i; cbn [range].
  - apply aborts_ret.
  - apply aborts_bind; [apply Hb|]. intros a. apply IH.
Qed.

Lemma aborts_Index (a : bool) (v : value) (i : nat) : aborts Inv after errs (Index a v i).
Proof.
  unfold Index. destruct v; try apply aborts_rpanic;
    destruct (nth_error elems i); (apply aborts_ret || apply aborts_rpanic).
Qed.

Lemma aborts_Field (v : value) (i : nat) : aborts Inv after errs (Field v i).
Proof.
  unfold Field. destruct v; try apply aborts_rpanic.
  destruct (nth_error fields i); (apply aborts_ret || apply aborts_rpanic).
Qed.

Lemma aborts_Set (settable : bool) (x : value) : aborts Inv after errs (Set_ settable x).
Proof. unfold Set_. destruct settable; [apply aborts_ret|apply aborts_rpanic]. Qed.

Lemma aborts_Send (v x : value) : aborts Inv after errs (Send v x).
Proof.
  unfold Send. destruct v; try apply aborts_rpanic; try apply aborts_block.
  destruct closed; [apply aborts_rpanic|].
  destruct (length buf <? cap)%nat; [apply aborts_ret|apply aborts_block].
Qed.

End Abort.

Create HintDb abort.
#[local] Hint Resolve aborts_ret aborts_panic aborts_rpanic aborts_block aborts_out_of_fuel
  aborts_bind aborts_for_loop aborts_range aborts_Index aborts_Field aborts_Set aborts_Send
  : abort.

(** *** Writing *)

Lemma aborts_e_write (w0 : error) (b : list Z) :
  aborts (e_inv w0) e_after (eq w0) (e_write b).
Proof.
  intros s (k & Hk & Hw) Ha. unfold e_after in Ha. rewrite Hk in Ha.
  unfold e_write, e_after, e_inv, sink_Write. rewrite Hk.
  destruct (room k) as [r|]; [destruct (length b <=? r)%nat|]; cbn; rewrite Ha; cbn;
    (split; [eexists; split; [reflexivity|exact Hw]|]); auto.
  right. split; [reflexivity|]. exists (werr k). split; [symmetry; exact Hw|reflexivity].
Qed.

Lemma aborts_e_lift {A : Type} (w0 : error) (c : M registry A) :
  aborts (e_inv w0) e_after (eq w0) (e_lift c).
Proof.
  intros s Hi Ha. unfold e_lift. destruct (c (e_types s)) as [o g]. cbn.
  split; [exact Hi|left; exact Ha].
Qed.

Lemma aborts_encodeUint (w0 : error) (u : Z) :
  aborts (e_inv w0) e_after (eq w0) (encodeUint u).
Proof.
  unfold encodeUint. destruct (binary.PutUvarint u);
    [apply aborts_e_write|apply aborts_panic].
Qed.

Lemma aborts_encodeInt (w0 : error) (i : Z) :
  aborts (e_inv w0) e_after (eq w0) (encodeInt i).
Proof.
  unfold encodeInt. destruct (binary.PutVarint i);
    [apply aborts_e_write|apply aborts_panic].
Qed.

#[local] Hint Resolve aborts_e_write aborts_e_lift aborts_encodeUint aborts_encodeInt : abort.

(** Case analysis on whatever the computation branches on, down to the
    primitive steps. *)
Ltac abort_cases :=
  repeat first
    [ solve [auto with abort]
    | apply aborts_bind; [|intros ?]
    | apply aborts_for_loop; intros ? ?
    | apply aborts_range; intros ? ?
    | match goal with
      | |- aborts _ _ _ (match ?x with _ => _ end) => destruct x
      | |- aborts _ _ _ (if ?x then _ else _) => destruct x
      end ].

Lemma encode_aborts (U : usercode) (w0 : error) (fuel : nat) :
  forall m a v, aborts (e_inv w0) e_after (eq w0) (encode U fuel m a v).
Proof.
  induction fuel as [|fuel IH]; intros m a v; [apply aborts_out_of_fuel|].
  destruct m; cbn [encode]; unfold e_writeByte, e_writeString; abort_cases.
  intros s Hi Ha. destruct (lookup (e_types s) waits_for) as [[]|];
    try (apply IH; assumption); cbn; (split; [exact Hi|left; exact Ha]).
Qed.

(** *** Reading *)

Lemma aborts_d_call {A : Type} (r0 : error) (f : source -> source * (A + error)) :
  clean_call f -> aborts (d_inv r0) d_after (reported r0) (d_call f).
Proof.
  intros Hf s Hi Ha. unfold d_inv, d_after in *.
  destruct (Hf (d_r s) Ha) as [Hr H]. unfold d_call.
  destruct (d_nil s); [cbn; split; [exact Hi|left; exact Ha]|].
  destruct (f (d_r s)) as [r' [a|err]]; cbn in *.
  - split; [congruence|]. destruct H as [H|[_ (e & He & _)]]; [left; exact H|discriminate].
  - split; [congruence|]. destruct H as [H|[H (e & He & Hrep)]]; [left; exact H|].
    right. split; [exact H|]. exists e. inversion He. subst. split; [exact Hrep|reflexivity].
Qed.

Lemma error_eqb_eq (a b : error) : error_eqb a b = true -> a = b.
Proof.
  destruct a, b; cbn; intros H; try discriminate; try reflexivity;
    apply Nat.eqb_eq in H; subst; reflexivity.
Qed.

Lemma clean_ReadByte : clean_call source_ReadByte.
Proof.
  intros r Ha. unfold source_ReadByte. destruct (data r); cbn; rewrite Ha; cbn.
  - split; [reflexivity|]. right. split; [reflexivity|].
    exists (rerr r). split; [reflexivity|left; reflexivity].
  - split; [reflexivity|left; reflexivity].
Qed.

Lemma clean_read_loop (n : nat) : forall i x s, clean_call (read_loop n i x s).
Proof.
  induction n as [|n IH]; intros i x s r Ha; cbn [read_loop].
  - cbn. split; [reflexivity|left; exact Ha].
  - destruct (clean_ReadByte r Ha) as [Hr H].
    destruct (source_ReadByte r) as [r' [b|err]] eqn:E; cbn in Hr, H.
    + destruct H as [H|[_ (e & He & _)]]; [|discriminate].
      destruct (b <? 128).
      * destruct ((i =? 9)%nat && (1 <? b)); cbn; (split; [exact Hr|left; exact H]).
      * destruct (IH (S i) (Z.lor x (to_uint64 (Z.shiftl (Z.land b 127) s))) (s + 7) r' H)
          as [Hr' H'].
        rewrite Hr in Hr', H'. split; [exact Hr'|exact H'].
    + cbn -[Nat.ltb error_eqb]. split; [exact Hr|].
      destruct H as [H|[H (e & He & Hrep)]]; [left; exact H|].
      right. split; [exact H|]. inversion He. subst e.
      destruct ((0 <? i)%nat && error_eqb err EOF) eqn:Ei.
      * exists ErrUnexpectedEOF. split; [reflexivity|].
        apply andb_true_iff in Ei. destruct Ei as [_ Ei]. apply error_eqb_eq in Ei. subst err.
        destruct Hrep as [Hrep|[_ Hrep]]; [|discriminate].
        right. split; [symmetry; exact Hrep|reflexivity].
      * exists err. split; [reflexivity|exact Hrep].
Qed.

Lemma clean_ReadUvarint : clean_call ReadUvarint.
Proof. apply clean_read_loop. Qed.

Lemma clean_ReadVarint : clean_call ReadVarint.
Proof.
  intros r Ha. destruct (clean_ReadUvarint r Ha) as [Hr H]. unfold ReadVarint.
  destruct (ReadUvarint r) as [r' [ux|err]]; cbn in *.
  - split; [exact Hr|]. destruct H as [H|[_ (e & He & _)]]; [left; exact H|discriminate].
  - split; [exact Hr|exact H].
Qed.

Lemma clean_ReadFull (n : nat) :
  clean_call (fun r =>
    match io_ReadFull r n with
    | (r', inr err) => (r', inr (if error_eqb err EOF then ErrUnexpectedEOF else err))
    | ok => ok
    end).
Proof.
  intros r Ha. unfold io_ReadFull. destruct (n =? 0)%nat.
  - cbn. split; [reflexivity|left; exact Ha].
  - destruct (n <=? length (data r))%nat; cbn; rewrite Ha; cbn.
    + split; [reflexivity|left; reflexivity].
    + split; [reflexivity|]. right. split; [reflexivity|].
      eexists. split; [reflexivity|].
      destruct (data r), (rerr r); cbn; unfold reported; auto.
Qed.

Lemma aborts_d_lift {A : Type} (r0 : error) (c : M registry A) :
  aborts (d_inv r0) d_after (reported r0) (d_lift c).
Proof.
  intros s Hi Ha. unfold d_lift. destruct (c (d_types s)) as [o g]. cbn.
  split; [exact Hi|left; exact Ha].
Qed.

Lemma aborts_decodeUint (r0 : error) : aborts (d_inv r0) d_after (reported r0) decodeUint.
Proof. apply aborts_d_call, clean_ReadUvarint. Qed.

Lemma aborts_decodeInt (r0 : error) : aborts (d_inv r0) d_after (reported r0) decodeInt.
Proof. apply aborts_d_call, clean_ReadVarint. Qed.

Lemma aborts_d_readByte (r0 : error) : aborts (d_inv r0) d_after (reported r0) d_readByte.
Proof. apply aborts_d_call, clean_ReadByte. Qed.

Lemma aborts_d_read (r0 : error) (size : Z) :
  aborts (d_inv r0) d_after (reported r0) (d_read size).
Proof.
  unfold d_read. destruct (maxAlloc <? size); [apply aborts_rpanic|].
  destruct (size =? 0); [apply aborts_ret|].
  apply aborts_d_call, clean_ReadFull.
Qed.

#[local] Hint Resolve aborts_d_lift aborts_decodeUint aborts_decodeInt aborts_d_readByte
  aborts_d_read : abort.

(** [decodeZero] pushes back the byte it has just read, which [UnreadByte]
    never refuses: [ErrInvalidUnreadByte] does not occur. *)
Lemma aborts_decodeZero (r0 : error) (settable : bool) :
  aborts (d_inv r0) d_after (reported r0) (decodeZero settable).
Proof.
  intros s Hi Ha. unfold d_inv, d_after in *.
  unfold decodeZero, bind, d_readByte, d_call.
  destruct (d_nil s); [cbn; split; [exact Hi|left; exact Ha]|].
  unfold source_ReadByte. rewrite Ha.
  destruct (data (d_r s)) as [|b rest]; cbn [tick].
  - cbn. split; [exact Hi|]. right. split; [reflexivity|].
    exists (rerr (d_r s)). split; [left; exact Hi|reflexivity].
  - destruct (b =? 0).
    + destruct settable; cbn; (split; [exact Hi|left; reflexivity]).
    + cbn. split; [exact Hi|left; reflexivity].
Qed.

#[local] Hint Resolve aborts_decodeZero : abort.

Lemma decode_aborts (U : usercode) (r0 : error) (fuel : nat) :
  forall m settable v, aborts (d_inv r0) d_after (reported r0) (decode U fuel m settable v).
Proof.
  induction fuel as [|fuel IH]; intros m settable v; [apply aborts_out_of_fuel|].
  destruct m; cbn [decode]; abort_cases.
  intros s Hi Ha. destruct (lookup (d_types s) waits_for) as [[]|];
    try (apply IH; assumption); cbn; (split; [exact Hi|left; exact Ha]).
Qed.

Lemma error_eqb_EOF (e : error) : error_eqb e EOF = true <-> e = EOF.
Proof. split; [apply error_eqb_eq|intros ->; reflexivity]. Qed.

(** A payload read that finds fewer bytes than announced. *)
Lemma d_read_short (size : Z) (s : dstate) :
  0 < size <= maxAlloc ->
  d_nil s = false ->
  (length (data (d_r s)) < Z.to_nat size)%nat ->
  fst (d_read size s)
  = Panic (noPanic (if error_eqb (rerr (d_r s)) EOF then ErrUnexpectedEOF else rerr (d_r s))).
Proof.
  intros [H0 H1] Hn Hlen. unfold d_read.
  destruct (maxAlloc <? size) eqn:E; [apply Z.ltb_lt in E; lia|].
  destruct (size =? 0) eqn:Ez; [apply Z.eqb_eq in Ez; lia|].
  unfold d_call, io_ReadFull. rewrite Hn.
  destruct (Z.to_nat size =? 0)%nat eqn:E0; [apply Nat.eqb_eq in E0; lia|].
  destruct (Z.to_nat size <=? length (data (d_r s)))%nat eqn:E1;
    [apply Nat.leb_le in E1; lia|].
  cbn. destruct (data (d_r s)), (rerr (d_r s)); reflexivity.
Qed.

(** A byte or a varint expected where the stream has already ended. *)
Lemma d_readByte_at_end (s : dstate) :
  d_nil s = false ->
  data (d_r s) = [] ->
  fst (d_readByte s) = Panic (noPanic (rerr (d_r s)))
  /\ fst (decodeUint s) = Panic (noPanic (rerr (d_r s)))
  /\ fst (decodeInt s) = Panic (noPanic (rerr (d_r s))).
Proof.
  intros Hn Hd.
  unfold d_readByte, decodeUint, decodeInt, d_call, ReadVarint, ReadUvarint. rewrite Hn.
  cbn [binary.MaxVarintLen64 read_loop]. unfold source_ReadByte. rewrite Hd. cbn.
  repeat split; reflexivity.
Qed.




(** A text whose announced length exceeds the stream does return
    [ErrUnexpectedEOF]. *)
Example Decode_truncated_text (U : usercode) (fuel : nat) :
  fst (fst (fst (Decode U (2 + fuel) (mkReader true (reader_of [5; 104; 105]))
                   (Some (TPtr TString, VPtr (VString []))) [])))
  = Returns (Some ErrUnexpectedEOF).
Proof. reflexivity. Qed.

(** ** Type descriptors: size and equality *)

Lemma size_struct (ms : methods) (fs : list (StructField type)) :
  size (TStruct ms fs) = S (fields_size fs).
Proof. reflexivity. Qed.

Lemma size_pos (t : type) : (0 < size t)%nat.
Proof. destruct t; cbn; lia. Qed.

Lemma ikind_eqb_eq (a b : ikind) : ikind_eqb a b = true <-> a = b.
Proof. destruct a, b; cbn; split; intros H; try discriminate; reflexivity. Qed.

Lemma ukind_eqb_eq (a b : ukind) : ukind_eqb a b = true <-> a = b.
Proof. destruct a, b; cbn; split; intros H; try discriminate; reflexivity. Qed.

Lemma methods_eqb_eq (a b : methods) : methods_eqb a b = true <-> a = b.
Proof.
  destruct a as [a1 a2 a3 a4], b as [b1 b2 b3 b4]. unfold methods_eqb. cbn.
  rewrite !andb_true_iff, !eqb_true_iff. split.
  - intros [[[-> ->] ->] ->]. reflexivity.
  - intros H. inversion H. auto.
Qed.

Lemma type_eqb_struct (ms ms' : methods) (fs fs' : list (StructField type)) :
  type_eqb (TStruct ms fs) (TStruct ms' fs') = methods_eqb ms ms' && fields_eqb fs fs'.
Proof. reflexivity. Qed.

Lemma type_eqb_eq_bounded (n : nat) :
  forall a b, (size a < n)%nat -> (type_eqb a b = true <-> a = b).
Proof.
  induction n as [|n IH]; intros a b Hn; [lia|].
  destruct a, b; try (cbn; split; intros H; (discriminate || reflexivity); fail);
    try (cbn [type_eqb]; split; intros H; discriminate).
  - cbn. rewrite ikind_eqb_eq. split; [intros ->; reflexivity|intros H; inversion H; reflexivity].
  - cbn. rewrite ukind_eqb_eq. split; [intros ->; reflexivity|intros H; inversion H; reflexivity].
  - cbn [type_eqb]. cbn in Hn. rewrite andb_true_iff, Nat.eqb_eq, (IH a b) by lia.
    split; [intros [-> ->]; reflexivity|intros H; inversion H; auto].
  - cbn [type_eqb]. cbn in Hn. rewrite (IH a b) by lia.
    split; [intros ->; reflexivity|intros H; inversion H; auto].
  - cbn [type_eqb]. cbn in Hn. rewrite andb_true_iff, (IH a1 b1), (IH a2 b2) by lia.
    split; [intros [-> ->]; reflexivity|intros H; inversion H; auto].
  - cbn [type_eqb]. cbn in Hn. rewrite (IH a b) by lia.
    split; [intros ->; reflexivity|intros H; inversion H; auto].
  - cbn [type_eqb]. cbn in Hn. rewrite (IH a b) by lia.
    split; [intros ->; reflexivity|intros H; inversion H; auto].
  - rewrite type_eqb_struct, andb_true_iff, methods_eqb_eq. rewrite size_struct in Hn.
    assert (Hf : fields_eqb fields fields0 = true <-> fields = fields0).
    { clear ms ms0. revert fields0 Hn.
      induction fields as [|f fs IHf]; intros [|f' fs'] Hn; cbn [fields_eqb];
        try (split; intros H; (discriminate || reflexivity)).
      cbn [fields_size fold_right] in Hn.
      rewrite !andb_true_iff, !eqb_true_iff, (IH (Type_ f) (Type_ f')), IHf
        by (unfold fields_size; lia).
      destruct f, f'; cbn.
      split; [intros [[[-> ->] ->] ->]; reflexivity|intros H; inversion H; auto]. }
    rewrite Hf. split; [intros [-> ->]; reflexivity|intros H; inversion H; auto].
  - cbn. rewrite methods_eqb_eq. split; [intros ->; reflexivity|intros H; inversion H; auto].
Qed.

Lemma type_eqb_eq (a b : type) : type_eqb a b = true <-> a = b.
Proof. apply (type_eqb_eq_bounded (S (size a))). lia. Qed.

Lemma type_eqb_refl (a : type) : type_eqb a a = true.
Proof. apply type_eqb_eq. reflexivity. Qed.

Lemma type_eqb_neq (a b : type) : a <> b -> type_eqb a b = false.
Proof.
  intros H. destruct (type_eqb a b) eqn:E; [|reflexivity].
  apply type_eqb_eq in E. contradiction.
Qed.

(** ** The registry as a map *)

Lemma lookup_store (g : registry) (t t' : type) (m : machine) :
  lookup (store g t m) t' = if type_eqb t t' then Some m else lookup g t'.
Proof.
  induction g as [|[t0 m0] g IH]; cbn.
  - reflexivity.
  - destruct (type_eqb t0 t) eqn:E0; cbn.
    + apply type_eqb_eq in E0. subst t0. destruct (type_eqb t t'); reflexivity.
    + destruct (type_eqb t0 t') eqn:E1.
      * apply type_eqb_eq in E1. subst t0.
        destruct (type_eqb t t') eqn:E2; [|reflexivity].
        apply type_eqb_eq in E2. subst t'. rewrite type_eqb_refl in E0. discriminate.
      * exact IH.
Qed.

Lemma lookup_store_same (g : registry) (t : type) (m : machine) :
  lookup (store g t m) t = Some m.
Proof. rewrite lookup_store, type_eqb_refl. reflexivity. Qed.

Lemma lookup_store_other (g : registry) (t t' : type) (m : machine) :
  t <> t' -> lookup (store g t m) t' = lookup g t'.
Proof. intros H. rewrite lookup_store, (type_eqb_neq t t' H). reflexivity. Qed.

(** ** Varints read back *)

Lemma low7_of_continuation (x : Z) : Z.land (Z.lor (to_byte x) 128) 127 = Z.land x 127.
Proof.
  apply Z.bits_inj'. intros n Hn.
  rewrite !Z.land_spec, Z.lor_spec. unfold to_byte.
  change 127 with (Z.ones 7). rewrite Z.testbit_ones_nonneg by lia.
  destruct (n <? 7) eqn:E; [|rewrite !andb_false_r; reflexivity].
  apply Z.ltb_lt in E. rewrite !andb_true_r.
  change 256 with (2 ^ 8). rewrite Z.mod_pow2_bits_low by lia.
  change 128 with (2 ^ 7). rewrite Z.pow2_bits_eqb by lia.
  replace (7 =? n) with false by (symmetry; apply Z.eqb_neq; lia).
  apply orb_false_r.
Qed.

Lemma recombine7 (x : Z) : Z.lor (Z.land x 127) (Z.shiftl (Z.shiftr x 7) 7) = x.
Proof.
  apply Z.bits_inj'. intros n Hn.
  rewrite Z.lor_spec, Z.land_spec.
  change 127 with (Z.ones 7). rewrite Z.testbit_ones_nonneg by lia.
  destruct (n <? 7) eqn:E.
  - apply Z.ltb_lt in E. rewrite Z.shiftl_spec_low by lia.
    rewrite andb_true_r, orb_false_r. reflexivity.
  - apply Z.ltb_ge in E. rewrite Z.shiftl_spec by lia. rewrite Z.shiftr_spec by lia.
    rewrite andb_false_r. cbn. f_equal. lia.
Qed.

Lemma to_uint64_small (x : Z) : 0 <= x < two64 -> to_uint64 x = x.
Proof. intros H. unfold to_uint64. apply Z.mod_small. exact H. Qed.

Lemma shiftl_bound (x s : Z) :
  0 <= s <= 63 -> 0 <= x < 2 ^ (64 - s) -> 0 <= Z.shiftl x s < two64.
Proof.
  intros Hs Hx. rewrite Z.shiftl_mul_pow2 by lia. split; [apply Z.mul_nonneg_nonneg; lia|].
  unfold two64.
  replace (2 ^ 64) with (2 ^ (64 - s) * 2 ^ s)
    by (rewrite <- Z.pow_add_r by lia; f_equal; lia).
  apply Z.mul_lt_mono_pos_r; lia.
Qed.

Lemma low7_le (x : Z) : 0 <= x -> 0 <= Z.land x 127 <= x.
Proof.
  intros Hx. change 127 with (Z.ones 7). rewrite Z.land_ones by lia.
  pose proof (Z.mod_pos_bound x (2 ^ 7) ltac:(lia)).
  split; [lia|]. apply Z.mod_le; lia.
Qed.

Lemma put_loop_nonempty (n : nat) : forall x bs, binary.put_loop n x = Some bs -> bs <> [].
Proof.
  destruct n as [|n]; intros x bs H; [discriminate|].
  rewrite put_loop_S in H. destruct (128 <=? x).
  - destruct (binary.put_loop n (Z.shiftr x 7)); [|discriminate].
    inversion H. discriminate.
  - inversion H. discriminate.
Qed.

Lemma last_cons_nonempty {A : Type} (a d : A) (l : list A) :
  l <> [] -> List.last (a :: l) d = List.last l d.
Proof. destruct l; [contradiction|reflexivity]. Qed.

(** [ReadUvarint] undoes [PutUvarint], byte for byte, and stops where the
    varint stops. *)
Lemma read_put_loop (n : nat) :
  forall i x acc bs rest e l,
    binary.put_loop n x = Some bs ->
    (i + n = 10)%nat ->
    0 <= x < 2 ^ (64 - 7 * Z.of_nat i) ->
    read_loop n i acc (7 * Z.of_nat i) (mkSource (bs ++ rest) e l None)
    = (mkSource rest e (Some (List.last bs 0)) None,
       inl (Z.lor acc (Z.shiftl x (7 * Z.of_nat i)))).
Proof.
  induction n as [|n IH]; intros i x acc bs rest e l Hp Hi Hx; [discriminate|].
  rewrite put_loop_S in Hp. cbn [read_loop].
  destruct (128 <=? x) eqn:E.
  - apply Z.leb_le in E.
    destruct (binary.put_loop n (Z.shiftr x 7)) as [bs'|] eqn:Hp'; [|discriminate].
    cbn in Hp. inversion Hp. subst bs. clear Hp.
    assert (Hi8 : (i <= 8)%nat).
    { destruct (Nat.le_gt_cases i 8) as [|Hgt]; [assumption|].
      assert (i = 9%nat) by lia. subst i. change (2 ^ (64 - 7 * Z.of_nat 9)) with 2 in Hx. lia. }
    pose proof (continuation_byte_range x) as Hc.
    unfold source_ReadByte. cbn [app data rerr r_after tick].
    replace (Z.lor (to_byte x) 128 <? 128) with false by (symmetry; apply Z.ltb_ge; lia).
    rewrite low7_of_continuation.
    pose proof (low7_le x ltac:(lia)) as Hlow.
    rewrite to_uint64_small.
    2:{ apply shiftl_bound; [lia|]. lia. }
    replace (7 * Z.of_nat i + 7) with (7 * Z.of_nat (S i)) by lia.
    rewrite (IH (S i) (Z.shiftr x 7) _ bs' rest e _ Hp').
    + rewrite (last_cons_nonempty _ _ bs') by (eapply put_loop_nonempty; exact Hp').
      f_equal. f_equal. rewrite <- Z.lor_assoc. f_equal.
      replace (7 * Z.of_nat (S i)) with (7 + 7 * Z.of_nat i) by lia.
      rewrite <- Z.shiftl_shiftl by lia. rewrite <- Z.shiftl_lor.
      rewrite recombine7. reflexivity.
    + lia.
    + rewrite Z.shiftr_div_pow2 by lia. split; [apply Z.div_pos; lia|].
      apply Z.div_lt_upper_bound; [lia|]. rewrite <- Z.pow_add_r by lia.
      replace (7 + (64 - 7 * Z.of_nat (S i))) with (64 - 7 * Z.of_nat i) by lia. lia.
  - apply Z.leb_gt in E. inversion Hp. subst bs. clear Hp.
    rewrite to_byte_small by lia.
    unfold source_ReadByte. cbn [app data rerr r_after tick List.last].
    replace (x <? 128) with true by (symmetry; apply Z.ltb_lt; lia).
    assert (Hov : (i =? 9)%nat && (1 <? x) = false).
    { destruct (i =? 9)%nat eqn:E9; [|reflexivity]. apply Nat.eqb_eq in E9. subst i.
      change (2 ^ (64 - 7 * Z.of_nat 9)) with 2 in Hx. cbn. apply Z.ltb_ge. lia. }
    rewrite Hov. rewrite to_uint64_small by (apply shiftl_bound; lia). reflexivity.
Qed.

Lemma ReadUvarint_PutUvarint (u : Z) (bs rest : list Z) (e : error) (l : option Z) :
  is_uint64 u ->
  binary.PutUvarint u = Some bs ->
  ReadUvarint (mkSource (bs ++ rest) e l None)
  = (mkSource rest e (Some (List.last bs 0)) None, inl u).
Proof.
  intros Hu Hp. unfold ReadUvarint.
  change 0 with (7 * Z.of_nat 0) at 2.
  rewrite (read_put_loop _ 0 u 0 bs rest e l Hp eq_refl).
  - change (7 * Z.of_nat 0) with 0. rewrite Z.shiftl_0_r, Z.lor_0_l. reflexivity.
  - exact Hu.
Qed.

Lemma unzigzag_zigzag (i : Z) : is_int64 i -> binary.unzigzag (binary.zigzag i) = i.
Proof.
  unfold is_int64, binary.unzigzag, binary.zigzag, to_uint64. rewrite two63_eq, two64_eq.
  intros Hi. rewrite Z.shiftl_mul_pow2 by lia. change (2 ^ 1) with 2.
  destruct (i <? 0) eqn:E; [apply Z.ltb_lt in E|apply Z.ltb_ge in E].
  - assert (H1 : i mod 18446744073709551616 = i + 18446744073709551616).
    { symmetry. apply (Z.mod_unique _ _ (-1)); lia. }
    rewrite H1.
    assert (H2 : ((i + 18446744073709551616) * 2) mod 18446744073709551616
                 = 2 * i + 18446744073709551616).
    { symmetry. apply (Z.mod_unique _ _ 1); lia. }
    rewrite H2.
    replace (18446744073709551616 - 1 - (2 * i + 18446744073709551616)) with (2 * (- i - 1) + 1)
      by lia.
    rewrite Z.testbit_odd_0, Z.shiftr_div_pow2 by lia. change (2 ^ 1) with 2.
    replace ((2 * (- i - 1) + 1) / 2) with (- i - 1); [lia|].
    apply (Z.div_unique _ _ _ 1); lia.
  - rewrite (Z.mod_small i) by lia. rewrite Z.mod_small by lia.
    replace (i * 2) with (2 * i) by lia.
    rewrite Z.testbit_even_0, Z.shiftr_div_pow2 by lia. change (2 ^ 1) with 2.
    symmetry. apply (Z.div_unique _ _ _ 0); lia.
Qed.

Lemma zigzag_range (i : Z) : is_int64 i -> is_uint64 (binary.zigzag i).
Proof.
  unfold is_int64, is_uint64, binary.zigzag, to_uint64. rewrite two63_eq, two64_eq.
  intros Hi.
  pose proof (Z.mod_pos_bound (Z.shiftl (i mod 18446744073709551616) 1) 18446744073709551616
                ltac:(lia)).
  destruct (i <? 0); lia.
Qed.

Lemma zigzag_zero_iff (i : Z) : is_int64 i -> (binary.zigzag i = 0 <-> i = 0).
Proof.
  intros Hi. split.
  - intros H. rewrite <- (unzigzag_zigzag i Hi), H. reflexivity.
  - intros ->. reflexivity.
Qed.

(** ** The registry builds [machine_of] *)

Lemma frame_refl (g : registry) : frame g g.
Proof. intros t. left. reflexivity. Qed.

Lemma frame_trans (g1 g2 g3 : registry) : frame g1 g2 -> frame g2 g3 -> frame g1 g3.
Proof.
  intros H12 H23 t. destruct (H23 t) as [H|H]; [|right; exact H].
  rewrite H. apply H12.
Qed.

Lemma coherent_below_frame (n : nat) (g g' : registry) :
  coherent_below n g -> frame g g' -> coherent_below n g'.
Proof.
  intros Hc Hf t m Hl Hs Hn. destruct (Hf t) as [H|[_ H]].
  - rewrite H in Hl. apply (Hc t m Hl Hs Hn).
  - rewrite H in Hl. inversion Hl. reflexivity.
Qed.

Lemma coherent_below_le (n n' : nat) (g : registry) :
  (n' <= n)%nat -> coherent_below n g -> coherent_below n' g.
Proof. intros Hle Hc t m Hl Hs Hn. apply (Hc t m Hl Hs). lia. Qed.

Lemma coherent_frame (g g' : registry) : coherent g -> frame g g' -> coherent g'.
Proof.
  intros Hc Hf t m Hl Hs. destruct (Hf t) as [H|[_ H]].
  - rewrite H in Hl. apply (Hc t m Hl Hs).
  - rewrite H in Hl. inversion Hl. reflexivity.
Qed.

(** What a successful body makes of [registering]. *)
Lemma registering_ok (t : type) (body : M registry machine) (g : registry) :
  supported t = true ->
  lookup g t = None ->
  (exists g2, body (store g t (recurseMachine t)) = (Ok (machine_of t), g2)
              /\ frame (store g t (recurseMachine t)) g2) ->
  exists g', registering t body g = (Ok (machine_of t), g') /\ frame g g'.
Proof.
  intros Hs Hl (g2 & Hb & Hf). unfold registering. rewrite Hl, Hb.
  eexists. split; [reflexivity|].
  intros t'. destruct (type_eqb t t') eqn:E.
  - apply type_eqb_eq in E. subst t'. right. split; [exact Hs|apply lookup_store_same].
  - rewrite lookup_store, E. destruct (Hf t') as [H|H]; [|right; exact H].
    left. rewrite H, lookup_store, E. reflexivity.
Qed.

Lemma finish_structural (t : type) (ms : methods) (m : machine) (g : registry) :
  m <> nil_machine ->
  finish t ms m g = (Ok (wrap t m), g).
Proof.
  intros Hm. unfold finish, wrap, bind.
  destruct m; try contradiction; cbn; destruct (Comparable t); reflexivity.
Qed.

Lemma field_size_lt (ms : methods) (fs : list (StructField type)) (f : StructField type) :
  In f fs -> (size (Type_ f) < size (TStruct ms fs))%nat.
Proof.
  rewrite size_struct. induction fs as [|f0 fs IH]; intros Hin; [contradiction|].
  cbn [fields_size fold_right]. destruct Hin as [->|Hin]; [lia|].
  specialize (IH Hin). unfold fields_size in IH. lia.
Qed.

Lemma supported_struct (ms : methods) (fs : list (StructField type)) :
  supported (TStruct ms fs) = fits (length fs) && supported_fields fs.
Proof. reflexivity. Qed.

Lemma get_machine_of_bounded (n : nat) :
  forall t, (size t < n)%nat -> supported t = true ->
  forall g, coherent_below (S (size t)) g ->
  exists g', get t g = (Ok (machine_of t), g') /\ frame g g'.
Proof.
  induction n as [|n IH]; intros t Hn Hs g Hc; [lia|].
  unfold get, get_with. destruct (lookup g t) as [m|] eqn:Hl.
  { rewrite (Hc t m Hl Hs) by lia. exists g. split; [reflexivity|apply frame_refl]. }
  fold (get_with (register t) t).
  assert (Hc1 : coherent_below (size t) (store g t (recurseMachine t))).
  { intros t' m Hl' Hs' Hn'. rewrite lookup_store_other in Hl' by (intros ->; lia).
    apply (Hc t' m Hl' Hs'). lia. }
  assert (Hsub : forall e g1, (size e < size t)%nat -> supported e = true ->
                   coherent_below (size t) g1 ->
                   exists g2, get_with (register e) e g1 = (Ok (machine_of e), g2)
                              /\ frame g1 g2).
  { intros e g1 He Hse Hg1. apply (IH e); [lia|exact Hse|].
    apply (coherent_below_le (size t)); [lia|exact Hg1]. }
  destruct t; try discriminate; cbn [register];
    apply registering_ok; try assumption;
    set (g1 := store g _ _) in *.
  - exists g1. split; [reflexivity|apply frame_refl].
  - exists g1. split; [reflexivity|apply frame_refl].
  - exists g1. split; [reflexivity|apply frame_refl].
  - exists g1. split; [reflexivity|apply frame_refl].
  - exists g1. split; [reflexivity|apply frame_refl].
  - (* TArray *)
    cbn [supported] in Hs. apply andb_true_iff in Hs. destruct Hs as [_ Hs].
    destruct (Hsub t g1 ltac:(cbn; lia) Hs Hc1) as (g2 & Hg & Hf).
    exists g2. split; [|exact Hf].
    rewrite (bind_step _ _ _ _ _ Hg). rewrite finish_structural by discriminate. reflexivity.
  - (* TMap *)
    cbn [supported] in Hs. apply andb_true_iff in Hs. destruct Hs as [Hs Hs2].
    apply andb_true_iff in Hs. destruct Hs as [_ Hs1].
    destruct (Hsub t1 g1 ltac:(cbn; lia) Hs1 Hc1) as (g2 & Hg & Hf).
    destruct (Hsub t2 g2 ltac:(cbn; lia) Hs2 (coherent_below_frame _ _ _ Hc1 Hf))
      as (g3 & Hg' & Hf').
    exists g3. split; [|apply (frame_trans _ _ _ Hf Hf')].
    rewrite (bind_step _ _ _ _ _ Hg), (bind_step _ _ _ _ _ Hg'). reflexivity.
  - (* TPtr *)
    cbn [supported] in Hs.
    destruct (Hsub t g1 ltac:(cbn; lia) Hs Hc1) as (g2 & Hg & Hf).
    exists g2. split; [|exact Hf].
    rewrite (bind_step _ _ _ _ _ Hg). reflexivity.
  - (* TSlice *)
    cbn [supported] in Hs. unfold register_slice. cbn [machine_of]. unfold is_bytes.
    destruct (type_eqb (TSlice t) bytesType).
    + exists g1. split; [reflexivity|apply frame_refl].
    + destruct (Hsub t g1 ltac:(cbn; lia) Hs Hc1) as (g2 & Hg & Hf).
      exists g2. split; [|exact Hf].
      rewrite (bind_step _ _ _ _ _ Hg). reflexivity.
  - exists g1. split; [reflexivity|apply frame_refl].
  - (* TStruct *)
    rewrite supported_struct in Hs. apply andb_true_iff in Hs. destruct Hs as [_ Hs].
    assert (Hfields : forall fs' r g1',
               (forall f, In f fs' -> In f fields) ->
               supported_fields fs' = true ->
               coherent_below (size (TStruct ms fields)) g1' ->
               exists g2,
                 (fix fields (xs : list (StructField type)) (r : list machine)
                    : M registry (option (list machine)) :=
                    match xs with
                    | [] => ret (Some r)
                    | f :: xs' =>
                        if PkgPath f && negb (Anonymous f) then ret None
                        else bind (get_with (register (Type_ f)) (Type_ f))
                               (fun m => fields xs' (r ++ [m]))
                    end) fs' r g1'
                 = (Ok (Some (r ++ map (fun f => machine_of (Type_ f)) fs')), g2)
                 /\ frame g1' g2).
    { induction fs' as [|f fs' IHf]; intros r g1' Hin Hsf Hg1'.
      - exists g1'. cbn. rewrite app_nil_r. split; [reflexivity|apply frame_refl].
      - cbn [supported_fields forallb] in Hsf. apply andb_true_iff in Hsf.
        destruct Hsf as [Hf0 Hsf]. apply andb_true_iff in Hf0. destruct Hf0 as [Hexp Hsf0].
        apply negb_true_iff in Hexp. rewrite Hexp. cbn [andb].
        destruct (Hsub (Type_ f) g1'
                    (field_size_lt ms fields f (Hin f (or_introl eq_refl))) Hsf0 Hg1')
          as (g2 & Hg & Hf).
        rewrite (bind_step _ _ _ _ _ Hg).
        destruct (IHf (r ++ [machine_of (Type_ f)]) g2
                    (fun f' H => Hin f' (or_intror H)) Hsf
                    (coherent_below_frame _ _ _ Hg1' Hf)) as (g3 & Hg3 & Hf3).
        exists g3. rewrite Hg3. cbn [map]. rewrite <- app_assoc. cbn [app].
        split; [reflexivity|apply (frame_trans _ _ _ Hf Hf3)]. }
    destruct (Hfields fields [] g1 (fun f H => H) Hs Hc1) as (g2 & Hg & Hf).
    exists g2. split; [|exact Hf].
    rewrite (bind_step _ _ _ _ _ Hg). cbn [app].
    rewrite finish_structural by discriminate. reflexivity.
Qed.

(** On a coherent registry, [get] of a supported type returns [machine_of]
    and leaves the registry coherent. *)
Lemma get_machine_of (t : type) (g : registry) :
  supported t = true -> coherent g ->
  exists g', get t g = (Ok (machine_of t), g') /\ coherent g'.
Proof.
  intros Hs Hc.
  destruct (get_machine_of_bounded (S (size t)) t ltac:(lia) Hs g) as (g' & Hg & Hf).
  - intros t' m Hl Hs' _. apply (Hc t' m Hl Hs').
  - exists g'. split; [exact Hg|apply (coherent_frame g g' Hc Hf)].
Qed.

Lemma coherent_nil : coherent [].
Proof. intros t m H. discriminate. Qed.

(** ** Computations that write, and read back, given bytes *)

Lemma last_app_nonempty {A : Type} (l1 l2 : list A) (d : A) :
  l2 <> [] -> List.last (l1 ++ l2) d = List.last l2 d.
Proof.
  intros H. induction l1 as [|x l1 IH]; [reflexivity|].
  cbn [app]. rewrite last_cons_nonempty; [exact IH|].
  destruct l1; cbn; [exact H|discriminate].
Qed.

Lemma last_after_app (b1 b2 : list Z) (l : option Z) :
  last_after (b1 ++ b2) l = last_after b2 (last_after b1 l).
Proof.
  destruct b2 as [|x b2]; [rewrite app_nil_r; reflexivity|].
  unfold last_after at 2. destruct b1 as [|y b1]; [reflexivity|].
  unfold last_after. cbn [app]. f_equal.
  change (y :: b1 ++ x :: b2) with ((y :: b1) ++ x :: b2).
  rewrite last_app_nonempty by discriminate. reflexivity.
Qed.

Lemma writes_ret : writes (ret tt) [].
Proof. intros g w we. unfold ret. rewrite app_nil_r. reflexivity. Qed.

Lemma writes_bind (c1 c2 : M estate unit) (b1 b2 : list Z) :
  writes c1 b1 -> writes c2 b2 -> writes (bind c1 (fun _ => c2)) (b1 ++ b2).
Proof.
  intros H1 H2 g w we. unfold bind. rewrite H1, H2, app_assoc. reflexivity.
Qed.

Lemma writes_e_write (b : list Z) : writes (e_write b) b.
Proof. intros g w we. reflexivity. Qed.

Lemma uvarint_spec (u : Z) : is_uint64 u -> binary.PutUvarint u = Some (uvarint u).
Proof.
  intros Hu. unfold uvarint.
  destruct (PutUvarint_head u Hu) as (b & bs & -> & _). reflexivity.
Qed.

Lemma uvarint_head (u : Z) :
  is_uint64 u ->
  exists b bs, uvarint u = b :: bs /\ (u = 0 -> b = 0 /\ bs = []) /\ (u <> 0 -> b <> 0).
Proof.
  intros Hu. unfold uvarint.
  destruct (PutUvarint_head u Hu) as (b & bs & -> & H). exists b, bs. split; [reflexivity|exact H].
Qed.

Lemma writes_encodeUint (u : Z) : is_uint64 u -> writes (encodeUint u) (uvarint u).
Proof.
  intros Hu. unfold encodeUint. rewrite (uvarint_spec u Hu). apply writes_e_write.
Qed.

Lemma writes_encodeInt (i : Z) : is_int64 i -> writes (encodeInt i) (uvarint (binary.zigzag i)).
Proof.
  intros Hi. unfold encodeInt, binary.PutVarint.
  rewrite (uvarint_spec _ (zigzag_range i Hi)). apply writes_e_write.
Qed.

Lemma writes_for_loop (body : nat -> unit -> M estate unit) (chunks : nat -> list Z) (n : nat) :
  forall i,
    (forall j, (i <= j < i + n)%nat -> writes (body j tt) (chunks j)) ->
    writes (for_loop n i body tt) (flat_map chunks (seq i n)).
Proof.
  induction n as [|n IH]; intros i Hb; cbn [for_loop seq flat_map].
  - apply writes_ret.
  - intros g w we. unfold bind. rewrite (Hb i) by lia.
    rewrite (IH (S i)) by (intros j Hj; apply Hb; lia).
    rewrite app_assoc. reflexivity.
Qed.

Lemma writes_range {A : Type} (body : nat -> A -> M estate unit) (chunks : nat -> list Z)
      (d : A) (xs : list A) :
  forall i,
    (forall j, (j < length xs)%nat -> writes (body (i + j)%nat (nth j xs d)) (chunks (i + j)%nat)) ->
    writes (range xs i body) (flat_map chunks (seq i (length xs))).
Proof.
  induction xs as [|x xs IH]; intros i Hb; cbn [range length seq flat_map].
  - apply writes_ret.
  - apply writes_bind.
    + specialize (Hb O ltac:(cbn; lia)). rewrite Nat.add_0_r in Hb. exact Hb.
    + apply IH. intros j Hj. specialize (Hb (S j) ltac:(cbn; lia)).
      rewrite Nat.add_succ_r in Hb. exact Hb.
Qed.

Lemma reads_ret {A : Type} (a : A) : reads (ret a) [] a.
Proof. intros g rest e l. reflexivity. Qed.

Lemma reads_bind {A B : Type} (c : M dstate A) (k : A -> M dstate B)
      (b1 b2 : list Z) (a : A) (b : B) :
  reads c b1 a -> reads (k a) b2 b -> reads (bind c k) (b1 ++ b2) b.
Proof.
  intros H1 H2 g rest e l. unfold bind. rewrite <- app_assoc, H1, H2, last_after_app.
  reflexivity.
Qed.

(** A [bind] whose continuation consumes nothing more. *)
Lemma reads_bind_ret {A B : Type} (c : M dstate A) (k : A -> M dstate B)
      (bs : list Z) (a : A) (b : B) :
  reads c bs a -> reads (k a) [] b -> reads (bind c k) bs b.
Proof. intros H1 H2. rewrite <- (app_nil_r bs). apply (reads_bind _ _ _ _ a); assumption. Qed.

Lemma reads_decodeUint (u : Z) : is_uint64 u -> reads decodeUint (uvarint u) u.
Proof.
  intros Hu g rest e l. unfold decodeUint, d_call. cbn [d_r d_types].
  rewrite (ReadUvarint_PutUvarint u (uvarint u) rest e l Hu (uvarint_spec u Hu)).
  destruct (uvarint_head u Hu) as (b & bs & -> & _). reflexivity.
Qed.

Lemma reads_decodeInt (i : Z) : is_int64 i -> reads decodeInt (uvarint (binary.zigzag i)) i.
Proof.
  intros Hi g rest e l. unfold decodeInt, d_call, ReadVarint. cbn [d_r d_types].
  pose proof (zigzag_range i Hi) as Hu.
  rewrite (ReadUvarint_PutUvarint _ (uvarint (binary.zigzag i)) rest e l Hu (uvarint_spec _ Hu)).
  rewrite (unzigzag_zigzag i Hi).
  destruct (uvarint_head _ Hu) as (b & bs & -> & _). reflexivity.
Qed.

Lemma reads_d_readByte (b : Z) : reads d_readByte [b] b.
Proof. intros g rest e l. reflexivity. Qed.

Lemma fits_lt (n : nat) : fits n = true -> 0 <= Z.of_nat n < two63.
Proof. unfold fits. intros H. apply Z.ltb_lt in H. lia. Qed.

Lemma fits_uint64 (n : nat) : fits n = true -> is_uint64 (Z.of_nat n).
Proof. intros H. apply fits_lt in H. unfold is_uint64. rewrite two64_eq, two63_eq in *. lia. Qed.

Lemma nth_error_last (s rest : list Z) :
  s <> [] -> nth_error (s ++ rest) (length s - 1) = Some (List.last s 0).
Proof.
  intros Hs. rewrite nth_error_app1 by (destruct s; [contradiction|cbn; lia]).
  induction s as [|x s IH]; [contradiction|].
  destruct s as [|y s]; [reflexivity|].
  rewrite last_cons_nonempty by discriminate. rewrite <- IH by discriminate.
  cbn. rewrite Nat.sub_0_r. reflexivity.
Qed.

Lemma io_ReadFull_app (s rest : list Z) (e : error) (l : option Z) :
  s <> [] ->
  io_ReadFull (mkSource (s ++ rest) e l None) (length s)
  = (mkSource rest e (Some (List.last s 0)) None, inl s).
Proof.
  intros Hs. unfold io_ReadFull. cbn [data rerr r_after tick].
  replace (length s =? 0)%nat with false
    by (symmetry; apply Nat.eqb_neq; destruct s; [contradiction|discriminate]).
  replace (length s <=? length (s ++ rest))%nat with true
    by (symmetry; apply Nat.leb_le; rewrite length_app; lia).
  rewrite (nth_error_last s rest Hs).
  rewrite firstn_app, firstn_all, Nat.sub_diag, app_nil_r.
  rewrite skipn_app, skipn_all, Nat.sub_diag. reflexivity.
Qed.

Lemma reads_d_read (s : list Z) :
  Z.of_nat (length s) <= maxAlloc -> reads (d_read (Z.of_nat (length s))) s s.
Proof.
  intros Hf g rest e l. unfold d_read.
  replace (maxAlloc <? Z.of_nat (length s)) with false by (symmetry; apply Z.ltb_ge; lia).
  destruct s as [|x s]; [reflexivity|].
  replace (Z.of_nat (length (x :: s)) =? 0) with false
    by (symmetry; apply Z.eqb_neq; cbn [length]; lia).
  unfold d_call. cbn [d_r d_types d_nil]. rewrite Nat2Z.id.
  rewrite io_ReadFull_app by discriminate. reflexivity.
Qed.

(** [decodeZero] on a leading 0, and on any other leading byte, which it
    pushes back. *)
Lemma reads_decodeZero_zero : reads (decodeZero true) [0] true.
Proof. intros g rest e l. reflexivity. Qed.

Lemma decodeZero_pushes_back (b : Z) (bs : list Z) (g : registry) (e : error) (l : option Z) :
  b <> 0 ->
  decodeZero true (mkD g (mkSource (b :: bs) e l None))
  = (Ok false, mkD g (mkSource (b :: bs) e None None)).
Proof.
  intros Hb. unfold decodeZero, bind, d_readByte, d_unreadByte, d_call. cbn.
  destruct (b =? 0) eqn:E; [apply Z.eqb_eq in E; contradiction|]. reflexivity.
Qed.

Lemma reads_after_decodeZero {A : Type} (k : bool -> M dstate A) (b : Z) (bs : list Z) (a : A) :
  b <> 0 -> reads (k false) (b :: bs) a -> reads (bind (decodeZero true) k) (b :: bs) a.
Proof.
  intros Hb Hk g rest e l. unfold bind. cbn [app].
  rewrite (decodeZero_pushes_back b (bs ++ rest) g e l Hb).
  exact (Hk g rest e None).
Qed.

Lemma reads_for_loop {A : Type} (body : nat -> A -> M dstate A) (chunks : nat -> list Z)
      (acc : nat -> A) (n : nat) :
  forall i,
    (forall j, (i <= j < i + n)%nat -> reads (body j (acc j)) (chunks j) (acc (S j))) ->
    reads (for_loop n i body (acc i)) (flat_map chunks (seq i n)) (acc (i + n)%nat).
Proof.
  induction n as [|n IH]; intros i Hb; cbn [for_loop seq flat_map].
  - rewrite Nat.add_0_r. apply reads_ret.
  - apply (reads_bind _ _ _ _ (acc (S i))).
    + apply Hb. lia.
    + replace (i + S n)%nat with (S i + n)%nat by lia.
      apply IH. intros j Hj. apply Hb. lia.
Qed.

(** ** Encoding writes the wire format *)

Lemma wire_struct (ms : methods) (fs : list (StructField type)) (xs : list value) :
  wire (TStruct ms fs) (VStruct xs)
  = if Comparable (TStruct ms fs) && is_zero (VStruct xs) then [0]
    else count (length fs) ++ wire_fields fs xs.
Proof. reflexivity. Qed.

Lemma norm_struct (ms : methods) (fs : list (StructField type)) (xs : list value) :
  norm (TStruct ms fs) (VStruct xs)
  = if Comparable (TStruct ms fs) && is_zero (VStruct xs) then Zero (TStruct ms fs)
    else VStruct (norm_fields fs xs).
Proof. reflexivity. Qed.

Lemma allocatable_struct (ms : methods) (fs : list (StructField type)) (xs : list value) :
  allocatable (TStruct ms fs) (VStruct xs) = allocatable_fields fs xs.
Proof. reflexivity. Qed.

Lemma allocatable_fields_nth (fs : list (StructField type)) :
  forall xs j df dx,
    allocatable_fields fs xs = true -> (j < length fs)%nat -> (j < length xs)%nat ->
    allocatable (Type_ (nth j fs df)) (nth j xs dx) = true.
Proof.
  induction fs as [|f fs IH]; intros [|x xs] j df dx H Hj Hx;
    try (cbn in Hj; lia); try (cbn in Hx; lia).
  cbn in H. apply andb_true_iff in H. destruct H as [H0 H].
  destruct j; [exact H0|]. cbn. apply IH; [exact H|cbn in Hj; lia|cbn in Hx; lia].
Qed.

Lemma newarray_bytes (n : nat) :
  newarray_ok (TUint KUint8) (Z.of_nat n) = true -> Z.of_nat n <= maxAlloc.
Proof.
  unfold newarray_ok. intros H. apply orb_true_iff in H. destruct H as [H|H].
  - apply Z.eqb_eq in H. rewrite H. unfold maxAlloc. lia.
  - apply Z.leb_le in H. cbn [Sizeof ubits] in H. change (8 / 8) with 1 in H. lia.
Qed.

Lemma faithful_struct (ms : methods) (fs : list (StructField type)) (xs : list value) :
  faithful (TStruct ms fs) (VStruct xs) = faithful_fields fs xs.
Proof. reflexivity. Qed.

Lemma faithful_fields_length (fs : list (StructField type)) :
  forall xs, faithful_fields fs xs = true -> length xs = length fs.
Proof.
  induction fs as [|f fs IH]; intros [|x xs] H; try discriminate; [reflexivity|].
  cbn in H. apply andb_true_iff in H. cbn. f_equal. apply IH. apply H.
Qed.

Lemma faithful_fields_nth (fs : list (StructField type)) :
  forall xs j df dx,
    faithful_fields fs xs = true -> (j < length fs)%nat ->
    faithful (Type_ (nth j fs df)) (nth j xs dx) = true.
Proof.
  induction fs as [|f fs IH]; intros [|x xs] j df dx H Hj; try discriminate; [cbn in Hj; lia|].
  cbn in H. apply andb_true_iff in H. destruct H as [H0 H].
  destruct j; [exact H0|]. cbn. apply IH; [exact H|cbn in Hj; lia].
Qed.

Lemma flat_map_ext_in {A B : Type} (f g : A -> list B) (l : list A) :
  (forall a, In a l -> f a = g a) -> flat_map f l = flat_map g l.
Proof.
  induction l as [|x l IH]; intros H; [reflexivity|].
  cbn [flat_map]. rewrite (H x (or_introl eq_refl)), IH; [reflexivity|].
  intros a Ha. apply H. right. exact Ha.
Qed.

Lemma flat_map_seq_nth {A : Type} (f : A -> list Z) (d : A) (xs : list A) :
  forall i, flat_map (fun j => f (nth (j - i) xs d)) (seq i (length xs)) = flat_map f xs.
Proof.
  induction xs as [|x xs IH]; intros i; [reflexivity|].
  cbn [length seq flat_map]. rewrite Nat.sub_diag. cbn [nth]. f_equal.
  rewrite <- (IH (S i)). apply flat_map_ext_in. intros j Hj. apply in_seq in Hj.
  replace (j - i)%nat with (S (j - S i)) by lia. reflexivity.
Qed.

Lemma wire_fields_seq (fs : list (StructField type)) (df : StructField type) (dx : value) :
  forall xs i,
    length xs = length fs ->
    flat_map (fun j => wire (Type_ (nth (j - i) fs df)) (nth (j - i) xs dx)) (seq i (length fs))
    = wire_fields fs xs.
Proof.
  induction fs as [|f fs IH]; intros [|x xs] i Hl; try discriminate; [reflexivity|].
  cbn [length seq flat_map wire_fields]. rewrite Nat.sub_diag. cbn [nth]. f_equal.
  rewrite <- (IH xs (S i)) by (cbn in Hl; lia).
  apply flat_map_ext_in. intros j Hj. apply in_seq in Hj.
  replace (j - i)%nat with (S (j - S i)) by lia. reflexivity.
Qed.

Lemma int_kind_range (k : ikind) (i : Z) :
  - 2 ^ (ibits k - 1) <= i < 2 ^ (ibits k - 1) -> is_int64 i.
Proof. unfold is_int64. rewrite two63_eq. destruct k; cbn; lia. Qed.

Lemma uint_kind_range (k : ukind) (u : Z) : 0 <= u < 2 ^ ubits k -> is_uint64 u.
Proof. unfold is_uint64. rewrite two64_eq. destruct k; cbn; lia. Qed.

Lemma faithful_int (k k' : ikind) (i : Z) :
  faithful (TInt k) (VInt k' i) = true ->
  k' = k /\ - 2 ^ (ibits k - 1) <= i < 2 ^ (ibits k - 1).
Proof.
  cbn [faithful]. rewrite !andb_true_iff, ikind_eqb_eq, Z.leb_le, Z.ltb_lt.
  intros [[-> H1] H2]. auto.
Qed.

Lemma faithful_uint (k k' : ukind) (u : Z) :
  faithful (TUint k) (VUint k' u) = true -> k' = k /\ 0 <= u < 2 ^ ubits k.
Proof.
  cbn [faithful]. rewrite !andb_true_iff, ukind_eqb_eq, Z.leb_le, Z.ltb_lt.
  intros [[-> H1] H2]. auto.
Qed.

Lemma count_to_uint64 (n : nat) : fits n = true -> to_uint64 (Z.of_nat n) = Z.of_nat n.
Proof. intros H. apply to_uint64_small. apply fits_uint64. exact H. Qed.

Lemma writes_count (n : nat) :
  fits n = true -> writes (encodeUint (to_uint64 (Z.of_nat n))) (count n).
Proof.
  intros H. rewrite (count_to_uint64 n H). apply writes_encodeUint, fits_uint64, H.
Qed.

Lemma bind_ret_l {St A B : Type} (a : A) (k : A -> M St B) : bind (ret a) k = k a.
Proof. reflexivity. Qed.

(** A byte slice is written raw. *)
Lemma Bytes_faithful (xs : list value) :
  forallb (faithful (TUint KUint8)) xs = true -> Bytes xs = Some (flat_map raw_byte xs).
Proof.
  induction xs as [|x xs IH]; intros H; [reflexivity|].
  cbn [forallb] in H. apply andb_true_iff in H. destruct H as [Hx H].
  destruct x; try discriminate. cbn [Bytes flat_map raw_byte]. rewrite (IH H). reflexivity.
Qed.

Lemma is_bytes_elem (e : type) : is_bytes e = true -> e = TUint KUint8.
Proof. unfold is_bytes. intros H. apply type_eqb_eq in H. inversion H. reflexivity. Qed.

Section EncodeWire.

Variable U : usercode.

(** The zero-value wrapper writes the byte 0 for a zero value and otherwise
    what the wrapped machine writes. *)
Lemma writes_wrap (t : type) (m : machine) (a : bool) (v : value) (bs : list Z) (k : nat) :
  (forall f, (k <= f)%nat -> writes (encode U f m a v) bs) ->
  forall f, (S k <= f)%nat ->
    writes (encode U f (wrap t m) a v) (if Comparable t && is_zero v then [0] else bs).
Proof.
  intros H f Hf. unfold wrap. destruct (Comparable t); cbn [andb].
  - destruct f as [|f]; [lia|]. cbn [encode].
    destruct (is_zero v); [apply writes_e_write|apply H; lia].
  - apply H. lia.
Qed.

Lemma writes_elements (m : machine) (e : type) (a : bool) (v : value) (xs : list value) (f : nat) :
  (forall j, (j < length xs)%nat ->
             exists a', @Index estate a v j = ret (nth j xs VNilPtr, a')) ->
  (forall x a', In x xs -> writes (encode U f m a' x) (wire e x)) ->
  writes (for_loop (length xs) 0
            (fun i _ => bind (Index a v i) (fun xa => encode U f m (snd xa) (fst xa))) tt)
         (flat_map (wire e) xs).
Proof.
  intros Hidx Hx.
  rewrite <- (flat_map_seq_nth (wire e) VNilPtr xs 0).
  apply writes_for_loop. intros j Hj.
  destruct (Hidx j ltac:(lia)) as (a' & Hi).
  rewrite Hi, bind_ret_l. cbn [fst snd]. rewrite Nat.sub_0_r.
  apply Hx. apply nth_In. lia.
Qed.

End EncodeWire.

Lemma flat_map_seq_nth0 {A : Type} (f : A -> list Z) (d : A) (xs : list A) :
  flat_map (fun j => f (nth j xs d)) (seq 0 (length xs)) = flat_map f xs.
Proof.
  rewrite <- (flat_map_seq_nth f d xs 0). apply flat_map_ext. intros j.
  rewrite Nat.sub_0_r. reflexivity.
Qed.

Lemma wire_fields_seq0 (fs : list (StructField type)) (df : StructField type) (dx : value)
      (xs : list value) :
  length xs = length fs ->
  flat_map (fun j => wire (Type_ (nth j fs df)) (nth j xs dx)) (seq 0 (length fs))
  = wire_fields fs xs.
Proof.
  intros Hl. rewrite <- (wire_fields_seq fs df dx xs 0 Hl). apply flat_map_ext. intros j.
  rewrite Nat.sub_0_r. reflexivity.
Qed.

Lemma nth_error_nth_default {A : Type} (l : list A) (j : nat) (d : A) :
  (j < length l)%nat -> nth_error l j = Some (nth j l d).
Proof.
  revert j. induction l as [|x l IH]; intros j Hj; [cbn in Hj; lia|].
  destruct j; [reflexivity|]. cbn. apply IH. cbn in Hj. lia.
Qed.

Lemma Index_array {St : Type} (a : bool) (xs : list value) (j : nat) :
  (j < length xs)%nat -> @Index St a (VArray xs) j = ret (nth j xs VNilPtr, a).
Proof. intros Hj. unfold Index. rewrite (nth_error_nth_default xs j VNilPtr Hj). reflexivity. Qed.

Lemma Index_slice {St : Type} (a : bool) (c : nat) (xs : list value) (j : nat) :
  (j < length xs)%nat -> @Index St a (VSlice c xs) j = ret (nth j xs VNilPtr, true).
Proof. intros Hj. unfold Index. rewrite (nth_error_nth_default xs j VNilPtr Hj). reflexivity. Qed.

Lemma Field_struct {St : Type} (xs : list value) (j : nat) :
  (j < length xs)%nat -> @Field St (VStruct xs) j = ret (nth j xs VNilPtr).
Proof. intros Hj. unfold Field. rewrite (nth_error_nth_default xs j VNilPtr Hj). reflexivity. Qed.

Lemma supported_fields_nth (fs : list (StructField type)) (j : nat) (df : StructField type) :
  supported_fields fs = true -> (j < length fs)%nat -> supported (Type_ (nth j fs df)) = true.
Proof.
  intros Hs Hj. unfold supported_fields in Hs. rewrite forallb_forall in Hs.
  specialize (Hs (nth j fs df) (nth_In fs df Hj)).
  apply andb_true_iff in Hs. apply Hs.
Qed.

Lemma nth_field_machine (fs : list (StructField type)) (j : nat) :
  (j < length fs)%nat ->
  nth j (map (fun f => machine_of (Type_ f)) fs) nil_machine
  = machine_of (Type_ (nth j fs no_field)).
Proof.
  intros Hj.
  rewrite (nth_indep _ nil_machine (machine_of (Type_ no_field))) by (rewrite length_map; exact Hj).
  apply (map_nth (fun f => machine_of (Type_ f))).
Qed.

(** [encode] with the machine of a supported type writes [wire]. *)
Lemma encode_wire (U : usercode) (n : nat) :
  forall t, (size t < n)%nat -> supported t = true ->
  forall v, faithful t v = true ->
  forall fuel a, (2 * size t <= fuel)%nat ->
    writes (encode U fuel (machine_of t) a v) (wire t v).
Proof.
  induction n as [|n IH]; intros t Hn Hs v Hv fuel a Hf; [lia|].
  destruct t; try discriminate Hs; destruct v; try discriminate Hv;
    try rewrite size_struct in Hf, Hn; cbn [size] in Hf, Hn.
  - (* bool *)
    destruct fuel; [lia|]. cbn. destruct b; apply writes_e_write.
  - (* int *)
    destruct fuel; [lia|]. apply faithful_int in Hv. destruct Hv as [_ Hv].
    cbn [machine_of encode wire]. apply writes_encodeInt, (int_kind_range k), Hv.
  - (* uint *)
    destruct fuel; [lia|]. apply faithful_uint in Hv. destruct Hv as [_ Hv].
    cbn [machine_of encode wire]. apply writes_encodeUint, (uint_kind_range k), Hv.
  - (* float64 *)
    destruct fuel; [lia|]. cbn [faithful] in Hv.
    rewrite !andb_true_iff, Z.leb_le, Z.ltb_lt in Hv.
    cbn [machine_of encode wire]. apply writes_encodeUint. unfold is_uint64. lia.
  - (* complex128 *)
    destruct fuel; [lia|]. cbn [faithful] in Hv.
    rewrite !andb_true_iff, !Z.leb_le, !Z.ltb_lt in Hv.
    cbn [machine_of encode wire].
    apply writes_bind; apply writes_encodeUint; unfold is_uint64; lia.
  - (* array *)
    cbn [supported] in Hs. apply andb_true_iff in Hs. destruct Hs as [Hfit Hs].
    cbn [faithful] in Hv. apply andb_true_iff in Hv. destruct Hv as [Hlen Hv].
    apply Nat.eqb_eq in Hlen. rewrite forallb_forall in Hv.
    cbn [machine_of wire].
    apply (writes_wrap U _ _ _ _ _ (S (2 * size t))); [|lia].
    intros f Hf'. destruct f as [|f]; [lia|]. cbn [encode].
    apply writes_bind; [apply writes_count, Hfit|].
    subst len. apply writes_elements.
    + intros j Hj. exists a. apply Index_array, Hj.
    + intros x a' Hx. apply (IH t); [lia|exact Hs|apply Hv, Hx|lia].
  - (* map *)
    cbn [supported] in Hs. rewrite !andb_true_iff in Hs. destruct Hs as [[_ Hs1] Hs2].
    cbn [faithful] in Hv. rewrite !andb_true_iff in Hv. destruct Hv as [[Hfit _] Hv].
    rewrite forallb_forall in Hv.
    destruct fuel as [|f]; [lia|]. cbn [machine_of encode wire].
    apply writes_bind; [apply writes_count, Hfit|].
    rewrite <- (flat_map_seq_nth0 (fun kx => wire t1 (fst kx) ++ wire t2 (snd kx))
                  (VNilPtr, VNilPtr) entries).
    apply (writes_range _ _ (VNilPtr, VNilPtr)). intros j Hj. cbn [Nat.add].
    specialize (Hv _ (nth_In entries (VNilPtr, VNilPtr) Hj)).
    apply andb_true_iff in Hv. destruct Hv as [Hk Hx].
    apply writes_bind; [apply (IH t1)|apply (IH t2)]; try assumption; lia.
  - (* nil pointer *)
    destruct fuel; [lia|]. cbn. apply writes_e_write.
  - (* pointer *)
    cbn [supported] in Hs. cbn [faithful] in Hv. apply andb_true_iff in Hv.
    destruct fuel as [|f]; [lia|]. cbn [machine_of encode wire].
    apply (IH t); [lia|exact Hs|apply Hv|lia].
  - (* slice *)
    cbn [supported] in Hs. cbn [faithful] in Hv. apply andb_true_iff in Hv.
    destruct Hv as [Hfit Hv].
    destruct fuel as [|f]; [lia|]. cbn [machine_of wire].
    destruct (is_bytes t) eqn:Eb.
    + apply is_bytes_elem in Eb. subst t. cbn [encode].
      apply writes_bind; [apply writes_count, Hfit|].
      rewrite (Bytes_faithful elems Hv). apply writes_e_write.
    + cbn [encode]. rewrite forallb_forall in Hv.
      apply writes_bind; [apply writes_count, Hfit|].
      apply writes_elements.
      * intros j Hj. exists true. apply Index_slice, Hj.
      * intros x a' Hx. apply (IH t); [lia|exact Hs|apply Hv, Hx|lia].
  - (* string *)
    destruct fuel; [lia|]. cbn [faithful] in Hv. apply andb_true_iff in Hv.
    cbn [machine_of encode wire]. unfold e_writeString.
    apply writes_bind; [apply writes_count, Hv|apply writes_e_write].
  - (* record *)
    rewrite supported_struct in Hs. apply andb_true_iff in Hs. destruct Hs as [Hfit Hs].
    rewrite faithful_struct in Hv. pose proof (faithful_fields_length _ _ Hv) as Hlen.
    rewrite wire_struct. cbn [machine_of].
    apply (writes_wrap U _ _ _ _ _ (S (2 * fields_size fields))); [|lia].
    intros f Hf'. destruct f as [|f]; [lia|]. cbn [encode]. rewrite length_map.
    apply writes_bind; [apply writes_count, Hfit|].
    rewrite <- (wire_fields_seq0 fields no_field VNilPtr fields0 Hlen).
    rewrite <- (length_map (fun f => machine_of (Type_ f)) fields).
    apply (writes_range _ _ nil_machine). rewrite length_map. intros j Hj. cbn [Nat.add].
    rewrite (Field_struct fields0 j ltac:(lia)), bind_ret_l, (nth_field_machine fields j Hj).
    pose proof (field_size_lt ms fields _ (nth_In fields no_field Hj)) as Hsz.
    rewrite size_struct in Hsz.
    apply IH.
    + lia.
    + apply supported_fields_nth; assumption.
    + apply faithful_fields_nth; assumption.
    + lia.
Qed.

(** ** Decoding reads the wire format *)

Lemma filled_0 (ys zs : list value) : filled ys zs 0 = zs.
Proof. reflexivity. Qed.

Lemma filled_all (ys zs : list value) :
  length ys = length zs -> filled ys zs (length ys) = ys.
Proof.
  intros H. unfold filled. rewrite firstn_all, H, skipn_all. apply app_nil_r.
Qed.

Lemma filled_length (ys zs : list value) (j : nat) :
  length ys = length zs -> (j <= length ys)%nat -> length (filled ys zs j) = length ys.
Proof.
  intros H Hj. unfold filled. rewrite length_app, length_firstn, length_skipn. lia.
Qed.

Lemma filled_nth_error (ys zs : list value) (j : nat) :
  length ys = length zs -> (j < length ys)%nat ->
  nth_error (filled ys zs j) j = nth_error zs j.
Proof.
  intros H Hj. unfold filled.
  rewrite nth_error_app2 by (rewrite length_firstn; lia).
  rewrite length_firstn, Nat.min_l by lia. rewrite Nat.sub_diag.
  rewrite <- (firstn_skipn j zs) at 2.
  rewrite nth_error_app2 by (rewrite length_firstn; lia).
  rewrite length_firstn, Nat.min_l by lia. rewrite Nat.sub_diag. reflexivity.
Qed.

Lemma set_nth_app (pre suf : list value) (j : nat) (x : value) :
  length pre = j -> set_nth (pre ++ suf) j x = pre ++ set_nth suf 0 x.
Proof.
  intros <-. induction pre as [|y pre IH]; [reflexivity|]. cbn. rewrite IH. reflexivity.
Qed.

Lemma firstn_succ_nth {A : Type} (ys : list A) (j : nat) (d : A) :
  (j < length ys)%nat -> firstn (S j) ys = firstn j ys ++ [nth j ys d].
Proof.
  revert j. induction ys as [|y ys IH]; intros j Hj; [cbn in Hj; lia|].
  destruct j; [reflexivity|].
  change (firstn (S (S j)) (y :: ys)) with (y :: firstn (S j) ys).
  rewrite (IH j) by (cbn in Hj; lia). reflexivity.
Qed.

Lemma skipn_succ_cons (zs : list value) (j : nat) :
  (j < length zs)%nat -> exists z, skipn j zs = z :: skipn (S j) zs.
Proof.
  revert j. induction zs as [|z zs IH]; intros j Hj; [cbn in Hj; lia|].
  destruct j; [exists z; reflexivity|]. cbn [skipn]. apply IH. cbn in Hj. lia.
Qed.

Lemma filled_step (ys zs : list value) (j : nat) (d : value) :
  length ys = length zs -> (j < length ys)%nat ->
  set_nth (filled ys zs j) j (nth j ys d) = filled ys zs (S j).
Proof.
  intros H Hj. unfold filled.
  rewrite (firstn_succ_nth ys j d Hj), <- app_assoc.
  destruct (skipn_succ_cons zs j ltac:(lia)) as (z & Hz). rewrite Hz.
  rewrite set_nth_app by (rewrite length_firstn; lia). reflexivity.
Qed.

Lemma Zero_struct (ms : methods) (fs : list (StructField type)) :
  Zero (TStruct ms fs) = VStruct (zero_fields fs).
Proof. reflexivity. Qed.

Lemma norm_fields_length (fs : list (StructField type)) :
  forall xs, length xs = length fs -> length (norm_fields fs xs) = length fs.
Proof.
  induction fs as [|f fs IH]; intros [|x xs] H; try discriminate; [reflexivity|].
  cbn. f_equal. apply IH. cbn in H. lia.
Qed.

Lemma norm_fields_nth (fs : list (StructField type)) :
  forall xs j, length xs = length fs -> (j < length fs)%nat ->
    nth j (norm_fields fs xs) VNilPtr = norm (Type_ (nth j fs no_field)) (nth j xs VNilPtr).
Proof.
  induction fs as [|f fs IH]; intros [|x xs] j H Hj; try discriminate; [cbn in Hj; lia|].
  destruct j; [reflexivity|]. cbn. apply IH; cbn in H, Hj; lia.
Qed.

Lemma wrap_int_id (k : ikind) (i : Z) :
  - 2 ^ (ibits k - 1) <= i < 2 ^ (ibits k - 1) -> wrap_int k i = i.
Proof.
  intros H. unfold wrap_int. destruct k; cbn in *; rewrite Z.mod_small; lia.
Qed.

Lemma wrap_uint_id (k : ukind) (u : Z) : 0 <= u < 2 ^ ubits k -> wrap_uint k u = u.
Proof. intros H. unfold wrap_uint. apply Z.mod_small. exact H. Qed.

Lemma to_int_count (n : nat) : fits n = true -> to_int (Z.of_nat n) = Z.of_nat n.
Proof.
  intros H. apply fits_lt in H. unfold to_int.
  rewrite Z.mod_small by (rewrite two64_eq; rewrite two63_eq in H; lia).
  replace (Z.of_nat n <? two63) with true by (symmetry; apply Z.ltb_lt; lia). reflexivity.
Qed.

Lemma count_head (n : nat) :
  fits n = true ->
  exists b bs, count n = b :: bs /\ (n <> O -> b <> 0).
Proof.
  intros H. destruct (uvarint_head (Z.of_nat n) (fits_uint64 n H)) as (b & bs & E & _ & Hnz).
  exists b, bs. split; [exact E|]. intros Hn. apply Hnz. lia.
Qed.

(** The bytes of a faithful value are never empty. *)
Lemma wire_nonempty (t : type) :
  forall v, supported t = true -> faithful t v = true -> wire t v <> [].
Proof.
  induction t; intros v Hs Hv; try discriminate Hs; destruct v; try discriminate Hv.
  - cbn. discriminate.
  - apply faithful_int in Hv. destruct Hv as [_ Hv]. cbn [wire].
    destruct (uvarint_head _ (zigzag_range i (int_kind_range k i Hv))) as (b & bs & -> & _).
    discriminate.
  - apply faithful_uint in Hv. destruct Hv as [_ Hv]. cbn [wire].
    destruct (uvarint_head _ (uint_kind_range k u Hv)) as (b & bs & -> & _). discriminate.
  - cbn [faithful] in Hv. rewrite !andb_true_iff, Z.leb_le, Z.ltb_lt in Hv. cbn [wire].
    destruct (uvarint_head bits ltac:(unfold is_uint64; lia)) as (b & bs & -> & _). discriminate.
  - cbn [faithful] in Hv. rewrite !andb_true_iff, !Z.leb_le, !Z.ltb_lt in Hv. cbn [wire].
    destruct (uvarint_head re ltac:(unfold is_uint64; lia)) as (b & bs & -> & _). discriminate.
  - cbn [supported] in Hs. apply andb_true_iff in Hs. cbn [wire].
    destruct (Comparable (TArray len t) && is_zero (VArray elems)); [discriminate|].
    destruct (count_head len (proj1 Hs)) as (b & bs & -> & _). discriminate.
  - cbn [faithful] in Hv. rewrite !andb_true_iff in Hv. cbn [wire].
    destruct (count_head (length entries) (proj1 (proj1 Hv))) as (b & bs & -> & _). discriminate.
  - cbn. discriminate.
  - cbn [supported] in Hs. cbn [faithful] in Hv. apply andb_true_iff in Hv. cbn [wire].
    apply IHt; [exact Hs|apply Hv].
  - cbn [faithful] in Hv. apply andb_true_iff in Hv. cbn [wire].
    destruct (count_head (length elems) (proj1 Hv)) as (b & bs & -> & _). discriminate.
  - cbn [faithful] in Hv. apply andb_true_iff in Hv. cbn [wire].
    destruct (count_head (length s) (proj1 Hv)) as (b & bs & -> & _). discriminate.
  - rewrite supported_struct in Hs. apply andb_true_iff in Hs. rewrite wire_struct.
    destruct (Comparable (TStruct ms fields) && is_zero (VStruct fields0)); [discriminate|].
    destruct (count_head (length fields) (proj1 Hs)) as (b & bs & -> & _). discriminate.
Qed.

Lemma leading_zero_false (bs : list Z) :
  bs <> [] -> leading_zero bs = false -> exists b bs', bs = b :: bs' /\ b <> 0.
Proof.
  intros Hne Hl. destruct bs as [|b bs']; [contradiction|].
  exists b, bs'. split; [reflexivity|]. intros ->. discriminate.
Qed.

Lemma nth_error_to_nth {A : Type} (l : list A) (j : nat) (x d : A) :
  nth_error l j = Some x -> nth j l d = x.
Proof.
  revert j. induction l as [|y l IH]; intros [|j] H; try discriminate.
  - inversion H. reflexivity.
  - cbn. apply IH. exact H.
Qed.

Lemma nth_error_repeat_lt {A : Type} (a : A) (n j : nat) :
  (j < n)%nat -> nth_error (repeat a n) j = Some a.
Proof.
  revert j. induction n as [|n IH]; intros j Hj; [lia|].
  destruct j; [reflexivity|]. cbn. apply IH. lia.
Qed.

Lemma SetMapIndex_fresh (m : list (value * value)) (key val : value) :
  (forall kx, In kx m -> key_eq (fst kx) key = false) ->
  SetMapIndex m key val = m ++ [(key, val)].
Proof.
  induction m as [|[k x] m IH]; intros H; [reflexivity|].
  cbn [SetMapIndex]. pose proof (H (k, x) (or_introl eq_refl)) as Hk. cbn [fst] in Hk.
  rewrite Hk. cbn [app]. f_equal.
  apply IH. intros kx Hkx. apply H. right. exact Hkx.
Qed.

Lemma distinct_keys_fresh (es : list (value * value)) :
  distinct_keys (map fst es) = true ->
  forall j kx d, (j < length es)%nat -> In kx (firstn j es) ->
    key_eq (fst kx) (fst (nth j es d)) = false.
Proof.
  induction es as [|[k x] es IH]; intros Hd j kx d Hj Hin; [cbn in Hj; lia|].
  cbn [map distinct_keys fst] in Hd. apply andb_true_iff in Hd. destruct Hd as [Hk Hd].
  apply negb_true_iff in Hk.
  destruct j; [contradiction|]. cbn [firstn nth] in *. destruct Hin as [<-|Hin].
  - cbn [fst].
    destruct (key_eq k (fst (nth j es d))) eqn:E; [|reflexivity].
    assert (Hex : existsb (key_eq k) (map fst es) = true).
    { apply existsb_exists. exists (fst (nth j es d)). split; [|exact E].
      apply in_map, nth_In. cbn in Hj. lia. }
    congruence.
  - apply IH; [exact Hd|cbn in Hj; lia|exact Hin].
Qed.

Lemma norm_scalar (k : type) (v : value) : scalar_key k = true -> norm k v = v.
Proof. destruct k; try discriminate; intros _; destruct v; reflexivity. Qed.

Section DecodeWire.

Variable U : usercode.

(** The zero-value wrapper reads the byte 0 as the zero value and otherwise
    hands the bytes, which do not begin with 0, to the wrapped machine. *)
Lemma reads_wrap (t : type) (m : machine) (v r : value) (bs : list Z) (k : nat) :
  (Comparable t = true -> is_zero v = false -> exists b bs', bs = b :: bs' /\ b <> 0) ->
  (forall f, (k <= f)%nat -> reads (decode U f m true (Zero t)) bs r) ->
  forall f, (S k <= f)%nat ->
    reads (decode U f (wrap t m) true (Zero t))
          (if Comparable t && is_zero v then [0] else bs)
          (if Comparable t && is_zero v then Zero t else r).
Proof.
  intros Hhead H f Hf. unfold wrap. destruct (Comparable t) eqn:Ec; cbn [andb].
  - destruct f as [|f]; [lia|]. cbn [decode]. destruct (is_zero v) eqn:Ez.
    + apply (reads_bind_ret _ _ _ true); [apply reads_decodeZero_zero|apply reads_ret].
    + destruct (Hhead eq_refl eq_refl) as (b & bs' & -> & Hb).
      apply reads_after_decodeZero; [exact Hb|]. apply H. lia.
  - apply H. lia.
Qed.

(** The element loop shared by arrays and slices. *)
Lemma reads_elements (m : machine) (e : type) (mk : list value -> value)
      (xs : list value) (f : nat) :
  (forall l j, (j < length l)%nat -> @Index dstate true (mk l) j = ret (nth j l VNilPtr, true)) ->
  (forall l j x, set_elem (mk l) j x = mk (set_nth l j x)) ->
  (forall x, In x xs -> reads (decode U f m true (Zero e)) (wire e x) (norm e x)) ->
  reads (for_loop (length xs) 0
           (fun i v =>
              bind (Index true v i) (fun xa =>
              bind (decode U f m (snd xa) (fst xa)) (fun x' =>
              ret (set_elem v i x')))) (mk (repeat (Zero e) (length xs))))
        (flat_map (wire e) xs)
        (mk (map (norm e) xs)).
Proof.
  intros Hidx Hset Hx.
  set (ys := map (norm e) xs). set (zs := repeat (Zero e) (length xs)).
  assert (Hlen : length ys = length zs)
    by (subst ys zs; rewrite length_map, repeat_length; reflexivity).
  assert (Hly : length ys = length xs) by (subst ys; apply length_map).
  rewrite <- (flat_map_seq_nth0 (wire e) VNilPtr xs).
  replace (mk ys) with ((fun j => mk (filled ys zs j)) (0 + length xs)%nat)
    by (cbn beta; rewrite Nat.add_0_l, <- Hly, (filled_all ys zs Hlen); reflexivity).
  change (mk zs) with ((fun j => mk (filled ys zs j)) O).
  apply reads_for_loop. intros j Hj. cbn beta.
  rewrite Hidx by (rewrite filled_length; lia). rewrite bind_ret_l. cbn [fst snd].
  assert (Hz : nth j (filled ys zs j) VNilPtr = Zero e).
  { apply nth_error_to_nth. rewrite filled_nth_error by lia.
    subst zs. apply nth_error_repeat_lt. lia. }
  rewrite Hz.
  apply (reads_bind_ret _ _ _ (norm e (nth j xs VNilPtr))).
  - apply Hx. apply nth_In. lia.
  - rewrite Hset. rewrite <- (filled_step ys zs j VNilPtr Hlen) by lia.
    assert (Hn : nth j ys VNilPtr = norm e (nth j xs VNilPtr)).
    { subst ys. rewrite (nth_indep (map (norm e) xs) VNilPtr (norm e VNilPtr)) by lia.
      apply map_nth. }
    rewrite Hn. apply reads_ret.
Qed.

End DecodeWire.

Lemma raw_bytes_faithful (xs : list value) :
  forallb (faithful (TUint KUint8)) xs = true ->
  length (flat_map raw_byte xs) = length xs
  /\ map (VUint KUint8) (flat_map raw_byte xs) = xs
  /\ map (norm (TUint KUint8)) xs = xs.
Proof.
  induction xs as [|x xs IH]; intros H; [repeat split; reflexivity|].
  cbn [forallb] in H. apply andb_true_iff in H. destruct H as [Hx H].
  destruct (IH H) as (H1 & H2 & H3).
  destruct x; try discriminate. apply faithful_uint in Hx. destruct Hx as [-> _].
  split; [|split].
  - cbn [flat_map raw_byte app length]. f_equal. exact H1.
  - cbn [flat_map raw_byte app map]. f_equal. exact H2.
  - cbn [map norm]. f_equal. exact H3.
Qed.

Lemma zero_fields_nth (fs : list (StructField type)) (j : nat) :
  (j < length fs)%nat ->
  nth j (zero_fields fs) VNilPtr = Zero (Type_ (nth j fs no_field)).
Proof.
  intros Hj. unfold zero_fields.
  rewrite (nth_indep _ VNilPtr (Zero (Type_ no_field))) by (rewrite length_map; exact Hj).
  apply (map_nth (fun f => Zero (Type_ f))).
Qed.

(** [decode] with the machine of a supported type, into a fresh zero
    destination, reads [wire] back as [norm]. *)
Lemma decode_wire (U : usercode) (n : nat) :
  forall t, (size t < n)%nat -> supported t = true ->
  forall v, faithful t v = true -> allocatable t v = true ->
  forall fuel, (2 * size t <= fuel)%nat ->
    reads (decode U fuel (machine_of t) true (Zero t)) (wire t v) (norm t v).
Proof.
  induction n as [|n IH]; intros t Hn Hs v Hv Ha fuel Hf; [lia|].
  destruct t; try discriminate Hs; destruct v; try discriminate Hv;
    try rewrite size_struct in Hf, Hn; cbn [size] in Hf, Hn.
  - (* bool *)
    destruct fuel; [lia|]. cbn [machine_of decode wire norm Zero].
    apply (reads_bind_ret _ _ _ (if b then 1 else 0)); [apply reads_d_readByte|].
    destruct b; apply reads_ret.
  - (* int *)
    destruct fuel; [lia|]. apply faithful_int in Hv. destruct Hv as [-> Hr].
    cbn [machine_of decode wire norm Zero].
    apply (reads_bind_ret _ _ _ i); [apply reads_decodeInt, (int_kind_range k), Hr|].
    rewrite (wrap_int_id k i Hr). apply reads_ret.
  - (* uint *)
    destruct fuel; [lia|]. apply faithful_uint in Hv. destruct Hv as [-> Hr].
    cbn [machine_of decode wire norm Zero].
    apply (reads_bind_ret _ _ _ u); [apply reads_decodeUint, (uint_kind_range k), Hr|].
    rewrite (wrap_uint_id k u Hr). apply reads_ret.
  - (* float64 *)
    destruct fuel; [lia|]. cbn [faithful] in Hv.
    rewrite !andb_true_iff, Z.leb_le, Z.ltb_lt in Hv.
    cbn [machine_of decode wire norm Zero].
    apply (reads_bind_ret _ _ _ bits); [apply reads_decodeUint; unfold is_uint64; lia|].
    apply reads_ret.
  - (* complex128 *)
    destruct fuel; [lia|]. cbn [faithful] in Hv.
    rewrite !andb_true_iff, !Z.leb_le, !Z.ltb_lt in Hv.
    cbn [machine_of decode wire norm Zero].
    apply (reads_bind _ _ _ _ re); [apply reads_decodeUint; unfold is_uint64; lia|].
    apply (reads_bind_ret _ _ _ im); [apply reads_decodeUint; unfold is_uint64; lia|].
    apply reads_ret.
  - (* array *)
    cbn [supported] in Hs. apply andb_true_iff in Hs. destruct Hs as [Hfit Hs].
    cbn [faithful] in Hv. apply andb_true_iff in Hv. destruct Hv as [Hlen Hv].
    apply Nat.eqb_eq in Hlen. rewrite forallb_forall in Hv.
    cbn [allocatable] in Ha. rewrite forallb_forall in Ha.
    cbn [machine_of wire norm].
    apply (reads_wrap U _ _ _ _ _ (S (2 * size t))); [| |lia].
    + intros _ Hz. destruct (count_head len Hfit) as (b & bs & E & Hb).
      rewrite E. exists b, (bs ++ flat_map (wire t) elems). split; [reflexivity|].
      apply Hb. intros ->. destruct elems; [discriminate Hz|discriminate Hlen].
    + intros f Hf'. destruct f as [|f]; [lia|]. cbn [decode].
      apply (reads_bind _ _ _ _ (Z.of_nat len)); [apply reads_decodeUint, fits_uint64, Hfit|].
      rewrite (to_int_count len Hfit), Z.ltb_irrefl, Nat2Z.id. subst len.
      change (Zero (TArray (length elems) t)) with (VArray (repeat (Zero t) (length elems))).
      apply (reads_elements U _ t VArray elems f).
      * intros l j Hj. apply Index_array, Hj.
      * reflexivity.
      * intros x Hx. apply (IH t); [lia|exact Hs|apply Hv, Hx|apply Ha, Hx|lia].
  - (* map *)
    cbn [supported] in Hs. rewrite !andb_true_iff in Hs. destruct Hs as [[Hsk Hs1] Hs2].
    cbn [faithful] in Hv. rewrite !andb_true_iff in Hv. destruct Hv as [[Hfit Hd] Hv].
    rewrite forallb_forall in Hv.
    cbn [allocatable] in Ha. rewrite forallb_forall in Ha.
    destruct fuel as [|f]; [lia|]. cbn [machine_of decode wire norm Zero].
    unfold Set_. rewrite bind_ret_l.
    apply (reads_bind _ _ _ _ (Z.of_nat (length entries)));
      [apply reads_decodeUint, fits_uint64, Hfit|].
    rewrite Nat2Z.id.
    set (g := fun kx : value * value => (fst kx, norm t2 (snd kx))).
    rewrite <- (flat_map_seq_nth0 (fun kx => wire t1 (fst kx) ++ wire t2 (snd kx))
                  (VNilPtr, VNilPtr) entries).
    replace (VMap (map g entries))
      with ((fun j => VMap (map g (firstn j entries))) (0 + length entries)%nat)
      by (cbn beta; rewrite Nat.add_0_l, firstn_all; reflexivity).
    change (VMap []) with ((fun j => VMap (map g (firstn j entries))) O).
    apply reads_for_loop. intros j Hj. cbn beta.
    assert (Hj' : (j < length entries)%nat) by lia.
    pose proof (Hv _ (nth_In entries (VNilPtr, VNilPtr) Hj')) as Hkx.
    apply andb_true_iff in Hkx. destruct Hkx as [Hk Hx].
    pose proof (Ha _ (nth_In entries (VNilPtr, VNilPtr) Hj')) as Hax.
    apply andb_true_iff in Hax. destruct Hax as [Hak Hax].
    apply (reads_bind _ _ _ _ (fst (nth j entries (VNilPtr, VNilPtr)))).
    { rewrite <- (norm_scalar t1 (fst (nth j entries (VNilPtr, VNilPtr))) Hsk) at 2.
      apply (IH t1); [lia|exact Hs1|exact Hk|exact Hak|lia]. }
    apply (reads_bind_ret _ _ _ (norm t2 (snd (nth j entries (VNilPtr, VNilPtr))))).
    { apply (IH t2); [lia|exact Hs2|exact Hx|exact Hax|lia]. }
    rewrite SetMapIndex_fresh.
    + rewrite (firstn_succ_nth entries j (VNilPtr, VNilPtr)) by lia.
      rewrite map_app. apply reads_ret.
    + intros kx Hin. apply in_map_iff in Hin. destruct Hin as (kx0 & <- & Hin).
      apply (distinct_keys_fresh entries Hd j kx0 (VNilPtr, VNilPtr)); [lia|exact Hin].
  - (* nil pointer *)
    destruct fuel; [lia|]. cbn [machine_of decode wire norm Zero].
    apply (reads_bind_ret _ _ _ true); [apply reads_decodeZero_zero|apply reads_ret].
  - (* pointer *)
    cbn [supported] in Hs. cbn [faithful] in Hv. apply andb_true_iff in Hv.
    destruct Hv as [Hv Hlz]. apply negb_true_iff in Hlz.
    cbn [allocatable] in Ha.
    destruct fuel as [|f]; [lia|]. cbn [machine_of decode wire norm Zero].
    pose proof (IH t ltac:(lia) Hs v Hv Ha f ltac:(lia)) as Hrec.
    destruct (leading_zero_false _ (wire_nonempty t v Hs Hv) Hlz) as (b & bs' & E & Hb).
    rewrite E in *.
    apply reads_after_decodeZero; [exact Hb|].
    unfold Set_. rewrite bind_ret_l.
    apply (reads_bind_ret _ _ _ (norm t v)); [exact Hrec|apply reads_ret].
  - (* slice *)
    cbn [supported] in Hs. cbn [faithful] in Hv. apply andb_true_iff in Hv.
    destruct Hv as [Hfit Hv].
    cbn [allocatable] in Ha. apply andb_true_iff in Ha. destruct Ha as [Hnew Ha].
    destruct fuel as [|f]; [lia|]. cbn [machine_of wire norm Zero].
    destruct (is_bytes t) eqn:Eb.
    + apply is_bytes_elem in Eb. subst t. cbn [decode].
      destruct (raw_bytes_faithful elems Hv) as (H1 & H2 & H3).
      apply newarray_bytes in Hnew.
      rewrite H3. rewrite <- H1 in Hfit, Hnew |- *.
      apply (reads_bind _ _ _ _ (Z.of_nat (length (flat_map raw_byte elems))));
        [apply reads_decodeUint, fits_uint64, Hfit|].
      apply (reads_bind_ret _ _ _ (flat_map raw_byte elems)); [apply reads_d_read, Hnew|].
      unfold Set_. rewrite H2. apply reads_ret.
    + cbn [decode]. rewrite forallb_forall in Hv.
      apply (reads_bind _ _ _ _ (Z.of_nat (length elems)));
        [apply reads_decodeUint, fits_uint64, Hfit|].
      cbn zeta. rewrite (to_int_count _ Hfit), Nat2Z.id.
      replace (Z.of_nat (length elems) <? 0) with false by (symmetry; apply Z.ltb_ge; lia).
      rewrite Hnew. rewrite forallb_forall in Ha.
      unfold Set_. rewrite bind_ret_l.
      apply (reads_elements U _ t (VSlice (length elems)) elems f).
      * intros l j Hj. apply Index_slice, Hj.
      * reflexivity.
      * intros x Hx. apply (IH t); [lia|exact Hs|apply Hv, Hx|apply Ha, Hx|lia].
  - (* string *)
    destruct fuel; [lia|]. cbn [faithful] in Hv. apply andb_true_iff in Hv.
    destruct Hv as [Hfit _]. cbn [allocatable] in Ha. apply Z.leb_le in Ha.
    cbn [machine_of decode wire norm Zero].
    apply (reads_bind _ _ _ _ (Z.of_nat (length s))); [apply reads_decodeUint, fits_uint64, Hfit|].
    apply (reads_bind_ret _ _ _ s); [apply reads_d_read, Ha|apply reads_ret].
  - (* record *)
    rewrite supported_struct in Hs. apply andb_true_iff in Hs. destruct Hs as [Hfit Hs].
    rewrite faithful_struct in Hv. pose proof (faithful_fields_length _ _ Hv) as Hlen.
    rewrite allocatable_struct in Ha.
    rewrite wire_struct, norm_struct. cbn [machine_of].
    apply (reads_wrap U _ _ _ _ _ (S (2 * fields_size fields))); [| |lia].
    + intros _ Hz. destruct (count_head (length fields) Hfit) as (b & bs & E & Hb).
      rewrite E. exists b, (bs ++ wire_fields fields fields0). split; [reflexivity|].
      apply Hb. intros Hnil. destruct fields; [|discriminate Hnil].
      destruct fields0; [discriminate Hz|discriminate Hlen].
    + intros f Hf'. destruct f as [|f]; [lia|]. cbn [decode]. rewrite length_map.
      apply (reads_bind _ _ _ _ (Z.of_nat (length fields)));
        [apply reads_decodeUint, fits_uint64, Hfit|].
      rewrite (to_int_count _ Hfit), Z.ltb_irrefl, Nat2Z.id, Zero_struct.
      set (ys := norm_fields fields fields0). set (zs := zero_fields fields).
      assert (Hly : length ys = length fields) by (apply norm_fields_length, Hlen).
      assert (Hlz : length ys = length zs)
        by (rewrite Hly; unfold zs, zero_fields; rewrite length_map; reflexivity).
      rewrite <- (wire_fields_seq0 fields no_field VNilPtr fields0 Hlen).
      replace (VStruct ys)
        with ((fun j => VStruct (filled ys zs j)) (0 + length fields)%nat)
        by (cbn beta; rewrite Nat.add_0_l, <- Hly, (filled_all ys zs Hlz); reflexivity).
      change (VStruct zs) with ((fun j => VStruct (filled ys zs j)) O).
      apply reads_for_loop. intros j Hj. cbn beta.
      rewrite Field_struct by (rewrite filled_length; lia). rewrite bind_ret_l.
      assert (Hz : nth j (filled ys zs j) VNilPtr = Zero (Type_ (nth j fields no_field))).
      { rewrite <- (zero_fields_nth fields j ltac:(lia)).
        apply nth_error_to_nth. rewrite filled_nth_error by lia.
        apply nth_error_nth_default. fold zs. lia. }
      rewrite Hz, (nth_field_machine fields j ltac:(lia)).
      assert (Hj' : (j < length fields)%nat) by lia.
      pose proof (field_size_lt ms fields _ (nth_In fields no_field Hj')) as Hsz.
      rewrite size_struct in Hsz.
      apply (reads_bind_ret _ _ _
               (norm (Type_ (nth j fields no_field)) (nth j fields0 VNilPtr))).
      * apply IH; [lia|apply supported_fields_nth; [exact Hs|lia]
                  |apply faithful_fields_nth; [exact Hv|lia]
                  |apply allocatable_fields_nth; [exact Ha|lia|lia]|lia].
      * cbn [set_elem]. rewrite <- (filled_step ys zs j VNilPtr Hlz) by lia.
        unfold ys at 3. rewrite (norm_fields_nth fields fields0 j Hlen) by lia.
        apply reads_ret.
Qed.

(** ** What is read back is deep-equal to what was written *)

Lemma DeepEqual_array (xs ys : list value) :
  DeepEqual (VArray xs) (VArray ys) = DeepEqual_list xs ys.
Proof. reflexivity. Qed.

Lemma DeepEqual_record (xs ys : list value) :
  DeepEqual (VStruct xs) (VStruct ys) = DeepEqual_list xs ys.
Proof. reflexivity. Qed.

Lemma DeepEqual_slice (c c' : nat) (xs ys : list value) :
  DeepEqual (VSlice c xs) (VSlice c' ys) = DeepEqual_list xs ys.
Proof. reflexivity. Qed.

Lemma DeepEqual_map (xs ys : list (value * value)) :
  DeepEqual (VMap xs) (VMap ys) = Nat.eqb (length xs) (length ys) && DeepEqual_entries ys xs.
Proof. reflexivity. Qed.

Lemma float_eq_refl (b : Z) : float_isNaN b = false -> float_eq b b = true.
Proof. intros H. unfold float_eq. rewrite H, Z.eqb_refl. reflexivity. Qed.

Lemma float_eq_sym (a b : Z) : float_eq a b = float_eq b a.
Proof.
  unfold float_eq. rewrite (Z.eqb_sym a b).
  destruct (float_isNaN a), (float_isNaN b), (b =? a), (float_isZero a), (float_isZero b);
    reflexivity.
Qed.

Lemma bytes_eq_refl (s : list Z) : (if list_eq_dec Z.eq_dec s s then true else false) = true.
Proof. destruct (list_eq_dec Z.eq_dec s s); [reflexivity|contradiction]. Qed.

Lemma DeepEqual_list_map (f : value -> value) (xs : list value) :
  (forall x, In x xs -> DeepEqual x (f x) = true) -> DeepEqual_list xs (map f xs) = true.
Proof.
  induction xs as [|x xs IH]; intros H; [reflexivity|].
  cbn [map DeepEqual_list]. rewrite (H x (or_introl eq_refl)), IH; [reflexivity|].
  intros y Hy. apply H. right. exact Hy.
Qed.

Lemma is_zero_array (xs : list value) : is_zero (VArray xs) = forallb is_zero xs.
Proof. reflexivity. Qed.

Lemma is_zero_record (xs : list value) : is_zero (VStruct xs) = forallb is_zero xs.
Proof. reflexivity. Qed.

Lemma Comparable_struct (ms : methods) (fs : list (StructField type)) :
  Comparable (TStruct ms fs) = forallb (fun f => Comparable (Type_ f)) fs.
Proof. reflexivity. Qed.

(** A value that [==] its type's zero value is deep-equal to it. *)
Lemma DeepEqual_zero (n : nat) :
  forall t, (size t < n)%nat -> supported t = true -> Comparable t = true ->
  forall v, faithful t v = true -> is_zero v = true -> DeepEqual v (Zero t) = true.
Proof.
  induction n as [|n IH]; intros t Hn Hs Hc v Hv Hz; [lia|].
  destruct t; try discriminate Hs; try discriminate Hc; destruct v; try discriminate Hv;
    try discriminate Hz; try rewrite size_struct in Hn; cbn [size] in Hn.
  - destruct b; [discriminate Hz|reflexivity].
  - cbn in Hz |- *. exact Hz.
  - cbn in Hz |- *. exact Hz.
  - cbn [is_zero] in Hz. cbn [DeepEqual Zero]. rewrite float_eq_sym. exact Hz.
  - cbn [is_zero] in Hz. apply andb_true_iff in Hz. cbn [DeepEqual Zero].
    rewrite (float_eq_sym re), (float_eq_sym im). apply andb_true_iff. exact Hz.
  - cbn [supported] in Hs. apply andb_true_iff in Hs. destruct Hs as [_ Hs].
    cbn [Comparable] in Hc.
    cbn [faithful] in Hv. apply andb_true_iff in Hv. destruct Hv as [Hlen Hv].
    apply Nat.eqb_eq in Hlen. subst len.
    rewrite is_zero_array in Hz. cbn [Zero]. rewrite DeepEqual_array.
    induction elems as [|x xs IHx]; [reflexivity|].
    cbn [forallb] in Hv, Hz. apply andb_true_iff in Hv, Hz.
    cbn [length repeat DeepEqual_list].
    rewrite (IH t ltac:(lia) Hs Hc x (proj1 Hv) (proj1 Hz)).
    apply IHx; [apply Hv|apply Hz].
  - reflexivity.
  - destruct s; [reflexivity|discriminate Hz].
  - rewrite supported_struct in Hs. apply andb_true_iff in Hs. destruct Hs as [_ Hs].
    rewrite Comparable_struct in Hc. rewrite faithful_struct in Hv.
    rewrite is_zero_record in Hz. rewrite Zero_struct, DeepEqual_record.
    assert (Hsz : forall f, In f fields -> (size (Type_ f) < n)%nat).
    { intros f Hin. pose proof (field_size_lt ms fields f Hin) as H.
      rewrite size_struct in H. lia. }
    clear Hn. revert fields0 Hv Hz.
    induction fields as [|f fs IHf]; intros [|x xs] Hv Hz; try discriminate Hv; [reflexivity|].
    cbn [supported_fields forallb] in Hs, Hc, Hz. cbn [faithful_fields] in Hv.
    apply andb_true_iff in Hs, Hc, Hz, Hv.
    destruct Hs as [Hs0 Hs]. apply andb_true_iff in Hs0.
    cbn [zero_fields map DeepEqual_list].
    rewrite (IH (Type_ f) (Hsz f (or_introl eq_refl)) (proj2 Hs0) (proj1 Hc) x
               (proj1 Hv) (proj1 Hz)).
    apply IHf; [exact Hs|apply Hc|intros f' Hf'; apply Hsz; right; exact Hf'|apply Hv|apply Hz].
Qed.

Lemma key_eq_refl_scalar (t : type) (v : value) :
  scalar_key t = true -> faithful t v = true -> key_eq v v = true.
Proof.
  destruct t; try discriminate; intros _ Hv; destruct v; try discriminate Hv; cbn.
  - apply eqb_reflx.
  - apply Z.eqb_refl.
  - apply Z.eqb_refl.
  - apply bytes_eq_refl.
Qed.

Lemma DeepEqual_entries_map (k e : type) (es : list (value * value)) :
  scalar_key k = true ->
  distinct_keys (map fst es) = true ->
  (forall kx, In kx es -> faithful k (fst kx) = true
                          /\ DeepEqual (snd kx) (norm e (snd kx)) = true) ->
  forall pre,
    (forall kx kx', In kx pre -> In kx' es -> key_eq (fst kx) (fst kx') = false) ->
    DeepEqual_entries (pre ++ map (fun kx => (fst kx, norm e (snd kx))) es) es = true.
Proof.
  intros Hsk. induction es as [|[k0 x0] es IH]; intros Hd Hv pre Hpre; [reflexivity|].
  cbn [map distinct_keys fst snd] in Hd. apply andb_true_iff in Hd. destruct Hd as [Hk0 Hd].
  apply negb_true_iff in Hk0.
  destruct (Hv (k0, x0) (or_introl eq_refl)) as [Hf0 Hx0]. cbn [fst snd] in Hf0, Hx0.
  cbn [DeepEqual_entries map fst snd].
  assert (Hfind : MapIndex (pre ++ (k0, norm e x0) :: map (fun kx => (fst kx, norm e (snd kx))) es)
                    k0 = Some (norm e x0)).
  { clear IH. induction pre as [|[kp xp] pre IHp].
    - cbn. rewrite (key_eq_refl_scalar k k0 Hsk Hf0). reflexivity.
    - cbn [app MapIndex].
      pose proof (Hpre (kp, xp) (k0, x0) (or_introl eq_refl) (or_introl eq_refl)) as Hne.
      cbn [fst] in Hne. rewrite Hne.
      apply IHp. intros kx kx' Hin Hin'. apply Hpre; [right; exact Hin|exact Hin']. }
  rewrite Hfind, Hx0. cbn [andb].
  replace (pre ++ (k0, norm e x0) :: map (fun kx => (fst kx, norm e (snd kx))) es)
    with ((pre ++ [(k0, norm e x0)]) ++ map (fun kx => (fst kx, norm e (snd kx))) es)
    by (rewrite <- app_assoc; reflexivity).
  apply IH.
  - exact Hd.
  - intros kx Hin. apply Hv. right. exact Hin.
  - intros kx kx' Hin Hin'. apply in_app_or in Hin. destruct Hin as [Hin|[<-|[]]].
    + apply Hpre; [exact Hin|right; exact Hin'].
    + cbn [fst]. destruct (key_eq k0 (fst kx')) eqn:E; [|reflexivity].
      assert (Hex : existsb (key_eq k0) (map fst es) = true).
      { apply existsb_exists. exists (fst kx'). split; [apply in_map; exact Hin'|exact E]. }
      congruence.
Qed.

Lemma DeepEqual_fields (fs : list (StructField type)) :
  forall xs,
    (forall j, (j < length fs)%nat ->
       DeepEqual (nth j xs VNilPtr) (norm (Type_ (nth j fs no_field)) (nth j xs VNilPtr)) = true) ->
    length xs = length fs ->
    DeepEqual_list xs (norm_fields fs xs) = true.
Proof.
  induction fs as [|f fs IH]; intros [|x xs] H Hl; try discriminate; [reflexivity|].
  cbn [norm_fields DeepEqual_list].
  pose proof (H O ltac:(cbn; lia)) as H0. cbn [nth] in H0. rewrite H0. cbn [andb].
  apply IH; [|cbn in Hl; lia].
  intros j Hj. apply (H (S j)). cbn. lia.
Qed.

(** Reading back yields a value deep-equal to the one written. *)
Lemma DeepEqual_norm (n : nat) :
  forall t, (size t < n)%nat -> supported t = true ->
  forall v, faithful t v = true -> DeepEqual v (norm t v) = true.
Proof.
  induction n as [|n IH]; intros t Hn Hs v Hv; [lia|].
  destruct t; try discriminate Hs; destruct v; try discriminate Hv;
    try rewrite size_struct in Hn; cbn [size] in Hn.
  - cbn. apply eqb_reflx.
  - cbn. apply Z.eqb_refl.
  - cbn. apply Z.eqb_refl.
  - cbn [faithful] in Hv. rewrite !andb_true_iff, negb_true_iff in Hv.
    cbn [norm DeepEqual]. apply float_eq_refl, Hv.
  - cbn [faithful] in Hv. rewrite !andb_true_iff, !negb_true_iff in Hv.
    cbn [norm DeepEqual]. rewrite !float_eq_refl; [reflexivity|apply Hv|apply Hv].
  - (* array *)
    pose proof Hs as Hs'. pose proof Hv as Hv'.
    cbn [supported] in Hs. apply andb_true_iff in Hs. destruct Hs as [_ Hs].
    cbn [faithful] in Hv. apply andb_true_iff in Hv. destruct Hv as [_ Hv].
    rewrite forallb_forall in Hv. cbn [norm].
    destruct (Comparable (TArray len t)) eqn:Ec; cbn [andb].
    + destruct (is_zero (VArray elems)) eqn:Ez.
      * apply (DeepEqual_zero (S (size (TArray len t)))); try assumption. lia.
      * rewrite DeepEqual_array. apply DeepEqual_list_map.
        intros x Hx. apply (IH t); [lia|exact Hs|apply Hv, Hx].
    + rewrite DeepEqual_array. apply DeepEqual_list_map.
      intros x Hx. apply (IH t); [lia|exact Hs|apply Hv, Hx].
  - (* map *)
    cbn [supported] in Hs. rewrite !andb_true_iff in Hs. destruct Hs as [[Hsk Hs1] Hs2].
    cbn [faithful] in Hv. rewrite !andb_true_iff in Hv. destruct Hv as [[_ Hd] Hv].
    rewrite forallb_forall in Hv.
    cbn [norm]. rewrite DeepEqual_map, length_map, Nat.eqb_refl. cbn [andb].
    apply (DeepEqual_entries_map t1 t2 entries Hsk Hd) with (pre := []).
    + intros kx Hin. specialize (Hv kx Hin). apply andb_true_iff in Hv. split; [apply Hv|].
      apply (IH t2); [lia|exact Hs2|apply Hv].
    + intros kx kx' [].
  - reflexivity.
  - (* pointer *)
    cbn [supported] in Hs. cbn [faithful] in Hv. apply andb_true_iff in Hv.
    cbn [norm DeepEqual]. apply (IH t); [lia|exact Hs|apply Hv].
  - (* slice *)
    cbn [supported] in Hs. cbn [faithful] in Hv. apply andb_true_iff in Hv.
    destruct Hv as [_ Hv]. rewrite forallb_forall in Hv.
    cbn [norm]. rewrite DeepEqual_slice. apply DeepEqual_list_map.
    intros x Hx. apply (IH t); [lia|exact Hs|apply Hv, Hx].
  - cbn. apply bytes_eq_refl.
  - (* record *)
    pose proof Hs as Hs'. pose proof Hv as Hv'.
    rewrite supported_struct in Hs. apply andb_true_iff in Hs. destruct Hs as [_ Hs].
    rewrite faithful_struct in Hv. pose proof (faithful_fields_length _ _ Hv) as Hlen.
    rewrite norm_struct.
    assert (Hcore : DeepEqual (VStruct fields0) (VStruct (norm_fields fields fields0)) = true).
    { rewrite DeepEqual_record. apply DeepEqual_fields; [|exact Hlen].
      intros j Hj.
      pose proof (field_size_lt ms fields _ (nth_In fields no_field Hj)) as Hsz.
      rewrite size_struct in Hsz.
      apply IH; [lia|apply supported_fields_nth; assumption|apply faithful_fields_nth; assumption]. }
    destruct (Comparable (TStruct ms fields)) eqn:Ec; cbn [andb]; [|exact Hcore].
    destruct (is_zero (VStruct fields0)) eqn:Ez; [|exact Hcore].
    apply (DeepEqual_zero (S (size (TStruct ms fields)))); try assumption. lia.
Qed.

(** ** Round trip through the entry points *)

Lemma e_lift_get (t : type) (g g' : registry) (m : machine) (w : option sink) :
  get t g = (Ok m, g') -> e_lift (get t) (mkE g w) = (Ok m, mkE g' w).
Proof. intros H. unfold e_lift. cbn [e_types e_w]. rewrite H. reflexivity. Qed.

Lemma d_lift_get (t : type) (g g' : registry) (m : machine) (r : source) {n : bool} :
  get t g = (Ok m, g') -> d_lift (get t) (mkDstate g r n) = (Ok m, mkDstate g' r n).
Proof. intros H. unfold d_lift. cbn [d_types d_r d_nil]. rewrite H. reflexivity. Qed.

(** [Encode(&buf, &v)] into an empty buffer writes [wire t v]. *)
Lemma Encode_wire (U : usercode) (t : type) (v : value) (g : registry) (fuel : nat) :
  supported t = true -> faithful t v = true -> coherent g ->
  (2 * size t <= fuel)%nat ->
  exists g',
    Encode U fuel (mkWriter true (buffer [])) (Some (TPtr t, VPtr v)) g
    = (Returns None, g', buffer (wire t v))
    /\ coherent g'.
Proof.
  intros Hs Hv Hg Hf.
  destruct (get_machine_of t g Hs Hg) as (g' & Hget & Hg').
  exists g'. split; [|exact Hg'].
  unfold Encode, EncodeValue. cbn [ValueOf resolve Indirect v_CanSet v_type v_val is_writer w_sink].
  rewrite (bind_step _ _ _ _ _ (e_lift_get t g g' _ _ Hget)).
  unfold buffer.
  rewrite (encode_wire U (S (size t)) t ltac:(lia) Hs v Hv fuel true Hf g' [] EOF).
  reflexivity.
Qed.

(** [Decode(r, &dst)] of those bytes into a fresh destination. *)
Lemma Decode_wire (U : usercode) (t : type) (v : value) (g : registry) (fuel : nat)
      (rest : list Z) :
  supported t = true -> faithful t v = true -> allocatable t v = true -> coherent g ->
  (2 * size t <= fuel)%nat ->
  exists g' r',
    Decode U fuel (mkReader true (reader_of (wire t v ++ rest))) (Some (TPtr t, VPtr (Zero t))) g
    = (Returns None, g', r', Some (norm t v))
    /\ data r' = rest /\ coherent g'.
Proof.
  intros Hs Hv Ha Hg Hf.
  destruct (get_machine_of t g Hs Hg) as (g' & Hget & Hg').
  exists g'. eexists. split; [|split; [|exact Hg']].
  - unfold Decode, DecodeValue.
    cbn [ValueOf resolve Indirect v_CanSet v_type v_val r_source is_reader negb].
    rewrite (bind_step _ _ _ _ _ (d_lift_get t g g' _ _ Hget)).
    unfold reader_of.
    rewrite (decode_wire U (S (size t)) t ltac:(lia) Hs v Hv Ha fuel Hf g' rest EOF None).
    reflexivity.
  - reflexivity.
Qed.

(** X23. The round trip.  For a type built from booleans, integers,
    [float64], [complex128], strings, arrays, slices, pointers, maps keyed by
    a boolean, an integer or a string, and records with exported fields, and a
    value of it that holds no NaN, no nil slice, no nil map and no pointer to
    a value whose bytes begin with 0, and that [Decode] has room for: starting
    from a registry that holds, for such types, only the machines [register]
    builds, [Encode] followed by [Decode] of the bytes into a fresh
    destination returns nil twice, consumes exactly the bytes written and
    yields a value deep-equal to the original. *)
Theorem Decode_Encode_round_trip
  (U : usercode) (t : type) (v : value) (g : registry) (fuel : nat) (rest : list Z) :
  supported t = true ->
  faithful t v = true ->
  allocatable t v = true ->
  coherent g ->
  (2 * size t <= fuel)%nat ->
  let '(r1, g1, k) := Encode U fuel (mkWriter true (buffer [])) (Some (TPtr t, VPtr v)) g in
  let '(r2, _, src, v') :=
    Decode U fuel (mkReader true (reader_of (written k ++ rest)))
      (Some (TPtr t, VPtr (Zero t))) g1 in
  r1 = Returns None
  /\ r2 = Returns None
  /\ data src = rest
  /\ exists result, v' = Some result /\ DeepEqual v result = true.
Proof.
  intros Hs Hv Ha Hg Hf.
  destruct (Encode_wire U t v g fuel Hs Hv Hg Hf) as (g1 & He & Hg1). rewrite He.
  cbn [written buffer].
  destruct (Decode_wire U t v g1 fuel rest Hs Hv Ha Hg1 Hf) as (g2 & r' & Hd & Hr & _).
  rewrite Hd. repeat split; try assumption.
  exists (norm t v). split; [reflexivity|].
  apply (DeepEqual_norm (S (size t))); [lia|exact Hs|exact Hv].
Qed.

Lemma Decode_Encode_round_trip_witness :
  let '(r1, g1, k) :=
    Encode no_usercode 40 (mkWriter true (buffer []))
      (Some (TPtr sample_record, VPtr sample_value)) [] in
  let '(r2, _, src, v') :=
    Decode no_usercode 40 (mkReader true (reader_of (written k ++ [9])))
      (Some (TPtr sample_record, VPtr (Zero sample_record))) g1 in
  r1 = Returns None
  /\ r2 = Returns None
  /\ data src = [9]
  /\ exists result, v' = Some result /\ DeepEqual sample_value result = true.
Proof.
  apply (Decode_Encode_round_trip no_usercode sample_record sample_value [] 40 [9]).
  - reflexivity.
  - reflexivity.
  - reflexivity.
  - exact coherent_nil.
  - vm_compute. lia.
Defined.

(** C1. A non-nil pointer to the int 0 does not survive the round trip.
    [Encode] writes for it the single byte 0, which is the byte of the nil
    pointer; [Decode] of that byte into a fresh destination returns nil and
    leaves the nil pointer, which [DeepEqual] tells apart from the original.
    The same happens to a pointer inside a record. *)
Theorem round_trip_loses_pointer_to_zero (U : usercode) (fuel : nat) :
  let t := TPtr (TInt KInt) in
  let v := VPtr (VInt KInt 0) in
  let rec := TStruct no_methods [mkField false false (TInt KInt); mkField false false t] in
  let rv := VStruct [VInt KInt 7; v] in
  (let '(r1, g1, k) :=
     Encode U (3 + fuel) (mkWriter true (buffer [])) (Some (TPtr t, VPtr v)) [] in
   let '(r2, _, _, v') :=
     Decode U (3 + fuel) (mkReader true (reader_of (written k)))
       (Some (TPtr t, VPtr (Zero t))) g1 in
   r1 = Returns None /\ written k = [0]
   /\ r2 = Returns None /\ v' = Some VNilPtr
   /\ DeepEqual v VNilPtr = false)
  /\ (let '(r1, g1, k) :=
        Encode U (5 + fuel) (mkWriter true (buffer [])) (Some (TPtr rec, VPtr rv)) [] in
      let '(r2, _, _, v') :=
        Decode U (5 + fuel) (mkReader true (reader_of (written k)))
          (Some (TPtr rec, VPtr (Zero rec))) g1 in
      r1 = Returns None
      /\ r2 = Returns None /\ v' = Some (VStruct [VInt KInt 7; VNilPtr])
      /\ DeepEqual rv (VStruct [VInt KInt 7; VNilPtr]) = false).
Proof. cbn. repeat split; reflexivity. Qed.

(** Nor does a nil slice: it is written as the count 0 and read back as an
    empty slice that is not nil, which [DeepEqual] tells apart. *)
Lemma round_trip_loses_nil_slice :
  let t := TSlice (TInt KInt) in
  let '(r1, g1, k) :=
    Encode no_usercode 4 (mkWriter true (buffer [])) (Some (TPtr t, VPtr VNilSlice)) [] in
  let '(r2, _, _, v') :=
    Decode no_usercode 4 (mkReader true (reader_of (written k)))
      (Some (TPtr t, VPtr (Zero t))) g1 in
  r1 = Returns None /\ written k = [0]
  /\ r2 = Returns None /\ v' = Some (VSlice 0 [])
  /\ DeepEqual VNilSlice (VSlice 0 []) = false.
Proof. cbn. repeat split; reflexivity. Qed.

(** The same for a nil map. *)
Example round_trip_loses_nil_map :
  let t := TMap TString (TInt KInt) in
  let '(r1, g1, k) :=
    Encode no_usercode 4 (mkWriter true (buffer [])) (Some (TPtr t, VPtr VNilMap)) [] in
  let '(r2, _, _, v') :=
    Decode no_usercode 4 (mkReader true (reader_of (written k)))
      (Some (TPtr t, VPtr (Zero t))) g1 in
  r1 = Returns None /\ r2 = Returns None /\ v' = Some (VMap [])
  /\ DeepEqual VNilMap (VMap []) = false.
Proof. cbn. repeat split; reflexivity. Qed.

(** ** Channels *)

Lemma coherent_store_unsupported (g : registry) (t : type) (m : machine) :
  supported t = false -> coherent g -> coherent (store g t m).
Proof.
  intros Hu Hg t' m' Hl Hs. rewrite lookup_store in Hl.
  destruct (type_eqb t t') eqn:E.
  - apply type_eqb_eq in E. subst t'. congruence.
  - apply (Hg t' m' Hl Hs).
Qed.

Lemma get_chan (t : type) (g : registry) :
  supported t = true -> coherent g ->
  (forall m, lookup g (TChan t) = Some m -> m = chan_machine_of t) ->
  exists g', get (TChan t) g = (Ok (chan_machine_of t), g')
             /\ lookup g' (TChan t) = Some (chan_machine_of t).
Proof.
  intros Hs Hg Hl0. unfold get, get_with.
  destruct (lookup g (TChan t)) as [m|] eqn:Hl.
  { rewrite (Hl0 m eq_refl) in *. exists g. split; [reflexivity|exact Hl]. }
  cbn [register]. unfold registering. rewrite Hl.
  set (g0 := store g (TChan t) (recurseMachine (TChan t))).
  assert (Hg0 : coherent g0) by (apply coherent_store_unsupported; [reflexivity|exact Hg]).
  destruct (get_machine_of t g0 Hs Hg0) as (g2 & Hget & Hg2).
  destruct (get_machine_of (TSlice t) g2 Hs Hg2) as (g3 & Hget' & _).
  unfold get in Hget, Hget'. cbn [register] in Hget'.
  rewrite (bind_step _ _ _ _ _ Hget), (bind_step _ _ _ _ _ Hget').
  eexists. split; [reflexivity|]. apply lookup_store_same.
Qed.

Lemma get_cached (t : type) (g : registry) (m : machine) :
  lookup g t = Some m -> get t g = (Ok m, g).
Proof. intros H. unfold get, get_with. rewrite H. reflexivity. Qed.



(** The example of the specification, evaluated. *)
Example chan_1_2_3 :
  let '(r1, g1, k) :=
    Encode no_usercode 5 (mkWriter true (buffer []))
      (Some (TChan (TInt KInt), VChan 0 [VInt KInt 1; VInt KInt 2; VInt KInt 3] true)) [] in
  let '(r2, _, _, v') :=
    Decode no_usercode 5 (mkReader true (reader_of (written k)))
      (Some (TPtr (TChan (TInt KInt)), VPtr VNilChan)) g1 in
  written k = [3; 2; 4; 6]
  /\ v' = Some (VChan 3 [VInt KInt 1; VInt KInt 2; VInt KInt 3] false).
Proof. cbn. split; reflexivity. Qed.


(** Encoding a channel that is never closed does not return, decoding into a
    channel that is already full blocks, and a channel of bytes is written raw
    but read back as varints. *)
Example chan_other_cases :
  fst (fst (Encode no_usercode 5 (mkWriter true (buffer []))
              (Some (TChan (TInt KInt), VChan 0 [VInt KInt 1] false)) []))
  = BlocksForever
  /\ fst (fst (fst (Decode no_usercode 5 (mkReader true (reader_of [1; 2]))
                      (Some (TPtr (TChan (TInt KInt)), VPtr (VChan 0 [] false))) [])))
     = BlocksForever
  /\ (let '(_, g1, k) :=
        Encode no_usercode 5 (mkWriter true (buffer []))
          (Some (TChan (TUint KUint8), VChan 0 [VUint KUint8 200] true)) [] in
      written k = [1; 200]
      /\ fst (fst (fst (Decode no_usercode 5 (mkReader true (reader_of (written k)))
                          (Some (TPtr (TChan (TUint KUint8)), VPtr VNilChan)) g1)))
         = Returns (Some ErrUnexpectedEOF)).
Proof. cbn. repeat split; reflexivity. Qed.

(** ** Records that gained fields *)

Lemma zero_fields_app (fs extra : list (StructField type)) :
  zero_fields (fs ++ extra) = zero_fields fs ++ zero_fields extra.
Proof. apply map_app. Qed.

Lemma fields_size_app (fs extra : list (StructField type)) :
  fields_size (fs ++ extra) = (fields_size fs + fields_size extra)%nat.
Proof.
  unfold fields_size. induction fs as [|f fs IH]; [reflexivity|].
  cbn [app fold_right]. rewrite IH. lia.
Qed.

Lemma uvarint_0 : uvarint 0 = [0].
Proof. reflexivity. Qed.

Section Growth.

Variable U : usercode.

Lemma reads_wrap_nonzero (t : type) (m : machine) (dest r : value) (bs : list Z) (k : nat) :
  (exists b bs', bs = b :: bs' /\ b <> 0) ->
  (forall f, (k <= f)%nat -> reads (decode U f m true dest) bs r) ->
  forall f, (S k <= f)%nat -> reads (decode U f (wrap t m) true dest) bs r.
Proof.
  intros (b & bs' & -> & Hb) H f Hf. unfold wrap. destruct (Comparable t).
  - destruct f as [|f]; [lia|]. cbn [decode].
    apply reads_after_decodeZero; [exact Hb|]. apply H. lia.
  - apply H. lia.
Qed.

(** The bytes of a record with the fields [fs], read into a fresh record
    whose type has the fields [fs ++ extra]: the fields of [fs] are read back
    and every field of [extra] keeps its zero value. *)
Lemma decode_grown_record
      (ms ms' : methods) (fs extra : list (StructField type)) (xs : list value) (fuel : nat) :
  supported (TStruct ms fs) = true ->
  supported (TStruct ms' (fs ++ extra)) = true ->
  faithful (TStruct ms fs) (VStruct xs) = true ->
  allocatable (TStruct ms fs) (VStruct xs) = true ->
  (2 * size (TStruct ms' (fs ++ extra)) <= fuel)%nat ->
  reads (decode U fuel (machine_of (TStruct ms' (fs ++ extra))) true
           (Zero (TStruct ms' (fs ++ extra))))
        (wire (TStruct ms fs) (VStruct xs))
        (VStruct ((if Comparable (TStruct ms fs) && is_zero (VStruct xs)
                   then zero_fields fs else norm_fields fs xs) ++ zero_fields extra)).
Proof.
  intros Hs Hs' Hv Ha Hf.
  rewrite supported_struct in Hs, Hs'. apply andb_true_iff in Hs, Hs'.
  destruct Hs as [Hfit Hs]. destruct Hs' as [Hfit' _].
  rewrite faithful_struct in Hv. pose proof (faithful_fields_length _ _ Hv) as Hlen.
  rewrite allocatable_struct in Ha.
  rewrite size_struct, fields_size_app in Hf.
  rewrite wire_struct, Zero_struct. cbn [machine_of].
  destruct (Comparable (TStruct ms fs) && is_zero (VStruct xs)) eqn:Ez.
  - (* the zero value: the single byte 0 *)
    rewrite <- zero_fields_app. unfold wrap.
    destruct (Comparable (TStruct ms' (fs ++ extra))).
    + destruct fuel as [|f]; [lia|]. cbn [decode]. rewrite Zero_struct.
      apply (reads_bind_ret _ _ _ true); [apply reads_decodeZero_zero|apply reads_ret].
    + destruct fuel as [|f]; [lia|]. cbn [decode]. rewrite <- uvarint_0.
      apply (reads_bind_ret _ _ _ 0); [apply reads_decodeUint; unfold is_uint64; rewrite two64_eq; lia|].
      change (to_int 0) with 0.
      destruct (0 <? Z.of_nat (length (map (fun f0 => machine_of (Type_ f0)) (fs ++ extra)))) eqn:E.
      * apply reads_ret.
      * apply Z.ltb_ge in E. replace (Z.to_nat _) with O by lia. apply reads_ret.
  - (* the count of [fs], then its fields *)
    assert (Hn : length fs <> O).
    { intros Hnil. destruct fs; [|discriminate Hnil]. destruct xs; discriminate. }
    apply (reads_wrap_nonzero _ _ _ _ _ (S (2 * fields_size fs))); [| |lia].
    { destruct (count_head (length fs) Hfit) as (b & bs & E & Hb).
      rewrite E. exists b, (bs ++ wire_fields fs xs). split; [reflexivity|apply Hb, Hn]. }
    intros f Hf'. destruct f as [|f]; [lia|]. cbn [decode].
    apply (reads_bind _ _ _ _ (Z.of_nat (length fs)));
      [apply reads_decodeUint, fits_uint64, Hfit|].
    rewrite (to_int_count _ Hfit), length_map, length_app.
    replace (Z.to_nat (if Z.of_nat (length fs) <? Z.of_nat (length fs + length extra)
                       then Z.of_nat (length fs)
                       else Z.of_nat (length fs + length extra)))
      with (length fs)
      by (destruct (Z.of_nat (length fs) <? Z.of_nat (length fs + length extra)) eqn:E;
          [|apply Z.ltb_ge in E]; lia).
    set (ys := norm_fields fs xs ++ zero_fields extra).
    set (zs := zero_fields (fs ++ extra)).
    assert (Hln : length (norm_fields fs xs) = length fs) by (apply norm_fields_length, Hlen).
    assert (Hly : length ys = (length fs + length extra)%nat)
      by (unfold ys, zero_fields; rewrite length_app, length_map; lia).
    assert (Hlz : length ys = length zs)
      by (rewrite Hly; unfold zs, zero_fields; rewrite length_map, length_app; reflexivity).
    rewrite <- (wire_fields_seq0 fs no_field VNilPtr xs Hlen).
    replace (VStruct ys) with ((fun j => VStruct (filled ys zs j)) (0 + length fs)%nat).
    2:{ cbn beta. rewrite Nat.add_0_l. unfold filled, ys, zs.
        rewrite firstn_app, Hln, Nat.sub_diag, firstn_O, app_nil_r, <- Hln, firstn_all, Hln.
        rewrite zero_fields_app, skipn_app.
        replace (length (zero_fields fs)) with (length fs) by (unfold zero_fields; rewrite length_map; reflexivity).
        rewrite Nat.sub_diag, skipn_O, skipn_all2
          by (unfold zero_fields; rewrite length_map; lia).
        reflexivity. }
    change (VStruct zs) with ((fun j => VStruct (filled ys zs j)) O).
    apply reads_for_loop. intros j Hj. cbn beta.
    assert (Hj' : (j < length fs)%nat) by lia.
    rewrite Field_struct by (rewrite filled_length; lia). rewrite bind_ret_l.
    assert (Hz : nth j (filled ys zs j) VNilPtr = Zero (Type_ (nth j fs no_field))).
    { apply nth_error_to_nth. rewrite filled_nth_error by lia.
      unfold zs. rewrite zero_fields_app.
      rewrite nth_error_app1 by (unfold zero_fields; rewrite length_map; exact Hj').
      rewrite <- (zero_fields_nth fs j Hj'). apply nth_error_nth_default.
      unfold zero_fields. rewrite length_map. exact Hj'. }
    rewrite Hz.
    assert (Hm : nth j (map (fun f0 => machine_of (Type_ f0)) (fs ++ extra)) nil_machine
                 = machine_of (Type_ (nth j fs no_field))).
    { rewrite map_app, app_nth1 by (rewrite length_map; exact Hj').
      apply nth_field_machine, Hj'. }
    rewrite Hm.
    pose proof (field_size_lt ms fs _ (nth_In fs no_field Hj')) as Hsz.
    rewrite size_struct in Hsz.
    apply (reads_bind_ret _ _ _ (norm (Type_ (nth j fs no_field)) (nth j xs VNilPtr))).
    + apply (decode_wire U (S (size (Type_ (nth j fs no_field))))); [lia| | | |lia].
      * apply supported_fields_nth; assumption.
      * apply faithful_fields_nth; assumption.
      * apply allocatable_fields_nth; [exact Ha|exact Hj'|rewrite Hlen; exact Hj'].
    + cbn [set_elem]. rewrite <- (filled_step ys zs j VNilPtr Hlz) by lia.
      unfold ys at 3. rewrite app_nth1 by lia.
      rewrite (norm_fields_nth fs xs j Hlen Hj'). apply reads_ret.
Qed.

End Growth.

(** X11. What a record type that gained trailing fields makes of bytes
    written before it gained them.  Take a record type of exported fields
    built from the supported types, a value of it that is faithful (no NaN,
    no nil slice or map, no pointer to a value whose bytes begin with 0,
    every number in the range of its type) and that [Decode] has room for,
    and a registry whose entries for supported types are the machines
    [register] builds.  [Decode] of the bytes of that value into a fresh zero
    destination whose type has the same fields followed by further ones
    returns nil, consumes exactly those bytes, reproduces the fields written
    and leaves the added ones at their zero value. *)
Lemma Decode_into_grown_record
      (U : usercode) (ms ms' : methods) (fs extra : list (StructField type))
      (xs : list value) (g : registry) (fuel : nat) (rest : list Z) :
  supported (TStruct ms fs) = true ->
  supported (TStruct ms' (fs ++ extra)) = true ->
  faithful (TStruct ms fs) (VStruct xs) = true ->
  allocatable (TStruct ms fs) (VStruct xs) = true ->
  coherent g ->
  (2 * size (TStruct ms' (fs ++ extra)) <= fuel)%nat ->
  exists g' r' first,
    Decode U fuel (mkReader true (reader_of (wire (TStruct ms fs) (VStruct xs) ++ rest)))
      (Some (TPtr (TStruct ms' (fs ++ extra)), VPtr (Zero (TStruct ms' (fs ++ extra))))) g
    = (Returns None, g', r', Some (VStruct (first ++ zero_fields extra)))
    /\ data r' = rest
    /\ DeepEqual_list xs first = true.
Proof.
  intros Hs Hs' Hv Ha Hg Hf.
  destruct (get_machine_of _ g Hs' Hg) as (g' & Hget & _).
  exists g'. eexists. eexists. split; [|split].
  - unfold Decode, DecodeValue.
    cbn [ValueOf resolve Indirect v_CanSet v_type v_val r_source is_reader negb].
    rewrite (bind_step _ _ _ _ _ (d_lift_get _ g g' _ _ Hget)).
    unfold reader_of.
    rewrite (decode_grown_record U ms ms' fs extra xs fuel Hs Hs' Hv Ha Hf g' rest EOF None).
    reflexivity.
  - reflexivity.
  - pose proof (DeepEqual_norm (S (size (TStruct ms fs))) (TStruct ms fs)
                  (Nat.lt_succ_diag_r _) Hs _ Hv) as Hd.
    rewrite norm_struct in Hd.
    destruct (Comparable (TStruct ms fs) && is_zero (VStruct xs));
      [rewrite Zero_struct in Hd|]; rewrite DeepEqual_record in Hd; exact Hd.
Qed.

(** ** The registry as a cache *)

Lemma register_frame (t : type) : exists body, register t = registering t body.
Proof. destruct t; eexists; reflexivity. Qed.

(** X1. After [get(t)], whatever its outcome, the registry holds an entry for
    [t]; a machine that was returned is that entry, and after a panic the
    entry is the nil machine.  A later [get(t)] returns the entry and leaves
    the registry as it is: no type is compiled twice. *)
Theorem get_caches (t : type) (g : registry) :
  exists m,
    lookup (snd (get t g)) t = Some m
    /\ get t (snd (get t g)) = (Ok m, snd (get t g))
    /\ (forall m', fst (get t g) = Ok m' -> m' = m)
    /\ (forall p, fst (get t g) = Panic p -> m = nil_machine).
Proof.
  assert (Hmain : exists m,
             lookup (snd (get t g)) t = Some m
             /\ (forall m', fst (get t g) = Ok m' -> m' = m)
             /\ (forall p, fst (get t g) = Panic p -> m = nil_machine)).
  { unfold get, get_with. destruct (lookup g t) as [m|] eqn:Hl.
    - exists m. cbn. split; [exact Hl|]. split; [intros m' H; inversion H; reflexivity|].
      intros p H. discriminate.
    - destruct (register_frame t) as (body & ->). unfold registering. rewrite Hl.
      destruct (body (store g t (recurseMachine t))) as [[r|p| |] g2]; cbn;
        eexists; (split; [apply lookup_store_same|]);
        (split; [intros m' H; inversion H; reflexivity|intros p' H; inversion H; reflexivity]). }
  destruct Hmain as (m & Hl & Hok & Hp). exists m.
  split; [exact Hl|]. split; [apply get_cached, Hl|]. split; assumption.
Qed.

Lemma keeps_refl (g : registry) : keeps g g.
Proof. intros t m H. exact H. Qed.

Lemma keeps_trans (g1 g2 g3 : registry) : keeps g1 g2 -> keeps g2 g3 -> keeps g1 g3.
Proof. intros H12 H23 t m H. apply H23, H12, H. Qed.

Lemma Keeps_ret {A : Type} (a : A) : Keeps (ret a).
Proof. intros g. apply keeps_refl. Qed.

Lemma Keeps_panic {A : Type} (p : panic_value) : Keeps (@panic registry A p).
Proof. intros g. apply keeps_refl. Qed.

Lemma Keeps_bind {A B : Type} (c : M registry A) (k : A -> M registry B) :
  Keeps c -> (forall a, Keeps (k a)) -> Keeps (bind c k).
Proof.
  intros Hc Hk g. unfold bind. specialize (Hc g).
  destruct (c g) as [[a|p| |] g1]; cbn in *; try exact Hc.
  apply (keeps_trans g g1); [exact Hc|apply Hk].
Qed.

Lemma Keeps_get_with (c : M registry machine) (t : type) : Keeps c -> Keeps (get_with c t).
Proof.
  intros Hc g. unfold get_with. destruct (lookup g t); [apply keeps_refl|apply Hc].
Qed.

Lemma Keeps_registering (t : type) (body : M registry machine) :
  Keeps body -> Keeps (registering t body).
Proof.
  intros Hb g. unfold registering. destruct (lookup g t) as [r|] eqn:Hl; [apply keeps_refl|].
  specialize (Hb (store g t (recurseMachine t))).
  assert (Hk : forall x g2, keeps (store g t (recurseMachine t)) g2 -> keeps g (store g2 t x)).
  { intros x g2 H t' m Hl'.
    assert (Hne : t <> t') by (intros ->; congruence).
    rewrite lookup_store_other by exact Hne. apply H.
    rewrite lookup_store_other by exact Hne. exact Hl'. }
  destruct (body (store g t (recurseMachine t))) as [[r|p| |] g2]; cbn in *; apply Hk, Hb.
Qed.

Lemma Keeps_finish (t : type) (ms : methods) (m : machine) : Keeps (finish t ms m).
Proof.
  unfold finish. apply Keeps_bind.
  - destruct m; try apply Keeps_ret.
    destruct (negb (ptr_marshaler ms || val_marshaler ms)
              && negb (ptr_unmarshaler ms || val_unmarshaler ms));
      [apply Keeps_panic|apply Keeps_ret].
  - intros r. destruct (Comparable t); apply Keeps_ret.
Qed.

Lemma Keeps_register_slice (e : type) (c : M registry machine) :
  Keeps c -> Keeps (register_slice e c).
Proof.
  intros Hc. unfold register_slice. destruct (type_eqb (TSlice e) bytesType).
  - apply Keeps_ret.
  - apply Keeps_bind; [exact Hc|]. intros m. apply Keeps_ret.
Qed.

Lemma Keeps_register_bounded (n : nat) : forall t, (size t < n)%nat -> Keeps (register t).
Proof.
  induction n as [|n IH]; intros t Hn; [lia|].
  assert (Hsub : forall e, (size e < size t)%nat -> Keeps (get_with (register e) e)).
  { intros e He. apply Keeps_get_with, IH. lia. }
  destruct t; cbn [register]; apply Keeps_registering; try apply Keeps_ret.
  - apply Keeps_bind; [apply Hsub; cbn; lia|]. intros m. apply Keeps_finish.
  - apply Keeps_bind; [apply Hsub; cbn; lia|]. intros m.
    apply Keeps_bind; [|intros ms; apply Keeps_ret].
    apply Keeps_get_with, Keeps_registering, Keeps_register_slice, Hsub. cbn. lia.
  - apply Keeps_bind; [apply Hsub; cbn; lia|]. intros mk.
    apply Keeps_bind; [apply Hsub; cbn; lia|]. intros mv. apply Keeps_ret.
  - apply Keeps_bind; [apply Hsub; cbn; lia|]. intros m. apply Keeps_ret.
  - apply Keeps_register_slice, Hsub. cbn. lia.
  - apply Keeps_bind.
    + assert (Hin : forall f, In f fields -> (size (Type_ f) < size (TStruct ms fields))%nat)
        by (intros f; apply field_size_lt).
      match goal with
      | |- Keeps (?F fields []) =>
          assert (Hloop : forall xs r,
                     (forall f, In f xs -> (size (Type_ f) < size (TStruct ms fields))%nat) ->
                     Keeps (F xs r))
      end.
      { induction xs as [|f fs IHf]; intros r Hxs.
        - apply Keeps_ret.
        - destruct (PkgPath f && negb (Anonymous f)) eqn:Hp.
          + intros g0. cbn -[andb negb]. try rewrite Hp. apply keeps_refl.
          + assert (Hstep : Keeps (m <- get_with (register (Type_ f)) (Type_ f) ;;
                                  (fix fields (xs : list (StructField type)) (r : list machine)
                                     : M registry (option (list machine)) :=
                                     match xs with
                                     | [] => ret (Some r)
                                     | f :: xs' =>
                                         if PkgPath f && negb (Anonymous f) then ret None
                                         else m <- get_with (register (Type_ f)) (Type_ f) ;;
                                              fields xs' (r ++ [m])
                                     end) fs (r ++ [m]))).
            { apply Keeps_bind; [apply Hsub, Hxs; left; reflexivity|].
              intros m. apply IHf. intros f' Hf'. apply Hxs. right. exact Hf'. }
            intros g0. specialize (Hstep g0). cbn -[andb negb get_with register bind].
            try rewrite Hp. exact Hstep. }
      apply Hloop, Hin.
    + intros [r|]; apply Keeps_finish.
  - apply Keeps_finish.
Qed.

(** X2. [get(t)] never replaces or removes an entry that is already in the
    registry, for any type [t] and whether it returns or panics: a machine,
    once published, stays the machine of its type. *)
Theorem get_keeps_entries (t t' : type) (m : machine) (g : registry) :
  lookup g t' = Some m -> lookup (snd (get t g)) t' = Some m.
Proof.
  intros H. revert t' m H. change (keeps g (snd (get t g))).
  apply Keeps_get_with. apply (Keeps_register_bounded (S (size t))). lia.
Qed.

Lemma get_keeps_entries_witness :
  lookup (snd (get (TSlice (TFunc no_methods)) [(TBool, boolMachine)])) TBool
  = Some boolMachine.
Proof. apply (get_keeps_entries (TSlice (TFunc no_methods)) TBool boolMachine). reflexivity. Defined.

(** X3. The machine compiled for a type does not depend on which other type
    was compiled first. *)
Theorem get_order_independent (t1 t2 : type) :
  supported t1 = true -> supported t2 = true ->
  exists m, fst (get t2 (snd (get t1 []))) = Ok m /\ fst (get t2 []) = Ok m.
Proof.
  intros H1 H2.
  destruct (get_machine_of t1 [] H1 coherent_nil) as (g1 & E1 & Hg1).
  destruct (get_machine_of t2 g1 H2 Hg1) as (g2 & E2 & _).
  destruct (get_machine_of t2 [] H2 coherent_nil) as (g3 & E3 & _).
  exists (machine_of t2). rewrite E1. cbn [snd]. rewrite E2, E3. split; reflexivity.
Qed.

Lemma get_order_independent_witness :
  exists m, fst (get (TSlice (TInt KInt)) (snd (get (TArray 2 (TSlice (TInt KInt))) []))) = Ok m
            /\ fst (get (TSlice (TInt KInt)) []) = Ok m.
Proof.
  apply (get_order_independent (TArray 2 (TSlice (TInt KInt))) (TSlice (TInt KInt)));
    reflexivity.
Defined.

(** ** Integers on the wire *)

(** X4. [decodeUint] undoes [encodeUint]: what [encodeUint(u)] appends to a
    stream that accepts it, [decodeUint] reads back as [u], consuming exactly
    those bytes and nothing of what follows them. *)
Theorem decodeUint_encodeUint (u : Z) :
  is_uint64 u ->
  exists bs, bs <> [] /\ writes (encodeUint u) bs /\ reads decodeUint bs u.
Proof.
  intros Hu. exists (uvarint u). split.
  - destruct (uvarint_head u Hu) as (b & bs & -> & _). discriminate.
  - split; [apply writes_encodeUint, Hu|apply reads_decodeUint, Hu].
Qed.

Lemma decodeUint_encodeUint_witness :
  exists bs, bs <> [] /\ writes (encodeUint 300) bs /\ reads decodeUint bs 300.
Proof. apply (decodeUint_encodeUint 300). unfold is_uint64. rewrite two64_eq. lia. Defined.

(** X5. [decodeInt] undoes [encodeInt], for negative numbers as well: the
    zig-zag coding of the sign loses nothing over the whole range of int64. *)
Theorem decodeInt_encodeInt (i : Z) :
  is_int64 i ->
  exists bs, bs <> [] /\ writes (encodeInt i) bs /\ reads decodeInt bs i.
Proof.
  intros Hi. exists (uvarint (binary.zigzag i)). split.
  - destruct (uvarint_head _ (zigzag_range i Hi)) as (b & bs & -> & _). discriminate.
  - split; [apply writes_encodeInt, Hi|apply reads_decodeInt, Hi].
Qed.

Lemma decodeInt_encodeInt_witness :
  exists bs, bs <> [] /\ writes (encodeInt (-300)) bs /\ reads decodeInt bs (-300).
Proof. apply (decodeInt_encodeInt (-300)). unfold is_int64. rewrite two63_eq. lia. Defined.

Lemma put_loop_shape (n : nat) : forall x,
  0 <= x < 2 ^ (7 * Z.of_nat (S n)) ->
  exists pre b, binary.put_loop (S n) x = Some (pre ++ [b])
                /\ (length pre <= n)%nat
                /\ Forall (fun c => 128 <= c < 256) pre
                /\ 0 <= b < 128
                /\ (x < 128 <-> pre = []).
Proof.
  induction n as [|n IH]; intros x Hx.
  - change (2 ^ (7 * Z.of_nat 1)) with 128 in Hx.
    simpl. destruct (128 <=? x) eqn:E; [apply Z.leb_le in E; lia|].
    exists [], (to_byte x). rewrite to_byte_small by lia.
    split; [reflexivity|]. split; [cbn; lia|]. split; [constructor|].
    split; [lia|]. split; [reflexivity|lia].
  - rewrite put_loop_S. destruct (128 <=? x) eqn:E.
    + apply Z.leb_le in E.
      destruct (IH (Z.shiftr x 7)) as (pre & b & Hp & Hl & Hall & Hb & _).
      { rewrite Z.shiftr_div_pow2 by lia. split.
        - apply Z.div_pos; lia.
        - apply Z.div_lt_upper_bound; [lia|].
          rewrite <- Z.pow_add_r by lia.
          replace (7 + 7 * Z.of_nat (S n)) with (7 * Z.of_nat (S (S n))) by lia.
          lia. }
      rewrite Hp. cbn [option_map].
      exists (Z.lor (to_byte x) 128 :: pre), b.
      split; [reflexivity|]. split; [cbn [length]; lia|].
      split; [constructor; [apply continuation_byte_range|exact Hall]|].
      split; [exact Hb|]. split; [lia|discriminate].
    + apply Z.leb_gt in E.
      exists [], (to_byte x). rewrite to_byte_small by lia.
      split; [reflexivity|]. split; [cbn; lia|]. split; [constructor|].
      split; [lia|]. split; [reflexivity|lia].
Qed.

(** X6. The bytes [encodeUint] writes for an unsigned 64-bit integer are a
    well-formed varint of at most ten bytes, so the ten-byte buffer is never
    overrun: every byte but the last has its top bit set, the last has it
    clear, and a number below 128 is written as the single byte of its
    value. *)
Theorem encodeUint_shape (u : Z) :
  is_uint64 u ->
  exists pre b,
    writes (encodeUint u) (pre ++ [b])
    /\ (length pre <= 9)%nat
    /\ Forall (fun c => 128 <= c < 256) pre
    /\ 0 <= b < 128
    /\ (u < 128 <-> pre = [])
    /\ (u < 128 -> b = u).
Proof.
  intros [H0 H1].
  destruct (put_loop_shape 9 u) as (pre & b & Hp & Hl & Hall & Hb & Hsmall).
  { split; [exact H0|]. rewrite two64_eq in H1.
    change (2 ^ (7 * Z.of_nat 10)) with 1180591620717411303424. lia. }
  exists pre, b. split.
  - unfold encodeUint, binary.PutUvarint, binary.MaxVarintLen64. rewrite Hp.
    apply writes_e_write.
  - split; [exact Hl|]. split; [exact Hall|]. split; [exact Hb|]. split; [exact Hsmall|].
    intros Hu. pose proof (proj1 Hsmall Hu) as Hpre. subst pre.
    rewrite put_loop_S in Hp. destruct (128 <=? u) eqn:E.
    + apply Z.leb_le in E. lia.
    + inversion Hp. apply to_byte_small. lia.
Qed.

Lemma encodeUint_shape_witness :
  exists pre b,
    writes (encodeUint 300) (pre ++ [b])
    /\ (length pre <= 9)%nat
    /\ Forall (fun c => 128 <= c < 256) pre
    /\ 0 <= b < 128
    /\ (300 < 128 <-> pre = [])
    /\ (300 < 128 -> b = 300).
Proof. apply (encodeUint_shape 300). unfold is_uint64. rewrite two64_eq. lia. Defined.

(** ** Destinations that cannot be stored to *)

Lemma bind_never_Ok_l {St A B : Type} (c : M St A) (k : A -> M St B) (s : St) :
  (forall a, fst (c s) <> Ok a) -> forall b, fst (bind c k s) <> Ok b.
Proof.
  intros H b. unfold bind. destruct (c s) as [[a|p| |] s1]; cbn; try discriminate.
  exfalso. apply (H a). reflexivity.
Qed.

Lemma bind_never_Ok_r {St A B : Type} (c : M St A) (k : A -> M St B) (s : St) :
  (forall a s' b, fst (k a s') <> Ok b) -> forall b, fst (bind c k s) <> Ok b.
Proof.
  intros H b. unfold bind. destruct (c s) as [[a|p| |] s1]; cbn; try discriminate.
  apply H.
Qed.

Lemma recovered_nil {A : Type} (o : outcome A) :
  recovered o = Returns None -> exists a, o = Ok a.
Proof.
  destruct o as [a|p| |]; cbn; try discriminate.
  - intros _. exists a. reflexivity.
  - destruct p; discriminate.
Qed.

Lemma decode_unsettable (U : usercode) (fuel : nat) (t : type) (v : value) (s : dstate) :
  stored_whole t = true ->
  forall r, fst (decode U fuel (machine_of t) false v s) <> Ok r.
Proof.
  intros Ht. destruct fuel as [|fuel]; [discriminate|].
  assert (Hset : forall (x : value) (s' : dstate) (b : value),
             fst (@Set_ dstate false x s') <> Ok b) by discriminate.
  assert (Hpanic : forall (p : runtime_error) (s' : dstate) (b : value),
             fst (@rpanic dstate value p s') <> Ok b) by discriminate.
  destruct t; try discriminate Ht; cbn [machine_of].
  - cbn [decode]. apply bind_never_Ok_r. intros b s' r. destruct v; auto.
  - cbn [decode]. apply bind_never_Ok_r. intros b s' r. destruct v; auto.
  - cbn [decode]. apply bind_never_Ok_r. intros b s' r. destruct v; auto.
  - cbn [decode]. apply bind_never_Ok_r. intros b s' r. destruct v; auto.
  - cbn [decode]. apply bind_never_Ok_r. intros re s' r.
    apply bind_never_Ok_r. intros im s'' r'. destruct v; auto.
  - cbn [decode]. apply bind_never_Ok_l. discriminate.
  - destruct (is_bytes t); cbn [decode].
    + apply bind_never_Ok_r. intros n s' r.
      apply bind_never_Ok_r. intros b s'' r'. destruct v; auto.
    + apply bind_never_Ok_r. intros u s' r. apply bind_never_Ok_l.
      intros a. destruct (to_int u <? 0); [apply Hpanic|].
      destruct (newarray_ok t (to_int u)); [apply Hset|apply Hpanic].
  - cbn [decode]. apply bind_never_Ok_r. intros n s' r.
    apply bind_never_Ok_r. intros b s'' r'. destruct v; auto.
Qed.

(** X7. [Decode] needs a pointer.  Handed a boolean, a number, a string, a
    slice or a map itself instead of a pointer to it, [Decode] never returns
    nil, whatever the stream holds: the value it was handed cannot be stored
    to. *)
Theorem Decode_needs_pointer
  (U : usercode) (fuel : nat) (r : io_Reader) (t : type) (v : value) (g : registry) :
  supported t = true ->
  stored_whole t = true ->
  coherent g ->
  fst (fst (fst (Decode U fuel r (Some (t, v)) g))) <> Returns None.
Proof.
  intros Hs Ht Hg.
  destruct (get_machine_of t g Hs Hg) as (g' & Hget & _).
  unfold Decode, DecodeValue. cbn [ValueOf resolve v_CanSet].
  assert (Hi : Indirect (Some (mkValue t v false)) = Some (mkValue t v false))
    by (destruct t; try discriminate Ht; reflexivity).
  rewrite Hi. cbn [v_type v_val v_CanSet].
  rewrite (bind_step _ _ _ _ _ (d_lift_get t g g' _ _ Hget)).
  pose proof (decode_unsettable U fuel t v
                (mkDstate g' (r_source r) (negb (is_reader r))) Ht) as Hn.
  destruct (decode U fuel (machine_of t) false v
              (mkDstate g' (r_source r) (negb (is_reader r)))) as [o d'].
  cbn [fst] in *. intros Hr. apply recovered_nil in Hr. destruct Hr as (a & ->).
  apply (Hn a). reflexivity.
Qed.

Lemma Decode_needs_pointer_witness :
  fst (fst (fst (Decode no_usercode 5 (mkReader true (reader_of [6]))
                   (Some (TInt KInt, VInt KInt 0)) [])))
  <> Returns None.
Proof.
  apply (Decode_needs_pointer no_usercode 5 (mkReader true (reader_of [6]))
           (TInt KInt) (VInt KInt 0) []); [reflexivity|reflexivity|apply coherent_nil].
Defined.

(** X8. Handed nil, or a nil pointer of any type, [Encode] and [Decode] do
    not return an error: they panic, having written and read nothing and
    compiled nothing. *)
Theorem nil_argument_panics
  (U : usercode) (fuel : nat) (w : io_Writer) (r : io_Reader) (t : type) (g : registry) :
  Encode U fuel w None g = (Panics (RuntimeError ReflectZeroValue), g, w_sink w)
  /\ Encode U fuel w (Some (TPtr t, VNilPtr)) g
     = (Panics (RuntimeError ReflectZeroValue), g, w_sink w)
  /\ Decode U fuel r None g = (Panics (RuntimeError ReflectZeroValue), g, r_source r, None)
  /\ Decode U fuel r (Some (TPtr t, VNilPtr)) g
     = (Panics (RuntimeError ReflectZeroValue), g, r_source r, None).
Proof.
  unfold Encode, EncodeValue, Decode, DecodeValue. cbn.
  destruct (is_writer w); repeat split; reflexivity.
Qed.

(** ** Counts and numbers that do not fit *)

Lemma to_int_negative (u : Z) : two63 <= u < two64 -> to_int u < 0.
Proof.
  intros H. unfold to_int. rewrite Z.mod_small by (rewrite two63_eq in H; lia).
  replace (u <? two63) with false by (symmetry; apply Z.ltb_ge; lia). lia.
Qed.

Lemma decodeZero_pushes_back_any (z : bool) (b : Z) (bs : list Z) (g : registry) (e : error)
      (l : option Z) :
  b <> 0 ->
  decodeZero z (mkD g (mkSource (b :: bs) e l None))
  = (Ok false, mkD g (mkSource (b :: bs) e None None)).
Proof.
  intros Hb. unfold decodeZero, bind, d_readByte, d_unreadByte, d_call. cbn.
  destruct (b =? 0) eqn:E; [apply Z.eqb_eq in E; contradiction|]. reflexivity.
Qed.

(** X9. A stream that announces 2^63 elements or bytes or more does not make
    the decoder return an error: decoding a string, a byte slice, a slice or
    (into a nil channel) a channel panics on the length, for every
    destination and whatever follows the count, and [Decode] lets the panic
    through. *)
Theorem oversized_count_panics
  (U : usercode) (fuel : nat) (u : Z) (rest : list Z) (g : registry) (e : error)
  (l : option Z) (settable : bool) (v : value) :
  two63 <= u < two64 ->
  let s := mkD g (mkSource (uvarint u ++ rest) e l None) in
  fst (decode U (S fuel) stringMachine settable v s) = Panic (RuntimeError LenOutOfRange)
  /\ fst (decode U (S fuel) bytesMachine settable v s) = Panic (RuntimeError LenOutOfRange)
  /\ (forall t m,
        fst (decode U (S fuel) (sliceMachine t m) settable v s)
        = Panic (RuntimeError LenOutOfRange))
  /\ (forall z t ts tc m ms,
        fst (decode U (S fuel) (chanMachine z t ts tc m ms) settable VNilChan s)
        = Panic (RuntimeError LenOutOfRange))
  /\ (coherent g ->
      fst (fst (fst (Decode U (S fuel)
                       (mkReader true (mkSource (uvarint u ++ rest) e l None))
                       (Some (TPtr TString, VPtr v)) g)))
      = Panics (RuntimeError LenOutOfRange)).
Proof.
  intros Hu s.
  assert (Hu64 : is_uint64 u) by (unfold is_uint64; rewrite two63_eq in Hu; lia).
  pose proof (reads_decodeUint u Hu64) as Hr.
  pose proof (to_int_negative u Hu) as Hneg. apply Z.ltb_lt in Hneg.
  assert (Hge : (maxAlloc <? u) = true)
    by (apply Z.ltb_lt; unfold maxAlloc; rewrite two63_eq in Hu; lia).
  assert (Hstr : fst (decode U (S fuel) stringMachine settable v s)
                 = Panic (RuntimeError LenOutOfRange)).
  { subst s. cbn [decode]. unfold bind at 1. rewrite Hr.
    unfold bind, d_read. rewrite Hge. reflexivity. }
  split; [exact Hstr|]. split; [|split; [|split]].
  - subst s. cbn [decode]. unfold bind at 1. rewrite Hr.
    unfold bind, d_read. rewrite Hge. reflexivity.
  - intros t m. subst s. cbn [decode]. unfold bind at 1. rewrite Hr. cbv zeta.
    unfold bind. rewrite Hneg. reflexivity.
  - intros z t ts tc m ms. subst s. cbn [decode].
    destruct (uvarint_head u Hu64) as (b & bs & Eb & _ & Hnz).
    assert (Hb : b <> 0) by (apply Hnz; rewrite two63_eq in Hu; lia).
    unfold bind at 1. rewrite Eb. cbn [app].
    rewrite (decodeZero_pushes_back_any settable b (bs ++ rest) g e l Hb).
    change (b :: bs ++ rest) with ((b :: bs) ++ rest). rewrite <- Eb.
    unfold bind at 1. rewrite Hr. cbv zeta.
    unfold bind. rewrite Hneg. reflexivity.
  - intros Hg.
    destruct (get_machine_of TString g eq_refl Hg) as (g' & Hget & _).
    unfold Decode, DecodeValue.
    cbn [ValueOf resolve Indirect v_CanSet v_type v_val r_source is_reader negb].
    rewrite (bind_step _ _ _ _ _ (d_lift_get TString g g' _ _ Hget)).
    cbn [machine_of decode]. unfold bind at 1. rewrite Hr.
    unfold bind, d_read. rewrite Hge. reflexivity.
Qed.

Lemma oversized_count_panics_witness :
  fst (decode no_usercode 1 stringMachine true (VString [])
         (mkD [] (mkSource (uvarint two63 ++ [104; 105]) EOF None None)))
  = Panic (RuntimeError LenOutOfRange).
Proof.
  apply (oversized_count_panics no_usercode 0 two63 [104; 105] [] EOF None true (VString [])).
  rewrite two63_eq, two64_eq. lia.
Defined.

Lemma wrap_int_range (k : ikind) (x : Z) :
  - 2 ^ (ibits k - 1) <= wrap_int k x < 2 ^ (ibits k - 1).
Proof.
  unfold wrap_int.
  assert (H : 0 < 2 ^ (ibits k - 1)) by (destruct k; cbn; lia).
  pose proof (Z.mod_pos_bound (x + 2 ^ (ibits k - 1)) (2 * 2 ^ (ibits k - 1)) ltac:(lia)).
  lia.
Qed.

(** X10. Integers carry no width on the wire.  A number written from one
    integer type and decoded into another is stored without any error, cut
    down to the width of the destination: it arrives unchanged exactly when
    it is in the range of the destination's type. *)
Theorem Decode_into_other_int
  (U : usercode) (k k' : ikind) (x : Z) (g : registry) (fuel : nat) (rest : list Z) :
  faithful (TInt k) (VInt k x) = true ->
  coherent g ->
  (exists g' r',
      Decode U (S fuel) (mkReader true (reader_of (wire (TInt k) (VInt k x) ++ rest)))
        (Some (TPtr (TInt k'), VPtr (VInt k' 0))) g
      = (Returns None, g', r', Some (VInt k' (wrap_int k' x)))
      /\ data r' = rest)
  /\ (wrap_int k' x = x <-> - 2 ^ (ibits k' - 1) <= x < 2 ^ (ibits k' - 1)).
Proof.
  intros Hv Hg. split.
  - destruct (faithful_int k k x Hv) as [_ Hx].
    destruct (get_machine_of (TInt k') g eq_refl Hg) as (g' & Hget & _).
    exists g'. eexists. split.
    + unfold Decode, DecodeValue. cbn [ValueOf resolve Indirect v_CanSet v_type v_val r_source is_reader negb].
      rewrite (bind_step _ _ _ _ _ (d_lift_get _ g g' _ _ Hget)).
      cbn [machine_of decode wire]. unfold reader_of, bind at 1.
      rewrite (reads_decodeInt x (int_kind_range k x Hx)). reflexivity.
    + reflexivity.
  - split.
    + intros H. rewrite <- H. apply wrap_int_range.
    + apply wrap_int_id.
Qed.

Lemma Decode_into_other_int_witness :
  (exists g' r',
      Decode no_usercode 1 (mkReader true (reader_of (wire (TInt KInt) (VInt KInt 300) ++ [7])))
        (Some (TPtr (TInt KInt8), VPtr (VInt KInt8 0))) []
      = (Returns None, g', r', Some (VInt KInt8 (wrap_int KInt8 300)))
      /\ data r' = [7])
  /\ (wrap_int KInt8 300 = 300 <-> - 2 ^ (ibits KInt8 - 1) <= 300 < 2 ^ (ibits KInt8 - 1)).
Proof.
  apply (Decode_into_other_int no_usercode KInt KInt8 300 [] 0 [7]);
    [reflexivity|apply coherent_nil].
Defined.

(** ** Destinations of another length *)

Lemma Decode_into_grown_record_witness :
  exists g' r' first,
    Decode no_usercode 40
      (mkReader true
         (reader_of (wire (TStruct no_methods [mkField false false (TInt KInt)])
                       (VStruct [VInt KInt 7]) ++ [9])))
      (Some (TPtr (TStruct no_methods [mkField false false (TInt KInt);
                                       mkField false false TString]),
             VPtr (Zero (TStruct no_methods [mkField false false (TInt KInt);
                                             mkField false false TString])))) []
    = (Returns None, g', r',
       Some (VStruct (first ++ zero_fields [mkField false false TString])))
    /\ data r' = [9]
    /\ DeepEqual_list [VInt KInt 7] first = true.
Proof.
  apply (Decode_into_grown_record no_usercode no_methods no_methods
           [mkField false false (TInt KInt)] [mkField false false TString]
           [VInt KInt 7] [] 40 [9]);
    [reflexivity|reflexivity|reflexivity|reflexivity|apply coherent_nil|cbn; lia].
Defined.

Lemma fits_le (n m : nat) : (n <= m)%nat -> fits m = true -> fits n = true.
Proof. unfold fits. intros H Hm. apply Z.ltb_lt in Hm. apply Z.ltb_lt. lia. Qed.

Lemma reads_shorter_array (U : usercode) (e : type) (xs1 xs2 : list value) (fuel : nat) :
  supported e = true ->
  fits (length (xs1 ++ xs2)) = true ->
  forallb (faithful e) (xs1 ++ xs2) = true ->
  forallb (allocatable e) xs1 = true ->
  Comparable e && is_zero (VArray (xs1 ++ xs2)) = false ->
  (2 * size e + 2 <= fuel)%nat ->
  reads (decode U fuel (machine_of (TArray (length xs1) e)) true (Zero (TArray (length xs1) e)))
        (count (length (xs1 ++ xs2)) ++ flat_map (wire e) xs1)
        (VArray (map (norm e) xs1)).
Proof.
  intros Hs Hfit Hv Ha Hz Hf.
  rewrite forallb_forall in Hv. rewrite forallb_forall in Ha.
  assert (Hinner : forall f, (S (2 * size e) <= f)%nat ->
            reads (decode U f (arrayMachine (length xs1) (machine_of e)) true
                     (Zero (TArray (length xs1) e)))
                  (count (length (xs1 ++ xs2)) ++ flat_map (wire e) xs1)
                  (VArray (map (norm e) xs1))).
  { intros f Hf'. destruct f as [|f]; [lia|]. cbn [decode].
    apply (reads_bind _ _ _ _ (Z.of_nat (length (xs1 ++ xs2))));
      [apply reads_decodeUint, fits_uint64, Hfit|].
    rewrite (to_int_count _ Hfit).
    replace (Z.of_nat (length (xs1 ++ xs2)) <? Z.of_nat (length xs1)) with false
      by (symmetry; apply Z.ltb_ge; rewrite length_app; lia).
    rewrite Nat2Z.id.
    change (Zero (TArray (length xs1) e)) with (VArray (repeat (Zero e) (length xs1))).
    apply (reads_elements U _ e VArray xs1 f).
    - intros l j Hj. apply Index_array, Hj.
    - reflexivity.
    - intros x Hx. apply (decode_wire U (S (size e))); [lia|exact Hs| |apply Ha, Hx|lia].
      apply Hv, in_or_app. left. exact Hx. }
  cbn [machine_of]. unfold wrap. cbn [Comparable].
  destruct (Comparable e) eqn:Ec; [|apply Hinner; lia].
  cbn [andb] in Hz.
  destruct (count_head (length (xs1 ++ xs2)) Hfit) as (b & bs & E & Hb).
  assert (Hnz : b <> 0).
  { apply Hb. intros H0. apply length_zero_iff_nil in H0. rewrite H0 in Hz. discriminate Hz. }
  destruct fuel as [|f]; [lia|]. cbn [decode].
  rewrite E. cbn [app]. apply reads_after_decodeZero; [exact Hnz|].
  change (b :: bs ++ flat_map (wire e) xs1) with ((b :: bs) ++ flat_map (wire e) xs1).
  rewrite <- E. apply Hinner. lia.
Qed.

(** X12. An array type that became shorter.  Take an array of [n1 + n2]
    elements of a supported type, every element faithful (no NaN, no nil slice
    or map, no pointer to a value whose bytes begin with 0, every number in
    the range of its type), the first [n1] of them values [Decode] has room
    for, the array not the zero value of a comparable type (that one is
    written as the single byte 0), and a registry whose entries for supported
    types are the machines [register] builds.  Decoding the bytes of that
    array into a zero array of [n1] elements returns nil with the first [n1]
    elements stored, and stops there: the bytes of the other [n2] elements
    are still in the stream, in front of whatever was written after the
    array. *)
Theorem Decode_into_shorter_array
  (U : usercode) (e : type) (xs1 xs2 : list value) (g : registry) (fuel : nat)
  (rest : list Z) :
  supported e = true ->
  fits (length (xs1 ++ xs2)) = true ->
  forallb (faithful e) (xs1 ++ xs2) = true ->
  forallb (allocatable e) xs1 = true ->
  Comparable e && is_zero (VArray (xs1 ++ xs2)) = false ->
  coherent g ->
  (2 * size e + 2 <= fuel)%nat ->
  exists g' r',
    Decode U fuel
      (mkReader true
         (reader_of (wire (TArray (length (xs1 ++ xs2)) e) (VArray (xs1 ++ xs2)) ++ rest)))
      (Some (TPtr (TArray (length xs1) e), VPtr (Zero (TArray (length xs1) e)))) g
    = (Returns None, g', r', Some (VArray (map (norm e) xs1)))
    /\ data r' = flat_map (wire e) xs2 ++ rest.
Proof.
  intros Hs Hfit Hv Ha Hz Hg Hf.
  assert (Hs1 : supported (TArray (length xs1) e) = true).
  { cbn [supported]. rewrite Hs, andb_true_r.
    apply (fits_le _ (length (xs1 ++ xs2))); [rewrite length_app; lia|exact Hfit]. }
  destruct (get_machine_of _ g Hs1 Hg) as (g' & Hget & _).
  exists g'. eexists. split.
  - unfold Decode, DecodeValue.
    cbn [ValueOf resolve Indirect v_CanSet v_type v_val r_source is_reader negb].
    rewrite (bind_step _ _ _ _ _ (d_lift_get _ g g' _ _ Hget)).
    unfold reader_of. cbn [wire Comparable]. rewrite Hz.
    rewrite flat_map_app, app_assoc, <- (app_assoc _ _ rest).
    rewrite (reads_shorter_array U e xs1 xs2 fuel Hs Hfit Hv Ha Hz Hf g' _ EOF None).
    reflexivity.
  - reflexivity.
Qed.

Lemma Decode_into_shorter_array_witness :
  exists g' r',
    Decode no_usercode 5
      (mkReader true
         (reader_of (wire (TArray (length ([VInt KInt 1] ++ [VInt KInt 2; VInt KInt 3]))
                             (TInt KInt))
                       (VArray ([VInt KInt 1] ++ [VInt KInt 2; VInt KInt 3])) ++ [9])))
      (Some (TPtr (TArray (length [VInt KInt 1]) (TInt KInt)),
             VPtr (Zero (TArray (length [VInt KInt 1]) (TInt KInt))))) []
    = (Returns None, g', r', Some (VArray (map (norm (TInt KInt)) [VInt KInt 1])))
    /\ data r' = flat_map (wire (TInt KInt)) [VInt KInt 2; VInt KInt 3] ++ [9].
Proof.
  apply (Decode_into_shorter_array no_usercode (TInt KInt) [VInt KInt 1]
           [VInt KInt 2; VInt KInt 3] [] 5 [9]);
    [reflexivity|reflexivity|reflexivity|reflexivity|reflexivity|apply coherent_nil|cbn; lia].
Defined.

(** ** Several values on one stream *)

(** [Encode(&buf, &v)] into a buffer that already holds [w]. *)
Lemma Encode_appends (U : usercode) (t : type) (v : value) (g : registry) (fuel : nat)
      (w : list Z) :
  supported t = true -> faithful t v = true -> coherent g ->
  (2 * size t <= fuel)%nat ->
  exists g',
    Encode U fuel (mkWriter true (buffer w)) (Some (TPtr t, VPtr v)) g
    = (Returns None, g', buffer (w ++ wire t v))
    /\ coherent g'.
Proof.
  intros Hs Hv Hg Hf.
  destruct (get_machine_of t g Hs Hg) as (g' & Hget & Hg').
  exists g'. split; [|exact Hg'].
  unfold Encode, EncodeValue. cbn [ValueOf resolve Indirect v_CanSet v_type v_val is_writer w_sink].
  rewrite (bind_step _ _ _ _ _ (e_lift_get t g g' _ _ Hget)).
  unfold buffer.
  rewrite (encode_wire U (S (size t)) t ltac:(lia) Hs v Hv fuel true Hf g' w EOF).
  reflexivity.
Qed.

(** [Decode(r, &dst)] from a stream that has been read from before. *)
Lemma Decode_continues (U : usercode) (t : type) (v : value) (g : registry) (fuel : nat)
      (rest : list Z) (l : option Z) :
  supported t = true -> faithful t v = true -> allocatable t v = true -> coherent g ->
  (2 * size t <= fuel)%nat ->
  exists g',
    Decode U fuel (mkReader true (mkSource (wire t v ++ rest) EOF l None))
      (Some (TPtr t, VPtr (Zero t))) g
    = (Returns None, g', mkSource rest EOF (last_after (wire t v) l) None, Some (norm t v))
    /\ coherent g'.
Proof.
  intros Hs Hv Ha Hg Hf.
  destruct (get_machine_of t g Hs Hg) as (g' & Hget & Hg').
  exists g'. split; [|exact Hg'].
  unfold Decode, DecodeValue.
  cbn [ValueOf resolve Indirect v_CanSet v_type v_val r_source is_reader negb].
  rewrite (bind_step _ _ _ _ _ (d_lift_get t g g' _ _ Hget)).
  rewrite (decode_wire U (S (size t)) t ltac:(lia) Hs v Hv Ha fuel Hf g' rest EOF l).
  reflexivity.
Qed.

(** X13. Values written one after another to the same stream are read back
    one after another.  For two values of supported types, both faithful (no
    NaN, no nil slice or map, no pointer to a value whose bytes begin with 0,
    every number in the range of its type) and both values [Decode] has room
    for, and a registry whose entries for supported types are the machines
    [register] builds: two [Encode] calls on one buffer followed by two
    [Decode] calls on its bytes, into zero destinations, all return nil, each
    [Decode] yields a value deep-equal to the one written in its place, and
    the stream ends up empty. *)
Theorem Encode_Decode_in_sequence
  (U : usercode) (t1 t2 : type) (v1 v2 : value) (g : registry) (fuel : nat) :
  supported t1 = true -> faithful t1 v1 = true -> allocatable t1 v1 = true ->
  supported t2 = true -> faithful t2 v2 = true -> allocatable t2 v2 = true ->
  coherent g ->
  (2 * size t1 <= fuel)%nat -> (2 * size t2 <= fuel)%nat ->
  let '(r1, g1, k1) := Encode U fuel (mkWriter true (buffer [])) (Some (TPtr t1, VPtr v1)) g in
  let '(r2, g2, k2) := Encode U fuel (mkWriter true k1) (Some (TPtr t2, VPtr v2)) g1 in
  let '(r3, g3, s3, o1) :=
    Decode U fuel (mkReader true (reader_of (written k2))) (Some (TPtr t1, VPtr (Zero t1))) g2 in
  let '(r4, _, s4, o2) :=
    Decode U fuel (mkReader true s3) (Some (TPtr t2, VPtr (Zero t2))) g3 in
  r1 = Returns None /\ r2 = Returns None /\ r3 = Returns None /\ r4 = Returns None
  /\ (exists a, o1 = Some a /\ DeepEqual v1 a = true)
  /\ (exists b, o2 = Some b /\ DeepEqual v2 b = true)
  /\ data s4 = [].
Proof.
  intros Hs1 Hv1 Ha1 Hs2 Hv2 Ha2 Hg Hf1 Hf2.
  destruct (Encode_appends U t1 v1 g fuel [] Hs1 Hv1 Hg Hf1) as (g1 & E1 & Hg1).
  rewrite E1.
  destruct (Encode_appends U t2 v2 g1 fuel ([] ++ wire t1 v1) Hs2 Hv2 Hg1 Hf2)
    as (g2 & E2 & Hg2).
  rewrite E2. cbn [app buffer written]. unfold reader_of.
  destruct (Decode_continues U t1 v1 g2 fuel (wire t2 v2) None Hs1 Hv1 Ha1 Hg2 Hf1)
    as (g3 & E3 & Hg3).
  rewrite E3.
  destruct (Decode_continues U t2 v2 g3 fuel [] (last_after (wire t1 v1) None)
              Hs2 Hv2 Ha2 Hg3 Hf2) as (g4 & E4 & _).
  rewrite app_nil_r in E4. rewrite E4.
  repeat (split; [reflexivity|]).
  split; [|split; [|reflexivity]].
  - exists (norm t1 v1). split; [reflexivity|].
    apply (DeepEqual_norm (S (size t1))); [lia|exact Hs1|exact Hv1].
  - exists (norm t2 v2). split; [reflexivity|].
    apply (DeepEqual_norm (S (size t2))); [lia|exact Hs2|exact Hv2].
Qed.

Lemma Encode_Decode_in_sequence_witness :
  let '(r1, g1, k1) :=
    Encode no_usercode 40 (mkWriter true (buffer []))
      (Some (TPtr sample_record, VPtr sample_value)) [] in
  let '(r2, g2, k2) :=
    Encode no_usercode 40 (mkWriter true k1) (Some (TPtr TString, VPtr (VString [104; 105]))) g1 in
  let '(r3, g3, s3, o1) :=
    Decode no_usercode 40 (mkReader true (reader_of (written k2)))
      (Some (TPtr sample_record, VPtr (Zero sample_record))) g2 in
  let '(r4, _, s4, o2) :=
    Decode no_usercode 40 (mkReader true s3) (Some (TPtr TString, VPtr (Zero TString))) g3 in
  r1 = Returns None /\ r2 = Returns None /\ r3 = Returns None /\ r4 = Returns None
  /\ (exists a, o1 = Some a /\ DeepEqual sample_value a = true)
  /\ (exists b, o2 = Some b /\ DeepEqual (VString [104; 105]) b = true)
  /\ data s4 = [].
Proof.
  apply (Encode_Decode_in_sequence no_usercode sample_record TString sample_value
           (VString [104; 105]) [] 40);
    [reflexivity|reflexivity|reflexivity|reflexivity|reflexivity|reflexivity
    |apply coherent_nil|cbn; lia|cbn; lia].
Defined.

(** X14. [Encode(w, v)] and [Encode(w, &v)] are the same call.  For a value
    that is not itself a pointer, of a supported type without maps (the
    entries of a map are written in an order that varies from call to call),
    faithful (no NaN, no nil slice, no pointer to a value whose bytes begin
    with 0, every number in the range of its type), and a registry whose
    entries for supported types are the machines [register] builds, both
    calls return nil and append the same bytes to the buffer. *)
Theorem Encode_value_or_pointer
  (U : usercode) (t : type) (v : value) (g : registry) (fuel : nat) (w : list Z) :
  supported t = true -> map_free t = true -> faithful t v = true -> coherent g ->
  (2 * size t <= fuel)%nat ->
  (forall e, t <> TPtr e) ->
  Encode U fuel (mkWriter true (buffer w)) (Some (t, v)) g
  = Encode U fuel (mkWriter true (buffer w)) (Some (TPtr t, VPtr v)) g
  /\ fst (fst (Encode U fuel (mkWriter true (buffer w)) (Some (t, v)) g)) = Returns None
  /\ snd (Encode U fuel (mkWriter true (buffer w)) (Some (t, v)) g) = buffer (w ++ wire t v).
Proof.
  intros Hs _ Hv Hg Hf Hp.
  destruct (get_machine_of t g Hs Hg) as (g' & Hget & _).
  assert (E : Encode U fuel (mkWriter true (buffer w)) (Some (TPtr t, VPtr v)) g
              = (Returns None, g', buffer (w ++ wire t v))).
  { unfold Encode, EncodeValue.
    cbn [ValueOf resolve Indirect v_CanSet v_type v_val is_writer w_sink].
    rewrite (bind_step _ _ _ _ _ (e_lift_get t g g' _ _ Hget)).
    unfold buffer.
    rewrite (encode_wire U (S (size t)) t ltac:(lia) Hs v Hv fuel true Hf g' w EOF).
    reflexivity. }
  assert (E' : Encode U fuel (mkWriter true (buffer w)) (Some (t, v)) g
               = (Returns None, g', buffer (w ++ wire t v))).
  { assert (Hi : Indirect (Some (mkValue t v false)) = Some (mkValue t v false))
      by (destruct t; try reflexivity; exfalso; apply (Hp t); reflexivity).
    unfold Encode, EncodeValue. cbn [ValueOf resolve v_CanSet is_writer w_sink].
    rewrite Hi. cbn [v_CanSet v_type v_val].
    rewrite (bind_step _ _ _ _ _ (e_lift_get t g g' _ _ Hget)).
    unfold buffer.
    rewrite (encode_wire U (S (size t)) t ltac:(lia) Hs v Hv fuel false Hf g' w EOF).
    reflexivity. }
  rewrite E', E. repeat split.
Qed.

Lemma Encode_value_or_pointer_witness :
  Encode no_usercode 40 (mkWriter true (buffer [1])) (Some (plain_record, plain_value)) []
  = Encode no_usercode 40 (mkWriter true (buffer [1]))
      (Some (TPtr plain_record, VPtr plain_value)) []
  /\ fst (fst (Encode no_usercode 40 (mkWriter true (buffer [1]))
                 (Some (plain_record, plain_value)) [])) = Returns None
  /\ snd (Encode no_usercode 40 (mkWriter true (buffer [1]))
            (Some (plain_record, plain_value)) [])
     = buffer ([1] ++ wire plain_record plain_value).
Proof.
  apply (Encode_value_or_pointer no_usercode plain_record plain_value [] 40 [1]);
    [reflexivity|reflexivity|reflexivity|apply coherent_nil|cbn; lia|discriminate].
Defined.

(** ** Interfaces *)

Lemma get_interface (g : registry) :
  coherent g ->
  (forall m, lookup g TInterface = Some m -> m = interfaceMachine VNilIface) ->
  exists ga,
    get TInterface g = (Ok (interfaceMachine VNilIface), ga)
    /\ coherent ga
    /\ lookup ga TInterface = Some (interfaceMachine VNilIface).
Proof.
  intros Hg Hl0. unfold get, get_with.
  destruct (lookup g TInterface) as [m|] eqn:Hl.
  - rewrite (Hl0 m eq_refl) in *. exists g. auto.
  - exists (store (store g TInterface (recurseMachine TInterface)) TInterface
              (interfaceMachine VNilIface)).
    split; [|split].
    + cbn [register]. unfold registering. rewrite Hl. reflexivity.
    + repeat apply coherent_store_unsupported; auto.
    + apply lookup_store_same.
Qed.

(** X15. An interface that holds a pointer.  Take a value of a supported
    type, faithful (no NaN, no nil slice or map, no pointer to a value whose
    bytes begin with 0, every number in the range of its type), whose own
    bytes do not begin with 0, that [Decode] has room for, and a registry
    whose entries for supported types and for the interface type, if any, are
    the machines [register] builds.  [Encode] of an interface holding a
    pointer to that value writes the bytes of the value and nothing that
    tells its type; [Decode] of those bytes into an interface that already
    holds a pointer to the zero value of that type returns nil and fills
    that value with one deep-equal to the original. *)
Theorem interface_round_trip
  (U : usercode) (e : type) (x : value) (g : registry) (fuel : nat) (rest : list Z) :
  supported e = true ->
  faithful e x = true ->
  leading_zero (wire e x) = false ->
  allocatable e x = true ->
  coherent g ->
  (forall m, lookup g TInterface = Some m -> m = interfaceMachine VNilIface) ->
  (2 * size e + 3 <= fuel)%nat ->
  let '(r1, g1, k) :=
    Encode U fuel (mkWriter true (buffer []))
      (Some (TPtr TInterface, VPtr (VIface (TPtr e) (VPtr x)))) g in
  let '(r2, _, s, v') :=
    Decode U fuel (mkReader true (reader_of (written k ++ rest)))
      (Some (TPtr TInterface, VPtr (VIface (TPtr e) (VPtr (Zero e))))) g1 in
  r1 = Returns None
  /\ written k = wire e x
  /\ r2 = Returns None
  /\ data s = rest
  /\ v' = Some (VIface (TPtr e) (VPtr (norm e x)))
  /\ DeepEqual (VIface (TPtr e) (VPtr x)) (VIface (TPtr e) (VPtr (norm e x))) = true.
Proof.
  intros Hs Hv Hz Ha Hg Hl Hf.
  destruct fuel as [|f]; [lia|].
  destruct (get_interface g Hg Hl) as (ga & Hgeta & Hga & Hla).
  assert (Hsp : supported (TPtr e) = true) by exact Hs.
  assert (Hvp : faithful (TPtr e) (VPtr x) = true)
    by (cbn [faithful]; rewrite Hv, Hz; reflexivity).
  destruct (get_machine_of (TPtr e) ga Hsp Hga) as (gb & Hgetb & Hgb).
  assert (Hlb : lookup gb TInterface = Some (interfaceMachine VNilIface)).
  { pose proof (Keeps_get_with (register (TPtr e)) (TPtr e)
                  (Keeps_register_bounded (S (size (TPtr e))) (TPtr e) (Nat.lt_succ_diag_r _))
                  ga TInterface _ Hla) as Hk.
    fold (get (TPtr e)) in Hk. rewrite Hgetb in Hk. exact Hk. }
  destruct (get_machine_of (TPtr e) gb Hsp Hgb) as (gc & Hgetc & _).
  destruct (leading_zero_false (wire e x) (wire_nonempty e x Hs Hv) Hz) as (b & bs & Ew & Hb).
  (* Encode *)
  unfold Encode, EncodeValue.
  cbn [ValueOf resolve Indirect v_CanSet v_type v_val is_writer w_sink].
  rewrite (bind_step _ _ _ _ _ (e_lift_get _ g ga _ _ Hgeta)).
  cbn [encode].
  rewrite (bind_step _ _ _ _ _ (e_lift_get _ ga gb _ _ Hgetb)).
  unfold buffer.
  rewrite (encode_wire U (S (size (TPtr e))) (TPtr e) (Nat.lt_succ_diag_r _) Hsp (VPtr x) Hvp
             f false ltac:(cbn [size]; lia) gb [] EOF).
  cbn [recovered e_types e_w written app wire].
  (* Decode *)
  unfold Decode, DecodeValue.
  cbn [ValueOf resolve Indirect v_CanSet v_type v_val r_source is_reader negb].
  rewrite (bind_step _ _ _ _ _ (d_lift_get _ gb gb _ _ (get_cached _ _ _ Hlb))).
  cbn [decode]. unfold reader_of. rewrite Ew. cbn [app].
  rewrite (bind_step _ _ _ _ _ (decodeZero_pushes_back_any true b (bs ++ rest) gb EOF None Hb)).
  rewrite (bind_step _ _ _ _ _ (d_lift_get _ gb gc _ _ Hgetc)).
  destruct f as [|f']; [lia|].
  assert (Hin : decode U (S f') (machine_of (TPtr e)) false (VPtr (Zero e))
                  (mkD gc (mkSource (b :: bs ++ rest) EOF None None))
                = (Ok (VPtr (norm e x)),
                   mkD gc (mkSource rest EOF (last_after (wire e x) None) None))).
  { cbn [machine_of decode].
    rewrite (bind_step _ _ _ _ _
               (decodeZero_pushes_back_any false b (bs ++ rest) gc EOF None Hb)).
    rewrite bind_ret_l.
    change (b :: bs ++ rest) with ((b :: bs) ++ rest). rewrite <- Ew.
    rewrite (bind_step _ _ _ _ _
               (decode_wire U (S (size e)) e (Nat.lt_succ_diag_r _) Hs x Hv Ha f' ltac:(lia)
                  gc rest EOF None)).
    reflexivity. }
  rewrite (bind_step _ _ _ _ _ Hin).
  cbn.
  repeat (split; [reflexivity|]).
  rewrite type_eqb_refl. cbn [andb].
  apply (DeepEqual_norm (S (size e))); [lia|exact Hs|exact Hv].
Qed.

Lemma interface_round_trip_witness :
  let '(r1, g1, k) :=
    Encode no_usercode 40 (mkWriter true (buffer []))
      (Some (TPtr TInterface, VPtr (VIface (TPtr sample_record) (VPtr sample_value)))) [] in
  let '(r2, _, s, v') :=
    Decode no_usercode 40 (mkReader true (reader_of (written k ++ [9])))
      (Some (TPtr TInterface, VPtr (VIface (TPtr sample_record) (VPtr (Zero sample_record)))))
      g1 in
  r1 = Returns None
  /\ written k = wire sample_record sample_value
  /\ r2 = Returns None
  /\ data s = [9]
  /\ v' = Some (VIface (TPtr sample_record) (VPtr (norm sample_record sample_value)))
  /\ DeepEqual (VIface (TPtr sample_record) (VPtr sample_value))
       (VIface (TPtr sample_record) (VPtr (norm sample_record sample_value))) = true.
Proof.
  apply (interface_round_trip no_usercode sample_record sample_value [] 40 [9]);
    [reflexivity|reflexivity|reflexivity|reflexivity|apply coherent_nil
    |intros m H; discriminate H|cbn; lia].
Defined.

(** ** The wire format, for any reading of "writes" *)

(** [encode] with the machine of a supported type writes [wire], in every
    sense of "writes" that holds of [e.write] and is kept by sequencing. *)
Section EncodeRules.

Variable sent : M estate unit -> list Z -> Prop.

Hypothesis sent_ret : sent (ret tt) [].
Hypothesis sent_bind_k :
  forall (c : M estate unit) (k : unit -> M estate unit) (b1 b2 : list Z),
    sent c b1 -> sent (k tt) b2 -> sent (bind c k) (b1 ++ b2).
Hypothesis sent_e_write : forall b : list Z, sent (e_write b) b.

Lemma sent_bind (c1 c2 : M estate unit) (b1 b2 : list Z) :
  sent c1 b1 -> sent c2 b2 -> sent (bind c1 (fun _ => c2)) (b1 ++ b2).
Proof. intros H1 H2. apply sent_bind_k; assumption. Qed.

Lemma sent_for_loop (body : nat -> unit -> M estate unit) (chunks : nat -> list Z) (n : nat) :
  forall i,
    (forall j, (i <= j < i + n)%nat -> sent (body j tt) (chunks j)) ->
    sent (for_loop n i body tt) (flat_map chunks (seq i n)).
Proof.
  induction n as [|n IH]; intros i Hb; cbn [for_loop seq flat_map].
  - apply sent_ret.
  - apply sent_bind_k; [apply Hb; lia|].
    apply IH. intros j Hj. apply Hb. lia.
Qed.

Lemma sent_encodeUint (u : Z) : is_uint64 u -> sent (encodeUint u) (uvarint u).
Proof.
  intros Hu. unfold encodeUint. rewrite (uvarint_spec u Hu). apply sent_e_write.
Qed.

Lemma sent_encodeInt (i : Z) : is_int64 i -> sent (encodeInt i) (uvarint (binary.zigzag i)).
Proof.
  intros Hi. unfold encodeInt, binary.PutVarint.
  rewrite (uvarint_spec _ (zigzag_range i Hi)). apply sent_e_write.
Qed.

Lemma sent_range {A : Type} (body : nat -> A -> M estate unit) (chunks : nat -> list Z)
      (d : A) (xs : list A) :
  forall i,
    (forall j, (j < length xs)%nat -> sent (body (i + j)%nat (nth j xs d)) (chunks (i + j)%nat)) ->
    sent (range xs i body) (flat_map chunks (seq i (length xs))).
Proof.
  induction xs as [|x xs IH]; intros i Hb; cbn [range length seq flat_map].
  - apply sent_ret.
  - apply sent_bind.
    + specialize (Hb O ltac:(cbn; lia)). rewrite Nat.add_0_r in Hb. exact Hb.
    + apply IH. intros j Hj. specialize (Hb (S j) ltac:(cbn; lia)).
      rewrite Nat.add_succ_r in Hb. exact Hb.
Qed.

Lemma sent_count (n : nat) :
  fits n = true -> sent (encodeUint (to_uint64 (Z.of_nat n))) (count n).
Proof.
  intros H. rewrite (count_to_uint64 n H). apply sent_encodeUint, fits_uint64, H.
Qed.

Section EncodeRulesMachines.

Variable U : usercode.

Lemma sent_wrap (t : type) (m : machine) (a : bool) (v : value) (bs : list Z) (k : nat) :
  (forall f, (k <= f)%nat -> sent (encode U f m a v) bs) ->
  forall f, (S k <= f)%nat ->
    sent (encode U f (wrap t m) a v) (if Comparable t && is_zero v then [0] else bs).
Proof.
  intros H f Hf. unfold wrap. destruct (Comparable t); cbn [andb].
  - destruct f as [|f]; [lia|]. cbn [encode].
    destruct (is_zero v); [apply sent_e_write|apply H; lia].
  - apply H. lia.
Qed.

Lemma sent_elements (m : machine) (e : type) (a : bool) (v : value) (xs : list value) (f : nat) :
  (forall j, (j < length xs)%nat ->
             exists a', @Index estate a v j = ret (nth j xs VNilPtr, a')) ->
  (forall x a', In x xs -> sent (encode U f m a' x) (wire e x)) ->
  sent (for_loop (length xs) 0
            (fun i _ => bind (Index a v i) (fun xa => encode U f m (snd xa) (fst xa))) tt)
         (flat_map (wire e) xs).
Proof.
  intros Hidx Hx.
  rewrite <- (flat_map_seq_nth (wire e) VNilPtr xs 0).
  apply sent_for_loop. intros j Hj.
  destruct (Hidx j ltac:(lia)) as (a' & Hi).
  rewrite Hi, bind_ret_l. cbn [fst snd]. rewrite Nat.sub_0_r.
  apply Hx. apply nth_In. lia.
Qed.

End EncodeRulesMachines.

Lemma encode_sent (U : usercode) (n : nat) :
  forall t, (size t < n)%nat -> supported t = true ->
  forall v, faithful t v = true ->
  forall fuel a, (2 * size t <= fuel)%nat ->
    sent (encode U fuel (machine_of t) a v) (wire t v).
Proof.
  induction n as [|n IH]; intros t Hn Hs v Hv fuel a Hf; [lia|].
  destruct t; try discriminate Hs; destruct v; try discriminate Hv;
    try rewrite size_struct in Hf, Hn; cbn [size] in Hf, Hn.
  - (* bool *)
    destruct fuel; [lia|]. cbn. destruct b; apply sent_e_write.
  - (* int *)
    destruct fuel; [lia|]. apply faithful_int in Hv. destruct Hv as [_ Hv].
    cbn [machine_of encode wire]. apply sent_encodeInt, (int_kind_range k), Hv.
  - (* uint *)
    destruct fuel; [lia|]. apply faithful_uint in Hv. destruct Hv as [_ Hv].
    cbn [machine_of encode wire]. apply sent_encodeUint, (uint_kind_range k), Hv.
  - (* float64 *)
    destruct fuel; [lia|]. cbn [faithful] in Hv.
    rewrite !andb_true_iff, Z.leb_le, Z.ltb_lt in Hv.
    cbn [machine_of encode wire]. apply sent_encodeUint. unfold is_uint64. lia.
  - (* complex128 *)
    destruct fuel; [lia|]. cbn [faithful] in Hv.
    rewrite !andb_true_iff, !Z.leb_le, !Z.ltb_lt in Hv.
    cbn [machine_of encode wire].
    apply sent_bind; apply sent_encodeUint; unfold is_uint64; lia.
  - (* array *)
    cbn [supported] in Hs. apply andb_true_iff in Hs. destruct Hs as [Hfit Hs].
    cbn [faithful] in Hv. apply andb_true_iff in Hv. destruct Hv as [Hlen Hv].
    apply Nat.eqb_eq in Hlen. rewrite forallb_forall in Hv.
    cbn [machine_of wire].
    apply (sent_wrap U _ _ _ _ _ (S (2 * size t))); [|lia].
    intros f Hf'. destruct f as [|f]; [lia|]. cbn [encode].
    apply sent_bind; [apply sent_count, Hfit|].
    subst len. apply sent_elements.
    + intros j Hj. exists a. apply Index_array, Hj.
    + intros x a' Hx. apply (IH t); [lia|exact Hs|apply Hv, Hx|lia].
  - (* map *)
    cbn [supported] in Hs. rewrite !andb_true_iff in Hs. destruct Hs as [[_ Hs1] Hs2].
    cbn [faithful] in Hv. rewrite !andb_true_iff in Hv. destruct Hv as [[Hfit _] Hv].
    rewrite forallb_forall in Hv.
    destruct fuel as [|f]; [lia|]. cbn [machine_of encode wire].
    apply sent_bind; [apply sent_count, Hfit|].
    rewrite <- (flat_map_seq_nth0 (fun kx => wire t1 (fst kx) ++ wire t2 (snd kx))
                  (VNilPtr, VNilPtr) entries).
    apply (sent_range _ _ (VNilPtr, VNilPtr)). intros j Hj. cbn [Nat.add].
    specialize (Hv _ (nth_In entries (VNilPtr, VNilPtr) Hj)).
    apply andb_true_iff in Hv. destruct Hv as [Hk Hx].
    apply sent_bind; [apply (IH t1)|apply (IH t2)]; try assumption; lia.
  - (* nil pointer *)
    destruct fuel; [lia|]. cbn. apply sent_e_write.
  - (* pointer *)
    cbn [supported] in Hs. cbn [faithful] in Hv. apply andb_true_iff in Hv.
    destruct fuel as [|f]; [lia|]. cbn [machine_of encode wire].
    apply (IH t); [lia|exact Hs|apply Hv|lia].
  - (* slice *)
    cbn [supported] in Hs. cbn [faithful] in Hv. apply andb_true_iff in Hv.
    destruct Hv as [Hfit Hv].
    destruct fuel as [|f]; [lia|]. cbn [machine_of wire].
    destruct (is_bytes t) eqn:Eb.
    + apply is_bytes_elem in Eb. subst t. cbn [encode].
      apply sent_bind; [apply sent_count, Hfit|].
      rewrite (Bytes_faithful elems Hv). apply sent_e_write.
    + cbn [encode]. rewrite forallb_forall in Hv.
      apply sent_bind; [apply sent_count, Hfit|].
      apply sent_elements.
      * intros j Hj. exists true. apply Index_slice, Hj.
      * intros x a' Hx. apply (IH t); [lia|exact Hs|apply Hv, Hx|lia].
  - (* string *)
    destruct fuel; [lia|]. cbn [faithful] in Hv. apply andb_true_iff in Hv.
    cbn [machine_of encode wire]. unfold e_writeString.
    apply sent_bind; [apply sent_count, Hv|apply sent_e_write].
  - (* record *)
    rewrite supported_struct in Hs. apply andb_true_iff in Hs. destruct Hs as [Hfit Hs].
    rewrite faithful_struct in Hv. pose proof (faithful_fields_length _ _ Hv) as Hlen.
    rewrite wire_struct. cbn [machine_of].
    apply (sent_wrap U _ _ _ _ _ (S (2 * fields_size fields))); [|lia].
    intros f Hf'. destruct f as [|f]; [lia|]. cbn [encode]. rewrite length_map.
    apply sent_bind; [apply sent_count, Hfit|].
    rewrite <- (wire_fields_seq0 fields no_field VNilPtr fields0 Hlen).
    rewrite <- (length_map (fun f => machine_of (Type_ f)) fields).
    apply (sent_range _ _ nil_machine). rewrite length_map. intros j Hj. cbn [Nat.add].
    rewrite (Field_struct fields0 j ltac:(lia)), bind_ret_l, (nth_field_machine fields j Hj).
    pose proof (field_size_lt ms fields _ (nth_In fields no_field Hj)) as Hsz.
    rewrite size_struct in Hsz.
    apply IH.
    + lia.
    + apply supported_fields_nth; assumption.
    + apply faithful_fields_nth; assumption.
    + lia.
Qed.

End EncodeRules.


(** ** The wire format, for any reading of "reads" *)

(** [decode] with the machine of a supported type, into a fresh zero
    destination, reads [wire] back as [norm], in every sense of "reads" that
    holds of the decoder's primitives and is kept by sequencing. *)
Section DecodeRules.

Variable got : forall A : Type, M dstate A -> list Z -> A -> Prop.
Arguments got {A}.

Hypothesis got_ret : forall (A : Type) (a : A), got (ret a) [] a.
Hypothesis got_bind :
  forall (A B : Type) (c : M dstate A) (k : A -> M dstate B) (b1 b2 : list Z) (a : A) (b : B),
    got c b1 a -> got (k a) b2 b -> got (bind c k) (b1 ++ b2) b.
Hypothesis got_decodeUint : forall u : Z, is_uint64 u -> got decodeUint (uvarint u) u.
Hypothesis got_decodeInt :
  forall i : Z, is_int64 i -> got decodeInt (uvarint (binary.zigzag i)) i.
Hypothesis got_d_readByte : forall b : Z, got d_readByte [b] b.
Hypothesis got_d_read :
  forall s : list Z, Z.of_nat (length s) <= maxAlloc -> got (d_read (Z.of_nat (length s))) s s.
Hypothesis got_decodeZero_zero : got (decodeZero true) [0] true.
Hypothesis got_after_decodeZero :
  forall (A : Type) (k : bool -> M dstate A) (b : Z) (bs : list Z) (a : A),
    b <> 0 -> got (k false) (b :: bs) a -> got (bind (decodeZero true) k) (b :: bs) a.
Arguments got_ret {A}.
Arguments got_bind {A B}.
Arguments got_after_decodeZero {A}.

Lemma got_bind_ret {A B : Type} (c : M dstate A) (k : A -> M dstate B)
      (bs : list Z) (a : A) (b : B) :
  got c bs a -> got (k a) [] b -> got (bind c k) bs b.
Proof. intros H1 H2. rewrite <- (app_nil_r bs). apply (got_bind _ _ _ _ a); assumption. Qed.

Lemma got_for_loop {A : Type} (body : nat -> A -> M dstate A) (chunks : nat -> list Z)
      (acc : nat -> A) (n : nat) :
  forall i,
    (forall j, (i <= j < i + n)%nat -> got (body j (acc j)) (chunks j) (acc (S j))) ->
    got (for_loop n i body (acc i)) (flat_map chunks (seq i n)) (acc (i + n)%nat).
Proof.
  induction n as [|n IH]; intros i Hb; cbn [for_loop seq flat_map].
  - rewrite Nat.add_0_r. apply got_ret.
  - apply (got_bind _ _ _ _ (acc (S i))).
    + apply Hb. lia.
    + replace (i + S n)%nat with (S i + n)%nat by lia.
      apply IH. intros j Hj. apply Hb. lia.
Qed.

Section DecodeRulesMachines.

Variable U : usercode.

Lemma got_wrap (t : type) (m : machine) (v r : value) (bs : list Z) (k : nat) :
  (Comparable t = true -> is_zero v = false -> exists b bs', bs = b :: bs' /\ b <> 0) ->
  (forall f, (k <= f)%nat -> got (decode U f m true (Zero t)) bs r) ->
  forall f, (S k <= f)%nat ->
    got (decode U f (wrap t m) true (Zero t))
          (if Comparable t && is_zero v then [0] else bs)
          (if Comparable t && is_zero v then Zero t else r).
Proof.
  intros Hhead H f Hf. unfold wrap. destruct (Comparable t) eqn:Ec; cbn [andb].
  - destruct f as [|f]; [lia|]. cbn [decode]. destruct (is_zero v) eqn:Ez.
    + apply (got_bind_ret _ _ _ true); [apply got_decodeZero_zero|apply got_ret].
    + destruct (Hhead eq_refl eq_refl) as (b & bs' & -> & Hb).
      apply got_after_decodeZero; [exact Hb|]. apply H. lia.
  - apply H. lia.
Qed.

Lemma got_elements (m : machine) (e : type) (mk : list value -> value)
      (xs : list value) (f : nat) :
  (forall l j, (j < length l)%nat -> @Index dstate true (mk l) j = ret (nth j l VNilPtr, true)) ->
  (forall l j x, set_elem (mk l) j x = mk (set_nth l j x)) ->
  (forall x, In x xs -> got (decode U f m true (Zero e)) (wire e x) (norm e x)) ->
  got (for_loop (length xs) 0
           (fun i v =>
              bind (Index true v i) (fun xa =>
              bind (decode U f m (snd xa) (fst xa)) (fun x' =>
              ret (set_elem v i x')))) (mk (repeat (Zero e) (length xs))))
        (flat_map (wire e) xs)
        (mk (map (norm e) xs)).
Proof.
  intros Hidx Hset Hx.
  set (ys := map (norm e) xs). set (zs := repeat (Zero e) (length xs)).
  assert (Hlen : length ys = length zs)
    by (subst ys zs; rewrite length_map, repeat_length; reflexivity).
  assert (Hly : length ys = length xs) by (subst ys; apply length_map).
  rewrite <- (flat_map_seq_nth0 (wire e) VNilPtr xs).
  replace (mk ys) with ((fun j => mk (filled ys zs j)) (0 + length xs)%nat)
    by (cbn beta; rewrite Nat.add_0_l, <- Hly, (filled_all ys zs Hlen); reflexivity).
  change (mk zs) with ((fun j => mk (filled ys zs j)) O).
  apply got_for_loop. intros j Hj. cbn beta.
  rewrite Hidx by (rewrite filled_length; lia). rewrite bind_ret_l. cbn [fst snd].
  assert (Hz : nth j (filled ys zs j) VNilPtr = Zero e).
  { apply nth_error_to_nth. rewrite filled_nth_error by lia.
    subst zs. apply nth_error_repeat_lt. lia. }
  rewrite Hz.
  apply (got_bind_ret _ _ _ (norm e (nth j xs VNilPtr))).
  - apply Hx. apply nth_In. lia.
  - rewrite Hset. rewrite <- (filled_step ys zs j VNilPtr Hlen) by lia.
    assert (Hn : nth j ys VNilPtr = norm e (nth j xs VNilPtr)).
    { subst ys. rewrite (nth_indep (map (norm e) xs) VNilPtr (norm e VNilPtr)) by lia.
      apply map_nth. }
    rewrite Hn. apply got_ret.
Qed.

End DecodeRulesMachines.

Lemma decode_got (U : usercode) (n : nat) :
  forall t, (size t < n)%nat -> supported t = true ->
  forall v, faithful t v = true -> allocatable t v = true ->
  forall fuel, (2 * size t <= fuel)%nat ->
    got (decode U fuel (machine_of t) true (Zero t)) (wire t v) (norm t v).
Proof.
  induction n as [|n IH]; intros t Hn Hs v Hv Ha fuel Hf; [lia|].
  destruct t; try discriminate Hs; destruct v; try discriminate Hv;
    try rewrite size_struct in Hf, Hn; cbn [size] in Hf, Hn.
  - (* bool *)
    destruct fuel; [lia|]. cbn [machine_of decode wire norm Zero].
    apply (got_bind_ret _ _ _ (if b then 1 else 0)); [apply got_d_readByte|].
    destruct b; apply got_ret.
  - (* int *)
    destruct fuel; [lia|]. apply faithful_int in Hv. destruct Hv as [-> Hr].
    cbn [machine_of decode wire norm Zero].
    apply (got_bind_ret _ _ _ i); [apply got_decodeInt, (int_kind_range k), Hr|].
    rewrite (wrap_int_id k i Hr). apply got_ret.
  - (* uint *)
    destruct fuel; [lia|]. apply faithful_uint in Hv. destruct Hv as [-> Hr].
    cbn [machine_of decode wire norm Zero].
    apply (got_bind_ret _ _ _ u); [apply got_decodeUint, (uint_kind_range k), Hr|].
    rewrite (wrap_uint_id k u Hr). apply got_ret.
  - (* float64 *)
    destruct fuel; [lia|]. cbn [faithful] in Hv.
    rewrite !andb_true_iff, Z.leb_le, Z.ltb_lt in Hv.
    cbn [machine_of decode wire norm Zero].
    apply (got_bind_ret _ _ _ bits); [apply got_decodeUint; unfold is_uint64; lia|].
    apply got_ret.
  - (* complex128 *)
    destruct fuel; [lia|]. cbn [faithful] in Hv.
    rewrite !andb_true_iff, !Z.leb_le, !Z.ltb_lt in Hv.
    cbn [machine_of decode wire norm Zero].
    apply (got_bind _ _ _ _ re); [apply got_decodeUint; unfold is_uint64; lia|].
    apply (got_bind_ret _ _ _ im); [apply got_decodeUint; unfold is_uint64; lia|].
    apply got_ret.
  - (* array *)
    cbn [supported] in Hs. apply andb_true_iff in Hs. destruct Hs as [Hfit Hs].
    cbn [faithful] in Hv. apply andb_true_iff in Hv. destruct Hv as [Hlen Hv].
    apply Nat.eqb_eq in Hlen. rewrite forallb_forall in Hv.
    cbn [allocatable] in Ha. rewrite forallb_forall in Ha.
    cbn [machine_of wire norm].
    apply (got_wrap U _ _ _ _ _ (S (2 * size t))); [| |lia].
    + intros _ Hz. destruct (count_head len Hfit) as (b & bs & E & Hb).
      rewrite E. exists b, (bs ++ flat_map (wire t) elems). split; [reflexivity|].
      apply Hb. intros ->. destruct elems; [discriminate Hz|discriminate Hlen].
    + intros f Hf'. destruct f as [|f]; [lia|]. cbn [decode].
      apply (got_bind _ _ _ _ (Z.of_nat len)); [apply got_decodeUint, fits_uint64, Hfit|].
      rewrite (to_int_count len Hfit), Z.ltb_irrefl, Nat2Z.id. subst len.
      change (Zero (TArray (length elems) t)) with (VArray (repeat (Zero t) (length elems))).
      apply (got_elements U _ t VArray elems f).
      * intros l j Hj. apply Index_array, Hj.
      * reflexivity.
      * intros x Hx. apply (IH t); [lia|exact Hs|apply Hv, Hx|apply Ha, Hx|lia].
  - (* map *)
    cbn [supported] in Hs. rewrite !andb_true_iff in Hs. destruct Hs as [[Hsk Hs1] Hs2].
    cbn [faithful] in Hv. rewrite !andb_true_iff in Hv. destruct Hv as [[Hfit Hd] Hv].
    rewrite forallb_forall in Hv.
    cbn [allocatable] in Ha. rewrite forallb_forall in Ha.
    destruct fuel as [|f]; [lia|]. cbn [machine_of decode wire norm Zero].
    unfold Set_. rewrite bind_ret_l.
    apply (got_bind _ _ _ _ (Z.of_nat (length entries)));
      [apply got_decodeUint, fits_uint64, Hfit|].
    rewrite Nat2Z.id.
    set (g := fun kx : value * value => (fst kx, norm t2 (snd kx))).
    rewrite <- (flat_map_seq_nth0 (fun kx => wire t1 (fst kx) ++ wire t2 (snd kx))
                  (VNilPtr, VNilPtr) entries).
    replace (VMap (map g entries))
      with ((fun j => VMap (map g (firstn j entries))) (0 + length entries)%nat)
      by (cbn beta; rewrite Nat.add_0_l, firstn_all; reflexivity).
    change (VMap []) with ((fun j => VMap (map g (firstn j entries))) O).
    apply got_for_loop. intros j Hj. cbn beta.
    assert (Hj' : (j < length entries)%nat) by lia.
    pose proof (Hv _ (nth_In entries (VNilPtr, VNilPtr) Hj')) as Hkx.
    apply andb_true_iff in Hkx. destruct Hkx as [Hk Hx].
    pose proof (Ha _ (nth_In entries (VNilPtr, VNilPtr) Hj')) as Hax.
    apply andb_true_iff in Hax. destruct Hax as [Hak Hax].
    apply (got_bind _ _ _ _ (fst (nth j entries (VNilPtr, VNilPtr)))).
    { rewrite <- (norm_scalar t1 (fst (nth j entries (VNilPtr, VNilPtr))) Hsk) at 2.
      apply (IH t1); [lia|exact Hs1|exact Hk|exact Hak|lia]. }
    apply (got_bind_ret _ _ _ (norm t2 (snd (nth j entries (VNilPtr, VNilPtr))))).
    { apply (IH t2); [lia|exact Hs2|exact Hx|exact Hax|lia]. }
    rewrite SetMapIndex_fresh.
    + rewrite (firstn_succ_nth entries j (VNilPtr, VNilPtr)) by lia.
      rewrite map_app. apply got_ret.
    + intros kx Hin. apply in_map_iff in Hin. destruct Hin as (kx0 & <- & Hin).
      apply (distinct_keys_fresh entries Hd j kx0 (VNilPtr, VNilPtr)); [lia|exact Hin].
  - (* nil pointer *)
    destruct fuel; [lia|]. cbn [machine_of decode wire norm Zero].
    apply (got_bind_ret _ _ _ true); [apply got_decodeZero_zero|apply got_ret].
  - (* pointer *)
    cbn [supported] in Hs. cbn [faithful] in Hv. apply andb_true_iff in Hv.
    destruct Hv as [Hv Hlz]. apply negb_true_iff in Hlz.
    cbn [allocatable] in Ha.
    destruct fuel as [|f]; [lia|]. cbn [machine_of decode wire norm Zero].
    pose proof (IH t ltac:(lia) Hs v Hv Ha f ltac:(lia)) as Hrec.
    destruct (leading_zero_false _ (wire_nonempty t v Hs Hv) Hlz) as (b & bs' & E & Hb).
    rewrite E in *.
    apply got_after_decodeZero; [exact Hb|].
    unfold Set_. rewrite bind_ret_l.
    apply (got_bind_ret _ _ _ (norm t v)); [exact Hrec|apply got_ret].
  - (* slice *)
    cbn [supported] in Hs. cbn [faithful] in Hv. apply andb_true_iff in Hv.
    destruct Hv as [Hfit Hv].
    cbn [allocatable] in Ha. apply andb_true_iff in Ha. destruct Ha as [Hnew Ha].
    destruct fuel as [|f]; [lia|]. cbn [machine_of wire norm Zero].
    destruct (is_bytes t) eqn:Eb.
    + apply is_bytes_elem in Eb. subst t. cbn [decode].
      destruct (raw_bytes_faithful elems Hv) as (H1 & H2 & H3).
      apply newarray_bytes in Hnew.
      rewrite H3. rewrite <- H1 in Hfit, Hnew |- *.
      apply (got_bind _ _ _ _ (Z.of_nat (length (flat_map raw_byte elems))));
        [apply got_decodeUint, fits_uint64, Hfit|].
      apply (got_bind_ret _ _ _ (flat_map raw_byte elems)); [apply got_d_read, Hnew|].
      unfold Set_. rewrite H2. apply got_ret.
    + cbn [decode]. rewrite forallb_forall in Hv.
      apply (got_bind _ _ _ _ (Z.of_nat (length elems)));
        [apply got_decodeUint, fits_uint64, Hfit|].
      cbn zeta. rewrite (to_int_count _ Hfit), Nat2Z.id.
      replace (Z.of_nat (length elems) <? 0) with false by (symmetry; apply Z.ltb_ge; lia).
      rewrite Hnew. rewrite forallb_forall in Ha.
      unfold Set_. rewrite bind_ret_l.
      apply (got_elements U _ t (VSlice (length elems)) elems f).
      * intros l j Hj. apply Index_slice, Hj.
      * reflexivity.
      * intros x Hx. apply (IH t); [lia|exact Hs|apply Hv, Hx|apply Ha, Hx|lia].
  - (* string *)
    destruct fuel; [lia|]. cbn [faithful] in Hv. apply andb_true_iff in Hv.
    destruct Hv as [Hfit _]. cbn [allocatable] in Ha. apply Z.leb_le in Ha.
    cbn [machine_of decode wire norm Zero].
    apply (got_bind _ _ _ _ (Z.of_nat (length s))); [apply got_decodeUint, fits_uint64, Hfit|].
    apply (got_bind_ret _ _ _ s); [apply got_d_read, Ha|apply got_ret].
  - (* record *)
    rewrite supported_struct in Hs. apply andb_true_iff in Hs. destruct Hs as [Hfit Hs].
    rewrite faithful_struct in Hv. pose proof (faithful_fields_length _ _ Hv) as Hlen.
    rewrite allocatable_struct in Ha.
    rewrite wire_struct, norm_struct. cbn [machine_of].
    apply (got_wrap U _ _ _ _ _ (S (2 * fields_size fields))); [| |lia].
    + intros _ Hz. destruct (count_head (length fields) Hfit) as (b & bs & E & Hb).
      rewrite E. exists b, (bs ++ wire_fields fields fields0). split; [reflexivity|].
      apply Hb. intros Hnil. destruct fields; [|discriminate Hnil].
      destruct fields0; [discriminate Hz|discriminate Hlen].
    + intros f Hf'. destruct f as [|f]; [lia|]. cbn [decode]. rewrite length_map.
      apply (got_bind _ _ _ _ (Z.of_nat (length fields)));
        [apply got_decodeUint, fits_uint64, Hfit|].
      rewrite (to_int_count _ Hfit), Z.ltb_irrefl, Nat2Z.id, Zero_struct.
      set (ys := norm_fields fields fields0). set (zs := zero_fields fields).
      assert (Hly : length ys = length fields) by (apply norm_fields_length, Hlen).
      assert (Hlz : length ys = length zs)
        by (rewrite Hly; unfold zs, zero_fields; rewrite length_map; reflexivity).
      rewrite <- (wire_fields_seq0 fields no_field VNilPtr fields0 Hlen).
      replace (VStruct ys)
        with ((fun j => VStruct (filled ys zs j)) (0 + length fields)%nat)
        by (cbn beta; rewrite Nat.add_0_l, <- Hly, (filled_all ys zs Hlz); reflexivity).
      change (VStruct zs) with ((fun j => VStruct (filled ys zs j)) O).
      apply got_for_loop. intros j Hj. cbn beta.
      rewrite Field_struct by (rewrite filled_length; lia). rewrite bind_ret_l.
      assert (Hz : nth j (filled ys zs j) VNilPtr = Zero (Type_ (nth j fields no_field))).
      { rewrite <- (zero_fields_nth fields j ltac:(lia)).
        apply nth_error_to_nth. rewrite filled_nth_error by lia.
        apply nth_error_nth_default. fold zs. lia. }
      rewrite Hz, (nth_field_machine fields j ltac:(lia)).
      assert (Hj' : (j < length fields)%nat) by lia.
      pose proof (field_size_lt ms fields _ (nth_In fields no_field Hj')) as Hsz.
      rewrite size_struct in Hsz.
      apply (got_bind_ret _ _ _
               (norm (Type_ (nth j fields no_field)) (nth j fields0 VNilPtr))).
      * apply IH; [lia|apply supported_fields_nth; [exact Hs|lia]
                  |apply faithful_fields_nth; [exact Hv|lia]
                  |apply allocatable_fields_nth; [exact Ha|lia|lia]|lia].
      * cbn [set_elem]. rewrite <- (filled_step ys zs j VNilPtr Hlz) by lia.
        unfold ys at 3. rewrite (norm_fields_nth fields fields0 j Hlen) by lia.
        apply got_ret.
Qed.

End DecodeRules.

(** ** A stream that stops accepting bytes *)

Lemma sends_ret : sends (ret tt) [].
Proof.
  intros g w we [r|]; unfold ret; rewrite app_nil_r; [|reflexivity].
  cbn [length Nat.leb]. rewrite Nat.sub_0_r. reflexivity.
Qed.

Lemma sends_e_write (b : list Z) : sends (e_write b) b.
Proof.
  intros g w we [r|]; unfold e_write, sink_Write; cbn [e_w room written werr w_after e_types];
    [|reflexivity].
  destruct (length b <=? r)%nat; reflexivity.
Qed.

Lemma sends_bind_k (c : M estate unit) (k : unit -> M estate unit) (b1 b2 : list Z) :
  sends c b1 -> sends (k tt) b2 -> sends (bind c k) (b1 ++ b2).
Proof.
  intros H1 H2 g w we [r|]; unfold bind; rewrite H1.
  - rewrite length_app.
    destruct (length b1 <=? r)%nat eqn:E1.
    + apply Nat.leb_le in E1. rewrite H2.
      destruct (length b2 <=? r - length b1)%nat eqn:E2.
      * apply Nat.leb_le in E2.
        replace (length b1 + length b2 <=? r)%nat with true
          by (symmetry; apply Nat.leb_le; lia).
        rewrite app_assoc.
        replace (r - length b1 - length b2)%nat with (r - (length b1 + length b2))%nat by lia.
        reflexivity.
      * apply Nat.leb_gt in E2.
        replace (length b1 + length b2 <=? r)%nat with false
          by (symmetry; apply Nat.leb_gt; lia).
        rewrite firstn_app, (firstn_all2 b1) by lia. rewrite app_assoc. reflexivity.
    + apply Nat.leb_gt in E1.
      replace (length b1 + length b2 <=? r)%nat with false
        by (symmetry; apply Nat.leb_gt; lia).
      rewrite firstn_app. replace (r - length b1)%nat with O by lia.
      rewrite firstn_O, app_nil_r. reflexivity.
  - rewrite H2, app_assoc. reflexivity.
Qed.



(** ** A stream that ends too early *)

Lemma fst_bind_panic {St A B : Type} (c : M St A) (k : A -> M St B) (s : St) (p : panic_value) :
  fst (c s) = Panic p -> fst (bind c k s) = Panic p.
Proof.
  unfold bind. destruct (c s) as [[a|p'| |] s']; cbn; intros H; try discriminate.
  inversion H. reflexivity.
Qed.

Lemma read_loop_cut (p : list Z) :
  forall n i acc sh l,
    Forall (fun c => 128 <= c) p ->
    (length p < n)%nat ->
    exists e, (e = EOF \/ e = ErrUnexpectedEOF)
              /\ snd (read_loop n i acc sh (mkSource p EOF l None)) = inr e.
Proof.
  induction p as [|c p IH]; intros n i acc sh l Hall Hn.
  - destruct n as [|n]; [cbn in Hn; lia|].
    cbn [read_loop source_ReadByte data rerr snd].
    destruct (0 <? i)%nat; cbn [andb error_eqb].
    + exists ErrUnexpectedEOF. split; [right; reflexivity|reflexivity].
    + exists EOF. split; [left; reflexivity|reflexivity].
  - destruct n as [|n]; [cbn in Hn; lia|].
    inversion Hall as [|c' p' Hc Hp]; subst.
    cbn [read_loop source_ReadByte data rerr r_after tick].
    replace (c <? 128) with false by (symmetry; apply Z.ltb_ge; lia).
    apply IH; [exact Hp|cbn in Hn; lia].
Qed.

Lemma uvarint_prefix (u : Z) (p q : list Z) :
  is_uint64 u -> uvarint u = p ++ q -> q <> [] ->
  Forall (fun c => 128 <= c) p /\ (length p < 10)%nat.
Proof.
  intros [H0 H1] E Hq.
  destruct (put_loop_shape 9 u) as (pre & b & Hp & Hl & Hall & _).
  { split; [exact H0|]. rewrite two64_eq in H1.
    change (2 ^ (7 * Z.of_nat 10)) with 1180591620717411303424. lia. }
  unfold uvarint, binary.PutUvarint, binary.MaxVarintLen64 in E. rewrite Hp in E.
  destruct (exists_last Hq) as (q' & x & ->).
  rewrite app_assoc in E. apply app_inj_tail in E. destruct E as [E _]. subst pre.
  apply Forall_app in Hall. destruct Hall as [Hall _].
  rewrite length_app in Hl. split; [|lia].
  eapply Forall_impl; [|exact Hall]. cbn. intros a Ha. lia.
Qed.

Lemma cuts_nil {A : Type} (c : M dstate A) : cuts c [].
Proof.
  intros p q E Hq. symmetry in E. apply app_eq_nil in E. destruct E as [_ ->]. contradiction.
Qed.

Lemma whole_ret {A : Type} (a : A) : reads_whole (ret a) [] a.
Proof. split; [apply reads_ret|apply cuts_nil]. Qed.

Lemma whole_bind {A B : Type} (c : M dstate A) (k : A -> M dstate B)
      (b1 b2 : list Z) (a : A) (b : B) :
  reads_whole c b1 a -> reads_whole (k a) b2 b -> reads_whole (bind c k) (b1 ++ b2) b.
Proof.
  intros [R1 C1] [R2 C2]. split; [apply (reads_bind _ _ _ _ a); assumption|].
  intros p q E Hq g l. apply app_eq_app in E. destruct E as (m & [[E1 E2]|[E1 E2]]).
  - destruct m as [|x m].
    + rewrite app_nil_r in E1. cbn [app] in E2. subst b1 q.
      pose proof (R1 g [] EOF l) as H1. rewrite app_nil_r in H1.
      unfold bind. rewrite H1. apply (C2 [] b2); [reflexivity|exact Hq].
    + destruct (C1 p (x :: m) E1 ltac:(discriminate) g l) as (e & He & Hc).
      exists e. split; [exact He|]. apply fst_bind_panic, Hc.
  - subst p. unfold bind. rewrite (R1 g m EOF l). apply (C2 m q E2 Hq).
Qed.

Lemma whole_d_call_error {A : Type} (f : source -> source * (A + error)) (s : dstate)
      (e : error) :
  d_nil s = false ->
  snd (f (d_r s)) = inr e -> fst (d_call f s) = Panic (noPanic e).
Proof.
  unfold d_call. intros ->.
  destruct (f (d_r s)) as [r' [a|e']]; cbn; intros H; [discriminate|].
  inversion H. reflexivity.
Qed.

Lemma whole_decodeUint (u : Z) : is_uint64 u -> reads_whole decodeUint (uvarint u) u.
Proof.
  intros Hu. split; [apply reads_decodeUint, Hu|].
  intros p q E Hq g l. destruct (uvarint_prefix u p q Hu E Hq) as [Hall Hl].
  destruct (read_loop_cut p 10 0 0 0 l Hall Hl) as (e & He & Hr).
  exists e. split; [exact He|]. apply whole_d_call_error; [reflexivity|exact Hr].
Qed.

Lemma whole_decodeInt (i : Z) :
  is_int64 i -> reads_whole decodeInt (uvarint (binary.zigzag i)) i.
Proof.
  intros Hi. split; [apply reads_decodeInt, Hi|].
  intros p q E Hq g l.
  destruct (uvarint_prefix _ p q (zigzag_range i Hi) E Hq) as [Hall Hl].
  destruct (read_loop_cut p 10 0 0 0 l Hall Hl) as (e & He & Hr).
  exists e. split; [exact He|]. apply whole_d_call_error; [reflexivity|].
  unfold ReadVarint, ReadUvarint, binary.MaxVarintLen64. cbn [d_r].
  destruct (read_loop 10 0 0 0 (mkSource p EOF l None)) as [r' [x|e']]; cbn in *;
    [discriminate|exact Hr].
Qed.

Lemma whole_d_readByte (b : Z) : reads_whole d_readByte [b] b.
Proof.
  split; [apply reads_d_readByte|].
  intros p q E Hq g l. destruct p as [|x p].
  - exists EOF. split; [left; reflexivity|reflexivity].
  - exfalso. inversion E as [[Ex Ep]]. symmetry in Ep. apply app_eq_nil in Ep.
    destruct Ep as [_ ->]. contradiction.
Qed.

Lemma whole_d_read (s : list Z) :
  Z.of_nat (length s) <= maxAlloc -> reads_whole (d_read (Z.of_nat (length s))) s s.
Proof.
  intros Hf. split; [apply reads_d_read, Hf|].
  intros p q E Hq g l. exists ErrUnexpectedEOF. split; [right; reflexivity|].
  assert (Hlen : (length p < length s)%nat)
    by (subst s; rewrite length_app; destruct q; [contradiction|cbn; lia]).
  rewrite (d_read_short (Z.of_nat (length s)) (mkD g (mkSource p EOF l None))).
  - reflexivity.
  - lia.
  - reflexivity.
  - cbn [d_r data]. rewrite Nat2Z.id. exact Hlen.
Qed.

Lemma whole_decodeZero_zero : reads_whole (decodeZero true) [0] true.
Proof.
  split; [apply reads_decodeZero_zero|].
  intros p q E Hq g l. destruct p as [|x p].
  - exists EOF. split; [left; reflexivity|reflexivity].
  - exfalso. inversion E as [[Ex Ep]]. symmetry in Ep. apply app_eq_nil in Ep.
    destruct Ep as [_ ->]. contradiction.
Qed.

Lemma whole_after_decodeZero {A : Type} (k : bool -> M dstate A) (b : Z) (bs : list Z) (a : A) :
  b <> 0 -> reads_whole (k false) (b :: bs) a ->
  reads_whole (bind (decodeZero true) k) (b :: bs) a.
Proof.
  intros Hb [R C]. split; [apply reads_after_decodeZero; assumption|].
  intros p q E Hq g l. destruct p as [|x p].
  - exists EOF. split; [left; reflexivity|reflexivity].
  - inversion E as [[Ex Ep]]. subst x.
    unfold bind. rewrite (decodeZero_pushes_back b p g EOF l Hb).
    apply (C (b :: p) q); [cbn [app]; rewrite <- Ep; reflexivity|exact Hq].
Qed.

(** X17. A stream that ends too early is noticed.  Take a value of a
    supported type that is faithful (no NaN, no nil slice or map, no pointer
    to a value whose bytes begin with 0, every number in the range of its
    type) and that [Decode] has room for, and a registry whose entries for
    supported types are the machines [register] builds.  [Decode] of any
    proper prefix of the encoding of that value, into a zero destination of
    its type, returns [EOF] or [ErrUnexpectedEOF]: it does not return nil with
    a partly filled destination, and it does not panic. *)
Theorem Decode_truncated
  (U : usercode) (t : type) (v : value) (g : registry) (fuel : nat) (p q : list Z) :
  supported t = true ->
  faithful t v = true ->
  allocatable t v = true ->
  coherent g ->
  (2 * size t <= fuel)%nat ->
  wire t v = p ++ q ->
  q <> [] ->
  exists e,
    (e = EOF \/ e = ErrUnexpectedEOF)
    /\ fst (fst (fst (Decode U fuel (mkReader true (reader_of p))
                        (Some (TPtr t, VPtr (Zero t))) g)))
       = Returns (Some e).
Proof.
  intros Hs Hv Ha Hg Hf E Hq.
  destruct (get_machine_of t g Hs Hg) as (g' & Hget & _).
  pose proof (decode_got (@reads_whole) (@whole_ret) (@whole_bind) whole_decodeUint
                whole_decodeInt whole_d_readByte whole_d_read whole_decodeZero_zero
                (@whole_after_decodeZero) U (S (size t)) t (Nat.lt_succ_diag_r _) Hs v Hv Ha
                fuel Hf) as [_ Hc].
  destruct (Hc p q E Hq g' None) as (e & He & Hp).
  exists e. split; [exact He|].
  unfold Decode, DecodeValue.
  cbn [ValueOf resolve Indirect v_CanSet v_type v_val r_source is_reader negb].
  rewrite (bind_step _ _ _ _ _ (d_lift_get t g g' _ _ Hget)).
  unfold reader_of.
  destruct (decode U fuel (machine_of t) true (Zero t) (mkD g' (mkSource p EOF None None)))
    as [o d']. cbn [fst] in *. subst o. reflexivity.
Qed.

Lemma Decode_truncated_witness :
  exists e,
    (e = EOF \/ e = ErrUnexpectedEOF)
    /\ fst (fst (fst (Decode no_usercode 40
                        (mkReader true (reader_of (firstn 9 (wire sample_record sample_value))))
                        (Some (TPtr sample_record, VPtr (Zero sample_record))) [])))
       = Returns (Some e).
Proof.
  apply (Decode_truncated no_usercode sample_record sample_value [] 40
           (firstn 9 (wire sample_record sample_value))
           (skipn 9 (wire sample_record sample_value)));
    [reflexivity|reflexivity|reflexivity|apply coherent_nil|cbn; lia|reflexivity|discriminate].
Defined.

(** ** Types that marshal themselves *)

(** A record whose first field is unexported and not embedded is left to its
    own [MarshalBinary] and [UnmarshalBinary]. *)
Lemma get_opaque_record (ms : methods) (f : StructField type) (fs : list (StructField type))
      (g : registry) :
  let t := TStruct ms (f :: fs) in
  let m := wrap t (marshalerMachine (ptr_marshaler ms) (ptr_unmarshaler ms)) in
  PkgPath f && negb (Anonymous f) = true ->
  negb (ptr_marshaler ms || val_marshaler ms)
  && negb (ptr_unmarshaler ms || val_unmarshaler ms) = false ->
  lookup g t = None ->
  get t g = (Ok m, store (store g t (recurseMachine t)) t m).
Proof.
  intros t m Hp Hm Hl. unfold get, get_with. rewrite Hl.
  subst t. cbn [register]. unfold registering. rewrite Hl.
  rewrite Hp, bind_ret_l. unfold finish. rewrite Hm, bind_ret_l.
  subst m. unfold wrap. destruct (Comparable (TStruct ms (f :: fs))); reflexivity.
Qed.

(** X18. A record that hides its fields travels as what its own
    [MarshalBinary] returns, framed by its length.  Take a record type whose
    first field is unexported and not embedded, with [MarshalBinary] and
    [UnmarshalBinary] in the method set of its pointer, a value of it that is
    not the zero value and whose [MarshalBinary] returns a payload that is
    not empty and no longer than [maxAlloc] bytes, and a registry that holds
    for the type nothing or the machine [register] builds.  [Encode] writes
    the length and then the payload; [Decode] into a zero destination whose
    [UnmarshalBinary] accepts that payload hands it exactly that payload,
    returns nil and stores what [UnmarshalBinary] makes of it, leaving the
    bytes that follow in the stream. *)
Theorem marshaler_round_trip
  (U : usercode) (ms : methods) (f : StructField type) (fs : list (StructField type))
  (v v' : value) (b rest : list Z) (unmarshal : list Z -> value + error)
  (g : registry) (fuel : nat) :
  let t := TStruct ms (f :: fs) in
  PkgPath f && negb (Anonymous f) = true ->
  ptr_marshaler ms = true ->
  ptr_unmarshaler ms = true ->
  (forall m, lookup g t = Some m -> m = wrap t (marshalerMachine true true)) ->
  is_zero v = false ->
  AsMarshaler U true v = Some (inl b) ->
  b <> [] ->
  Z.of_nat (length b) <= maxAlloc ->
  AsUnmarshaler U true (Zero t) = Some unmarshal ->
  unmarshal b = inl v' ->
  let '(r1, g1, k) := Encode U (2 + fuel) (mkWriter true (buffer [])) (Some (TPtr t, VPtr v)) g in
  let '(r2, _, s, o) :=
    Decode U (2 + fuel) (mkReader true (reader_of (written k ++ rest)))
      (Some (TPtr t, VPtr (Zero t))) g1 in
  r1 = Returns None
  /\ written k = count (length b) ++ b
  /\ r2 = Returns None
  /\ data s = rest
  /\ o = Some v'.
Proof.
  intros t Hp He Hd Hl0 Hz Hm Hb Hmax Hu Hv.
  assert (Hfit : fits (length b) = true)
    by (apply Z.ltb_lt; unfold maxAlloc in Hmax; rewrite two63_eq; lia).
  assert (Hmm : negb (ptr_marshaler ms || val_marshaler ms)
                && negb (ptr_unmarshaler ms || val_unmarshaler ms) = false)
    by (rewrite He; reflexivity).
  set (m := wrap t (marshalerMachine true true)) in *.
  assert (Hreg : exists g1, get t g = (Ok m, g1) /\ lookup g1 t = Some m).
  { destruct (lookup g t) as [m0|] eqn:Hl.
    - rewrite (Hl0 m0 eq_refl) in Hl. exists g. split; [apply get_cached, Hl|exact Hl].
    - pose proof (get_opaque_record ms f fs g Hp Hmm Hl) as Hget. cbv zeta in Hget.
      fold t in Hget. rewrite He, Hd in Hget. fold m in Hget.
      eexists. split; [exact Hget|apply lookup_store_same]. }
  destruct Hreg as (g1 & Hget & Hl1).
  assert (Henc : writes (encode U (2 + fuel) m true v) (count (length b) ++ b)).
  { assert (Hin : forall n, writes (encode U (S n) (marshalerMachine true true) true v)
                              (count (length b) ++ b)).
    { intros n. cbn [encode andb negb]. rewrite Hm.
      apply writes_bind; [apply writes_count, Hfit|apply writes_e_write]. }
    subst m. unfold wrap. destruct (Comparable t).
    - change (encode U (2 + fuel) (compareMachine (Zero t) (marshalerMachine true true)) true v)
        with (if is_zero v then e_writeByte 0
              else encode U (S fuel) (marshalerMachine true true) true v).
      rewrite Hz. apply Hin.
    - apply Hin. }
  assert (Hdec : reads (decode U (2 + fuel) m true (Zero t)) (count (length b) ++ b) v').
  { assert (Hin : forall n, reads (decode U (S n) (marshalerMachine true true) true (Zero t))
                              (count (length b) ++ b) v').
    { intros n. cbn [decode andb negb]. rewrite Hu.
      apply (reads_bind _ _ _ _ (Z.of_nat (length b)));
        [apply reads_decodeUint, fits_uint64, Hfit|].
      apply (reads_bind_ret _ _ _ b); [apply reads_d_read, Hmax|].
      rewrite Hv. apply reads_ret. }
    subst m. unfold wrap. destruct (Comparable t).
    - change (decode U (2 + fuel) (compareMachine (Zero t) (marshalerMachine true true)) true
                (Zero t))
        with (z <- decodeZero true ;;
              if z then ret (Zero t)
              else decode U (S fuel) (marshalerMachine true true) true (Zero t)).
      destruct (count_head (length b) Hfit) as (c & cs & E & Hc).
      assert (Hnz : c <> 0)
        by (apply Hc; intros H0; apply length_zero_iff_nil in H0; contradiction).
      rewrite E. cbn [app]. apply reads_after_decodeZero; [exact Hnz|].
      change (c :: cs ++ b) with ((c :: cs) ++ b). rewrite <- E. apply Hin.
    - apply Hin. }
  unfold Encode, EncodeValue.
  cbn [ValueOf resolve Indirect v_CanSet v_type v_val is_writer w_sink].
  rewrite (bind_step _ _ _ _ _ (e_lift_get t g g1 _ _ Hget)).
  unfold buffer. rewrite (Henc g1 [] EOF).
  cbn [recovered e_types e_w written app].
  unfold Decode, DecodeValue.
  cbn [ValueOf resolve Indirect v_CanSet v_type v_val r_source is_reader negb].
  rewrite (bind_step _ _ _ _ _ (d_lift_get t g1 g1 _ _ (get_cached _ _ _ Hl1))).
  unfold reader_of. rewrite (Hdec g1 rest EOF None).
  repeat split; reflexivity.
Qed.

Lemma marshaler_round_trip_witness :
  let '(r1, g1, k) :=
    Encode stamp_code (2 + 0) (mkWriter true (buffer []))
      (Some (TPtr stamp, VPtr (VStruct [VInt KInt64 7]))) [] in
  let '(r2, _, s, o) :=
    Decode stamp_code (2 + 0) (mkReader true (reader_of (written k ++ [9])))
      (Some (TPtr stamp, VPtr (Zero stamp))) g1 in
  r1 = Returns None
  /\ written k = count (length [7]) ++ [7]
  /\ r2 = Returns None
  /\ data s = [9]
  /\ o = Some (VStruct [VInt KInt64 7]).
Proof.
  apply (marshaler_round_trip stamp_code (mkMethods true true true false)
           (mkField true false (TInt KInt64)) [] (VStruct [VInt KInt64 7])
           (VStruct [VInt KInt64 7]) [7] [9]
           (fun b => match b with
                     | [x] => inl (VStruct [VInt KInt64 x])
                     | _ => inr (ErrMarshal 1)
                     end) [] 0);
    try reflexivity.
  - intros m H. discriminate H.
  - discriminate.
  - vm_compute. discriminate.
Defined.

(** ** The encoding as a code *)

(** X19. The encoding is self-delimiting.  Take two values of one supported
    type, both faithful (no NaN, no nil slice or map, no pointer to a value
    whose bytes begin with 0, every number in the range of its type) and both
    values [Decode] has room for, and a registry whose entries for supported
    types are the machines [register] builds.  What [Encode] writes for the
    one is not a proper prefix of what it writes for the other, and if both
    are written as the same bytes they are deep-equal to one and the same
    value (the one [Decode] makes of those bytes). *)
Theorem encoding_self_delimiting
  (U : usercode) (t : type) (v1 v2 : value) (g : registry) (fuel : nat)
  (r1 r2 : result) (g1 g2 : registry) (k1 k2 : sink) (q : list Z) :
  supported t = true ->
  faithful t v1 = true ->
  faithful t v2 = true ->
  allocatable t v1 = true ->
  allocatable t v2 = true ->
  coherent g ->
  (2 * size t <= fuel)%nat ->
  Encode U fuel (mkWriter true (buffer [])) (Some (TPtr t, VPtr v1)) g = (r1, g1, k1) ->
  Encode U fuel (mkWriter true (buffer [])) (Some (TPtr t, VPtr v2)) g = (r2, g2, k2) ->
  written k2 = written k1 ++ q ->
  q = [] /\ exists r, DeepEqual v1 r = true /\ DeepEqual v2 r = true.
Proof.
  intros Hs Hv1 Hv2 Ha1 Ha2 Hg Hf H1 H2.
  destruct (Encode_wire U t v1 g fuel Hs Hv1 Hg Hf) as (g1' & E1 & _).
  rewrite E1 in H1. inversion H1. subst r1 g1 k1. clear H1.
  destruct (Encode_wire U t v2 g fuel Hs Hv2 Hg Hf) as (g2' & E2 & _).
  rewrite E2 in H2. inversion H2. subst r2 g2 k2. clear H2.
  cbn [buffer written]. intros E.
  pose proof (decode_wire U (S (size t)) t (Nat.lt_succ_diag_r _) Hs v1 Hv1 Ha1 fuel Hf) as R1.
  pose proof (decode_wire U (S (size t)) t (Nat.lt_succ_diag_r _) Hs v2 Hv2 Ha2 fuel Hf) as R2.
  assert (Hq : q = []).
  { destruct q as [|x q]; [reflexivity|]. exfalso.
    pose proof (decode_got (@reads_whole) (@whole_ret) (@whole_bind) whole_decodeUint
                  whole_decodeInt whole_d_readByte whole_d_read whole_decodeZero_zero
                  (@whole_after_decodeZero) U (S (size t)) t (Nat.lt_succ_diag_r _) Hs v2 Hv2
                  Ha2 fuel Hf) as [_ Hc].
    destruct (Hc (wire t v1) (x :: q) E ltac:(discriminate) [] None) as (e & _ & Hp).
    pose proof (R1 [] [] EOF None) as H1. rewrite app_nil_r in H1.
    rewrite H1 in Hp. discriminate Hp. }
  split; [exact Hq|]. subst q. rewrite app_nil_r in E.
  exists (norm t v1). split.
  - apply (DeepEqual_norm (S (size t))); [lia|exact Hs|exact Hv1].
  - assert (En : norm t v1 = norm t v2).
    { pose proof (R1 [] [] EOF None) as H1. pose proof (R2 [] [] EOF None) as H2.
      rewrite E in H2. rewrite H1 in H2. inversion H2. reflexivity. }
    rewrite En. apply (DeepEqual_norm (S (size t))); [lia|exact Hs|exact Hv2].
Qed.

Lemma encoding_self_delimiting_witness :
  @nil Z = []
  /\ exists r,
       DeepEqual (VSlice 4 [VInt KInt 1; VInt KInt 2]) r = true
       /\ DeepEqual (VSlice 2 [VInt KInt 1; VInt KInt 2]) r = true.
Proof.
  apply (encoding_self_delimiting no_usercode (TSlice (TInt KInt))
           (VSlice 4 [VInt KInt 1; VInt KInt 2]) (VSlice 2 [VInt KInt 1; VInt KInt 2])
           [] 5
           (Returns None) (Returns None)
           [(TSlice (TInt KInt), sliceMachine (TSlice (TInt KInt)) intMachine); (TInt KInt, intMachine)]
           [(TSlice (TInt KInt), sliceMachine (TSlice (TInt KInt)) intMachine); (TInt KInt, intMachine)]
           (buffer [2; 2; 4]) (buffer [2; 2; 4]) []);
    [reflexivity|reflexivity|reflexivity|reflexivity|reflexivity|apply coherent_nil|cbn; lia
    |reflexivity|reflexivity|reflexivity].
Defined.

(** ** Destinations that already hold a value *)

Lemma decode_ignores_destination (U : usercode) (fuel : nat) (t : type) (d0 : value) :
  stored_whole t = true ->
  faithful t d0 = true ->
  decode U fuel (machine_of t) true d0 = decode U fuel (machine_of t) true (Zero t).
Proof.
  intros Ht Hd. destruct fuel as [|fuel]; [reflexivity|].
  destruct t; try discriminate Ht; destruct d0; try discriminate Hd;
    cbn [machine_of decode Zero]; try reflexivity.
  - apply faithful_int in Hd. destruct Hd as [-> _]. reflexivity.
  - apply faithful_uint in Hd. destruct Hd as [-> _]. reflexivity.
  - destruct (is_bytes t); reflexivity.
Qed.

(** X20. What a destination held before does not show afterwards.  For a
    boolean, a number, a string, a slice or a map, [Decode] into a
    destination that already holds a value behaves exactly as [Decode] into a
    fresh one: same result, same value stored, same bytes consumed. *)
Theorem Decode_ignores_old_contents
  (U : usercode) (fuel : nat) (r : io_Reader) (t : type) (d0 : value) (g : registry) :
  supported t = true ->
  stored_whole t = true ->
  faithful t d0 = true ->
  coherent g ->
  Decode U fuel r (Some (TPtr t, VPtr d0)) g
  = Decode U fuel r (Some (TPtr t, VPtr (Zero t))) g.
Proof.
  intros Hs Ht Hd Hg.
  destruct (get_machine_of t g Hs Hg) as (g' & Hget & _).
  unfold Decode, DecodeValue.
  cbn [ValueOf resolve Indirect v_CanSet v_type v_val r_source is_reader negb].
  rewrite !(bind_step _ _ _ _ _ (d_lift_get t g g' _ _ Hget)).
  rewrite (decode_ignores_destination U fuel t d0 Ht Hd). reflexivity.
Qed.

Lemma Decode_ignores_old_contents_witness :
  Decode no_usercode 5 (mkReader true (reader_of [1; 6; 9]))
    (Some (TPtr (TSlice (TInt KInt)), VPtr (VSlice 2 [VInt KInt 7; VInt KInt 8]))) []
  = Decode no_usercode 5 (mkReader true (reader_of [1; 6; 9]))
      (Some (TPtr (TSlice (TInt KInt)), VPtr (Zero (TSlice (TInt KInt))))) [].
Proof.
  apply (Decode_ignores_old_contents no_usercode 5 (mkReader true (reader_of [1; 6; 9]))
           (TSlice (TInt KInt)) (VSlice 2 [VInt KInt 7; VInt KInt 8]) []);
    [reflexivity|reflexivity|reflexivity|apply coherent_nil].
Defined.

(** ** Types whose registration failed *)

Lemma get_panic_entry (t : type) (g : registry) (p : panic_value) :
  fst (get t g) = Panic p -> lookup (snd (get t g)) t = Some nil_machine.
Proof.
  unfold get, get_with. destruct (lookup g t) as [m|] eqn:Hl; [discriminate|].
  destruct (register_frame t) as (body & ->). unfold registering. rewrite Hl.
  destruct (body (store g t (recurseMachine t))) as [[r| p'| |] g2]; cbn; try discriminate.
  intros _. apply lookup_store_same.
Qed.

(** X21. A type whose registration failed stays failed, and differently.
    Once [types.get(t)] has panicked, for whatever type [t] and reason, every
    later [Encode] or [Decode] of a value of that type panics with the
    runtime's nil dereference instead of the original panic: the registry
    holds a nil machine for [t], is not changed any more, and nothing is
    written or read. *)
Theorem failed_type_stays_failed
  (U : usercode) (fuel : nat) (k : sink) (r : io_Reader) (t : type) (v : value)
  (g : registry) (p : panic_value) :
  fst (get t g) = Panic p ->
  let g1 := snd (get t g) in
  Encode U (S fuel) (mkWriter true k) (Some (TPtr t, VPtr v)) g1
  = (Panics (RuntimeError NilDereference), g1, k)
  /\ Decode U (S fuel) r (Some (TPtr t, VPtr v)) g1
     = (Panics (RuntimeError NilDereference), g1, r_source r, None).
Proof.
  intros Hp g1. pose proof (get_panic_entry t g p Hp) as Hl. fold g1 in Hl.
  pose proof (get_cached _ _ _ Hl) as Hc.
  unfold Encode, EncodeValue, Decode, DecodeValue.
  cbn [ValueOf resolve Indirect v_CanSet v_type v_val is_writer w_sink r_source].
  rewrite (bind_step _ _ _ _ _ (e_lift_get t g1 g1 _ _ Hc)).
  rewrite (bind_step _ _ _ _ _ (d_lift_get t g1 g1 _ _ Hc)).
  split; reflexivity.
Qed.

Lemma failed_type_stays_failed_witness :
  let g1 := snd (get (TSlice (TFunc no_methods)) []) in
  Encode no_usercode 1 (mkWriter true (buffer [])) (Some (TPtr (TSlice (TFunc no_methods)),
                                                          VPtr (VSlice 0 []))) g1
  = (Panics (RuntimeError NilDereference), g1, buffer [])
  /\ Decode no_usercode 1 (mkReader true (reader_of [0]))
       (Some (TPtr (TSlice (TFunc no_methods)), VPtr (VSlice 0 []))) g1
     = (Panics (RuntimeError NilDereference), g1, r_source (mkReader true (reader_of [0])), None).
Proof.
  apply (failed_type_stays_failed no_usercode 0 (buffer []) (mkReader true (reader_of [0]))
           (TSlice (TFunc no_methods)) (VSlice 0 []) [] (TypeError (TFunc no_methods))).
  reflexivity.
Defined.

(** ** Floating-point numbers *)

(** X22. A floating-point number that is itself the value handed over
    travels as its bits.  With a registry whose entries for supported types
    are the machines [register] builds, a [float64] handed to [Encode] by
    pointer and read back by [Decode] into a pointer to a [float64], and
    likewise each half of a [complex128] handed over and read back by
    pointer, comes back with exactly the 64-bit pattern it had: there the
    sign of a zero and the payload of a NaN are kept.  (Nothing is said here
    of a number inside an array or a record, which are compared with their
    zero value before they are written.) *)
Theorem float_bits_round_trip
  (U : usercode) (bits re im : Z) (g : registry) (fuel : nat) (rest : list Z) :
  is_uint64 bits -> is_uint64 re -> is_uint64 im ->
  coherent g ->
  (let '(r1, g1, k) :=
     Encode U (S fuel) (mkWriter true (buffer [])) (Some (TPtr TFloat64, VPtr (VFloat bits))) g in
   let '(r2, _, s, o) :=
     Decode U (S fuel) (mkReader true (reader_of (written k ++ rest)))
       (Some (TPtr TFloat64, VPtr (Zero TFloat64))) g1 in
   r1 = Returns None /\ r2 = Returns None /\ data s = rest /\ o = Some (VFloat bits))
  /\ (let '(r1, g1, k) :=
        Encode U (S fuel) (mkWriter true (buffer []))
          (Some (TPtr TComplex128, VPtr (VComplex re im))) g in
      let '(r2, _, s, o) :=
        Decode U (S fuel) (mkReader true (reader_of (written k ++ rest)))
          (Some (TPtr TComplex128, VPtr (Zero TComplex128))) g1 in
      r1 = Returns None /\ r2 = Returns None /\ data s = rest /\ o = Some (VComplex re im)).
Proof.
  intros Hb Hre Him Hg. split.
  - destruct (get_machine_of TFloat64 g eq_refl Hg) as (g1 & Hget & Hg1).
    destruct (get_machine_of TFloat64 g1 eq_refl Hg1) as (g2 & Hget2 & _).
    unfold Encode, EncodeValue.
    cbn [ValueOf resolve Indirect v_CanSet v_type v_val is_writer w_sink].
    rewrite (bind_step _ _ _ _ _ (e_lift_get _ g g1 _ _ Hget)).
    cbn [machine_of encode]. unfold buffer.
    rewrite (writes_encodeUint bits Hb g1 [] EOF).
    cbn [recovered e_types e_w written app].
    unfold Decode, DecodeValue.
    cbn [ValueOf resolve Indirect v_CanSet v_type v_val r_source is_reader negb].
    rewrite (bind_step _ _ _ _ _ (d_lift_get _ g1 g2 _ _ Hget2)).
    cbn [machine_of decode Zero]. unfold reader_of.
    rewrite (bind_step _ _ _ _ _ (reads_decodeUint bits Hb g2 rest EOF None)).
    unfold Set_, ret. cbn [recovered d_types d_r data].
    repeat split; reflexivity.
  - destruct (get_machine_of TComplex128 g eq_refl Hg) as (g1 & Hget & Hg1).
    destruct (get_machine_of TComplex128 g1 eq_refl Hg1) as (g2 & Hget2 & _).
    unfold Encode, EncodeValue.
    cbn [ValueOf resolve Indirect v_CanSet v_type v_val is_writer w_sink].
    rewrite (bind_step _ _ _ _ _ (e_lift_get _ g g1 _ _ Hget)).
    cbn [machine_of encode]. unfold buffer.
    rewrite (writes_bind _ _ _ _ (writes_encodeUint re Hre) (writes_encodeUint im Him)
               g1 [] EOF).
    cbn [recovered e_types e_w written app].
    unfold Decode, DecodeValue.
    cbn [ValueOf resolve Indirect v_CanSet v_type v_val r_source is_reader negb].
    rewrite (bind_step _ _ _ _ _ (d_lift_get _ g1 g2 _ _ Hget2)).
    cbn [machine_of decode Zero]. unfold reader_of. rewrite <- app_assoc.
    rewrite (bind_step _ _ _ _ _ (reads_decodeUint re Hre g2 (uvarint im ++ rest) EOF None)).
    rewrite (bind_step _ _ _ _ _ (reads_decodeUint im Him g2 rest EOF _)).
    unfold Set_, ret. cbn [recovered d_types d_r data].
    repeat split; reflexivity.
Qed.

Lemma float_bits_round_trip_witness :
  let '(r1, g1, k) :=
    Encode no_usercode 1 (mkWriter true (buffer []))
      (Some (TPtr TFloat64, VPtr (VFloat 9221120237041090561))) [] in
  let '(r2, _, s, o) :=
    Decode no_usercode 1 (mkReader true (reader_of (written k ++ [9])))
      (Some (TPtr TFloat64, VPtr (Zero TFloat64))) g1 in
  r1 = Returns None /\ r2 = Returns None /\ data s = [9]
  /\ o = Some (VFloat 9221120237041090561).
Proof.
  assert (H1 : is_uint64 9221120237041090561) by (unfold is_uint64; rewrite two64_eq; lia).
  assert (H2 : is_uint64 0) by (unfold is_uint64; rewrite two64_eq; lia).
  exact (proj1 (float_bits_round_trip no_usercode 9221120237041090561 0 0 [] 0 [9]
                  H1 H2 H2 coherent_nil)).
Defined.

(** ** Slices are allocated afresh *)

(** C10 as stated fails: a stream that announces 2^63 elements.  Decoding it
    into a slice of ints does not set the destination to any slice: the
    length handed to [MakeSlice] is negative, and the panic leaves [Decode]. *)
Lemma Decode_slice_count_out_of_range :
  let '(res, _, _, dst) :=
    Decode no_usercode 3 (mkReader true (reader_of (uvarint two63)))
      (Some (TPtr (TSlice (TInt KInt)), VPtr VNilSlice)) [] in
  res = Panics (RuntimeError LenOutOfRange) /\ dst = None.
Proof. vm_compute. split; reflexivity. Qed.

(** C10, amended. Take a slice type other than the byte slice, with an
    element type built from booleans, integers, [float64], [complex128],
    strings, arrays, slices, pointers, maps with scalar keys and records of
    exported fields, and a stream that holds a count [n] below 2^63 which the
    allocator accepts for that element type ([n] is 1, or [n] elements take
    at most [maxAlloc] bytes), followed by the encodings of [n] faithful
    elements that [Decode] has room for.  Then decode returns, having
    consumed exactly those bytes, and the destination, whatever it held
    before, is a freshly allocated non-nil slice whose length and capacity
    are [n] and whose elements are deep-equal to the encoded ones.  Whenever
    decode returns at all, whatever the stream held, the destination is a
    non-nil slice whose length and capacity are the count read.  A count of
    2^63 or more, or one the allocator refuses, makes decode panic.  In
    particular the nil slice is written as the single byte 0, and that byte
    is read back as an empty slice that is not nil. *)
Theorem sliceMachine_decode_allocates (U : usercode) (e : type) :
  (forall (xs : list value) (old : value) (g : registry) (rest : list Z) (fuel : nat),
      supported e = true ->
      is_bytes e = false ->
      fits (length xs) = true ->
      forallb (faithful e) xs = true ->
      forallb (allocatable e) xs = true ->
      newarray_ok e (Z.of_nat (length xs)) = true ->
      (2 * size (TSlice e) <= fuel)%nat ->
      let '(o, s') :=
        decode U fuel (machine_of (TSlice e)) true old
          (mkD g (reader_of (count (length xs) ++ flat_map (wire e) xs ++ rest))) in
      o = Ok (VSlice (length xs) (map (norm e) xs))
      /\ data (d_r s') = rest
      /\ DeepEqual_list xs (map (norm e) xs) = true)
  /\ (forall fuel m settable v s v' s',
        decode U fuel (sliceMachine (TSlice e) m) settable v s = (Ok v', s') ->
        exists u s1 xs,
          decodeUint s = (Ok u, s1)
          /\ 0 <= to_int u
          /\ v' = VSlice (Z.to_nat (to_int u)) xs
          /\ length xs = Z.to_nat (to_int u))
  /\ (forall fuel m settable v g rest er l u,
        is_uint64 u ->
        (to_int u <? 0) || negb (newarray_ok e (to_int u)) = true ->
        fst (decode U (S fuel) (sliceMachine (TSlice e) m) settable v
               (mkD g (mkSource (uvarint u ++ rest) er l None)))
        = Panic (RuntimeError LenOutOfRange))
  /\ (forall fuel m a g k,
        room k = None ->
        encode U (S fuel) (sliceMachine (TSlice e) m) a VNilSlice (mkE g (Some k))
        = (Ok tt, mkE g (Some (mkSink (written k ++ [0]) None (werr k) (tick (w_after k) false)))))
  /\ (forall fuel m v g rest,
        fst (decode U (S fuel) (sliceMachine (TSlice e) m) true v (mkD g (reader_of (0 :: rest))))
        = Ok (VSlice 0 [])
        /\ DeepEqual VNilSlice (VSlice 0 []) = false).
Proof.
  split; [|split; [|split; [|split]]].
  - intros xs old g rest fuel Hs Hb Hfit Hv Ha Hnew Hf.
    assert (Hread : reads (decode U fuel (machine_of (TSlice e)) true old)
                      (count (length xs) ++ flat_map (wire e) xs)
                      (VSlice (length xs) (map (norm e) xs))).
    { cbn [machine_of]. rewrite Hb. cbn [size] in Hf.
      destruct fuel as [|f]; [lia|]. cbn [decode].
      rewrite forallb_forall in Hv. rewrite forallb_forall in Ha.
      apply (reads_bind _ _ _ _ (Z.of_nat (length xs)));
        [apply reads_decodeUint, fits_uint64, Hfit|].
      cbn zeta. rewrite (to_int_count _ Hfit), Nat2Z.id.
      replace (Z.of_nat (length xs) <? 0) with false by (symmetry; apply Z.ltb_ge; lia).
      rewrite Hnew. unfold Set_. rewrite bind_ret_l.
      apply (reads_elements U _ e (VSlice (length xs)) xs f).
      - intros l j Hj. apply Index_slice, Hj.
      - reflexivity.
      - intros x Hx.
        apply (decode_wire U (S (size e))); [lia|exact Hs|apply Hv, Hx|apply Ha, Hx|lia]. }
    unfold reader_of. rewrite app_assoc, (Hread g rest EOF None).
    split; [reflexivity|]. split; [reflexivity|].
    apply DeepEqual_list_map. intros x Hx. rewrite forallb_forall in Hv.
    apply (DeepEqual_norm (S (size e))); [lia|exact Hs|apply Hv, Hx].
  - intros fuel m settable v s v' s' H.
    destruct fuel as [|fuel]; [discriminate|].
    cbn [decode] in H. apply bind_Ok in H. destruct H as (u & s1 & Hu & H).
    exists u, s1.
    apply bind_Ok in H. destruct H as (v0 & s2 & Hv0 & H).
    destruct (to_int u <? 0) eqn:El; [discriminate|]. apply Z.ltb_ge in El.
    destruct (newarray_ok e (to_int u)); [|discriminate].
    destruct settable; [|discriminate].
    cbn in Hv0. unfold ret in Hv0. inversion Hv0. subst v0 s2. clear Hv0.
    assert (Hinv : exists xs, v' = VSlice (Z.to_nat (to_int u)) xs
                              /\ length xs = Z.to_nat (to_int u)).
    { refine (for_loop_invariant
                (fun w => exists xs, w = VSlice (Z.to_nat (to_int u)) xs
                                     /\ length xs = Z.to_nat (to_int u))
                _ _ _ _ _ _ _ _ _ H).
      - intros j a s0 a' s0' (xs & -> & Hlen) Hb.
        apply bind_Ok in Hb. destruct Hb as (xa & s3 & _ & Hb).
        apply bind_Ok in Hb. destruct Hb as (x' & s4 & _ & Hb).
        unfold ret in Hb. inversion Hb. cbn.
        exists (set_nth xs j x'). split; [reflexivity|].
        rewrite set_nth_length. exact Hlen.
      - exists (repeat (Zero e) (Z.to_nat (to_int u))). split; [reflexivity|].
        apply repeat_length. }
    destruct Hinv as (xs & Hv & Hlen). exists xs. auto.
  - intros fuel m settable v g rest er l u Hu Hbad. cbn [decode].
    unfold bind at 1. rewrite (reads_decodeUint u Hu g rest er l). cbv zeta.
    unfold bind. destruct (to_int u <? 0); [reflexivity|].
    cbn [orb] in Hbad. apply negb_true_iff in Hbad. rewrite Hbad. reflexivity.
  - intros fuel m a g k Hr. cbn [encode]. unfold encodeUint.
    change (binary.PutUvarint 0) with (Some [0]). apply e_write_buffer. exact Hr.
  - intros fuel m v g rest. split; reflexivity.
Qed.

Lemma sliceMachine_decode_allocates_witness :
  let '(o, s') :=
    decode no_usercode 5 (machine_of (TSlice (TInt KInt))) true
      (VSlice 7 [VInt KInt 9])
      (mkD [] (reader_of (count (length [VInt KInt 1; VInt KInt 2])
                          ++ flat_map (wire (TInt KInt)) [VInt KInt 1; VInt KInt 2] ++ [8]))) in
  o = Ok (VSlice (length [VInt KInt 1; VInt KInt 2])
            (map (norm (TInt KInt)) [VInt KInt 1; VInt KInt 2]))
  /\ data (d_r s') = [8]
  /\ DeepEqual_list [VInt KInt 1; VInt KInt 2]
       (map (norm (TInt KInt)) [VInt KInt 1; VInt KInt 2]) = true.
Proof.
  apply (proj1 (sliceMachine_decode_allocates no_usercode (TInt KInt))
           [VInt KInt 1; VInt KInt 2] (VSlice 7 [VInt KInt 9]) [] [8] 5%nat);
    [reflexivity|reflexivity|reflexivity|reflexivity|reflexivity|reflexivity|cbn; lia].
Defined.

(** ** A source that is not a [reader] *)

(** X24. [Decode] from a plain [io.Reader].  Handed a source without
    [ReadByte] and [UnreadByte], [DecodeValue] wraps in the [bufio.Reader]
    not the source but the nil value of the failed type assertion.  For a
    destination of a supported type, with a registry whose entries for
    supported types are the machines [register] builds, [Decode] then panics
    with the runtime's nil dereference at its first read, and nothing has
    been read from the source. *)
Theorem Decode_plain_reader_panics
  (U : usercode) (fuel : nat) (src : source) (t : type) (v : value) (g : registry) :
  supported t = true ->
  coherent g ->
  exists g',
    Decode U (S fuel) (mkReader false src) (Some (TPtr t, VPtr v)) g
    = (Panics (RuntimeError NilDereference), g', src, None).
Proof.
  intros Hs Hg.
  destruct (get_machine_of t g Hs Hg) as (g' & Hget & _).
  exists g'.
  unfold Decode, DecodeValue.
  cbn [ValueOf resolve Indirect v_CanSet v_type v_val r_source is_reader negb].
  rewrite (bind_step _ _ _ _ _ (d_lift_get t g g' _ _ Hget)).
  assert (Hfirst : forall (A : Type) (f : source -> source * (A + error)) (B : Type)
                     (k : A -> M dstate B),
             bind (d_call f) k (mkDstate g' src true)
             = (Panic (RuntimeError NilDereference), mkDstate g' src true))
    by reflexivity.
  assert (Hzero : forall (z : bool) (B : Type) (k : bool -> M dstate B),
             bind (decodeZero z) k (mkDstate g' src true)
             = (Panic (RuntimeError NilDereference), mkDstate g' src true))
    by reflexivity.
  assert (Hwrap : forall m,
             (forall f, decode U (S f) m true v (mkDstate g' src true)
                        = (Panic (RuntimeError NilDereference), mkDstate g' src true)) ->
             decode U (S fuel) (wrap t m) true v (mkDstate g' src true)
             = (Panic (RuntimeError NilDereference), mkDstate g' src true)).
  { intros m Hm. unfold wrap. destruct (Comparable t); [|apply Hm].
    cbn [decode]. apply Hzero. }
  assert (Hdec : decode U (S fuel) (machine_of t) true v (mkDstate g' src true)
                 = (Panic (RuntimeError NilDereference), mkDstate g' src true)).
  { destruct t; try discriminate Hs; cbn [machine_of];
      first [ reflexivity
            | destruct (is_bytes t); reflexivity
            | apply Hwrap; intros f; reflexivity ]. }
  rewrite Hdec. reflexivity.
Qed.

Lemma Decode_plain_reader_panics_witness :
  exists g',
    Decode no_usercode 1 (mkReader false (reader_of [6])) (Some (TPtr (TInt KInt), VPtr (VInt KInt 0))) []
    = (Panics (RuntimeError NilDereference), g', reader_of [6], None).
Proof.
  apply (Decode_plain_reader_panics no_usercode 0 (reader_of [6]) (TInt KInt) (VInt KInt 0) []);
    [reflexivity|apply coherent_nil].
Defined.
